(** * Resilience and change-detection core of the Discord clan bot

    A shallow embedding of the TTL cache ([cache.py]), the request
    de-duplicator ([cache.py]), the two API gateways ([coc_api.py] and
    [coc_get] of [discordwelcomebot.py]), the join/leave tracker
    ([track_clan] of [discordwelcomebot.py]) and the monthly donation delta
    ([donations.py]), followed by the properties proved about them.

    Conventions.  Python [None] is [None] of an [option]; a [dict] keyed by
    strings is a [gmap string _]; a [set] of strings is a [gset string];
    Python integers are [Z].  Readings of [time.time()] and time-to-live
    values are integers in one fixed unit; rounding of floating point
    clock arithmetic is not modelled. *)

From stdpp Require Import gmap strings list fin_maps sorting.
From Stdlib Require Import ZArith Lia Ascii.
From Stdlib Require OrderedTypeEx.

Set Warnings "-clear-no-such-hyp".

Local Open Scope Z_scope.

(** ** [cache.py]: [APICache] *)

Module APICache.
(** [self._cache : Dict[str, Tuple[Any, float]]]: value and time of
    storage, by key.  No time-to-live is stored.  [V] is the type of
    the JSON documents held by the cache. *)
Abbreviation t V := (gmap string (option V * Z)).

Section Cache.
Context {V : Type}.

(** [APICache.get(key, ttl)] run at clock reading [now].  The result is
    the returned Python value together with the cache after the call: an
    expired entry is deleted by the read that finds it expired. *)
Definition get (cache : t V) (key : string) (ttl now : Z) : option V * t V :=
  match cache !! key with
  | Some (value, timestamp) =>
      if bool_decide (now - timestamp < ttl) then (value, cache)
      else (None, delete key cache)
  | None => (None, cache)
  end.

(** [APICache.set(key, value)] run at clock reading [now]. *)
Definition set (cache : t V) (key : string) (value : option V) (now : Z) : t V :=
  <[key := (value, now)]> cache.

(** [APICache.invalidate(key)]. *)
Definition invalidate (cache : t V) (key : string) : t V := delete key cache.

(** A run of reads of one key, each with its own time-to-live and clock
    reading, threading the cache through. *)
Fixpoint reads (cache : t V) (key : string) (rs : list (Z * Z)) : t V :=
  match rs with
  | [] => cache
  | (ttl, now) :: rs' => reads (get cache key ttl now).2 key rs'
  end.
End Cache.
End APICache.

(** ** [cache.py]: [RequestDeduplicator]

    The event loop is single-threaded and cooperative, so a coroutine runs
    without interruption between two suspension points.  In
    [get_or_create] the only suspension point is [await future]: both
    [async with self._lock] blocks contain no [await], hence the lock is
    free whenever a coroutine reaches one of them and acquiring it does
    not suspend.  A call on a task that still runs therefore consists of
    two atomic steps, the registration up to [await future] and, once the
    awaited task is done, the resumption that runs the [finally] block.
    A call that finds a pending task that is already done does not
    suspend at all and is a single step.  A third kind of step is the
    settlement of a task.  Cancellation of a caller is not modelled. *)

Module RequestDeduplicator.
Section Dedup.
(** [R] is the type of the values a factory returns. *)
Context {R : Type}.

(** How a task ends: [return result] or an exception, which
    [await future] re-raises in every awaiter. *)
Inductive outcome : Type :=
| Returned (result : R)
| Raised (exn : string).

(** Where a caller of [get_or_create] stands: suspended at
    [await future] for the task with that identity, or finished with
    what the [await] produced. *)
Inductive caller : Type :=
| Awaiting (key : string) (future : nat)
| Finished (key : string) (o : outcome).

(** [tasks] lists every task made by [asyncio.create_task(factory())],
    oldest first, with the key it was made for and its outcome once it
    has one; the identity of a task is its position in the list.
    [pending] is [self._pending].  [callers] records the calls made so
    far, by caller identity. *)
Record state : Type := State {
  pending : gmap string nat;
  tasks : list (string * option outcome);
  callers : gmap nat caller
}.

Definition init : state := State ∅ [] ∅.

Inductive event : Type :=
| Call (key : string) (c : nat)        (* c enters get_or_create(key, factory) *)
| Settle (future : nat) (o : outcome)  (* the task ends *)
| Resume (c : nat).                    (* await future returns in c; finally runs *)

(** The [finally] block run by a caller that awaited [future]:
    [if key in self._pending and self._pending[key] == future: del self._pending[key]].
    Futures compare by identity. *)
Definition cleanup (p : gmap string nat) (key : string) (future : nat)
  : gmap string nat :=
  match p !! key with
  | Some f => if bool_decide (f = future) then delete key p else p
  | None => p
  end.

(** The first critical section:
    [if key in self._pending: future = self._pending[key]]
    [else: future = asyncio.create_task(factory()); self._pending[key] = future]
    followed by [await future].  On a task that still runs (a task just
    made always does) the caller suspends.  On a task that is already
    done [await] does not suspend, and neither does the lock, which is
    never held across a suspension: the caller takes the outcome and
    runs its [finally] block within the call. *)
Definition call (s : state) (key : string) (c : nat) : state :=
  match pending s !! key with
  | Some future =>
      match tasks s !! future with
      | Some (_, Some o) =>
          State (cleanup (pending s) key future) (tasks s)
                (<[c := Finished key o]> (callers s))
      | _ =>
          State (pending s) (tasks s) (<[c := Awaiting key future]> (callers s))
      end
  | None =>
      let future := length (tasks s) in
      State (<[key := future]> (pending s))
            (tasks s ++ [(key, None)])
            (<[c := Awaiting key future]> (callers s))
  end.

(** One step of the event loop; [None] when the event cannot happen in
    the state (a caller identity used twice, a task settled twice or not
    made, a caller resumed while its task still runs). *)
Definition step (s : state) (e : event) : option state :=
  match e with
  | Call key c =>
      match callers s !! c with
      | None => Some (call s key c)
      | Some _ => None
      end
  | Settle future o =>
      match tasks s !! future with
      | Some (key, None) =>
          Some (State (pending s) (<[future := (key, Some o)]> (tasks s)) (callers s))
      | _ => None
      end
  | Resume c =>
      match callers s !! c with
      | Some (Awaiting key future) =>
          match tasks s !! future with
          | Some (_, Some o) =>
              Some (State (cleanup (pending s) key future) (tasks s)
                          (<[c := Finished key o]> (callers s)))
          | _ => None
          end
      | _ => None
      end
  end.

Fixpoint run (s : state) (es : list event) : option state :=
  match es with
  | [] => Some s
  | e :: es' =>
      match step s e with
      | Some s' => run s' es'
      | None => None
      end
  end.

(** How many times the factory has been invoked for [key]: one
    invocation per task made for it. *)
Definition invocations (key : string) (s : state) : nat :=
  length (filter (λ kt, kt.1 = key) (tasks s)).
End Dedup.
Arguments outcome : clear implicits.
Arguments caller : clear implicits.
Arguments state : clear implicits.
Arguments event : clear implicits.
End RequestDeduplicator.

(** ** Upstream answers and configuration shared by both gateways *)

Module Upstream.
Section Upstream.
Context {V : Type}.

(** What one HTTP GET produces: a response with its status and parsed
    JSON body ([None] for a JSON [null]), or one of the two exceptions
    the gateways catch. *)
Inductive response : Type :=
| Response (status : Z) (json : option V)
| TimeoutError
| ClientError.

(** Python truthiness of a string. *)
Definition truthy (s : string) : bool := negb (String.eqb s "").

(** [COC_API_KEYS]: a dict from egress address (or ["*"]) to API key, in
    insertion order; the keys of a dict are distinct. *)
Definition api_keys : Type := list (string * string).

Fixpoint dict_get (d : api_keys) (k : string) : option string :=
  match d with
  | [] => None
  | (k', v) :: d' => if String.eqb k' k then Some v else dict_get d' k
  end.

Definition values (d : api_keys) : list string := map snd d.
End Upstream.
Arguments response : clear implicits.
End Upstream.

(** ** [coc_api.py]: [COCAPI._make_request]

    One call run to completion with no other call in flight, so that
    [request_deduplicator.get_or_create] amounts to running the factory.
    Every clock reading of the call is [now]. *)

Module COCAPI.
Section Gateway.
Context {V : Type}.
Import Upstream.

(** The loop of [_fetch] over [list(COC_API_KEYS.values())].  The result
    is the returned value, the cache, and the API keys a request was sent
    with, in order. *)
Fixpoint fetch_loop (upstream : string → response V) (cache_key : string)
    (now : Z) (keys : list string) (cache : APICache.t V)
  : option V * APICache.t V * list string :=
  match keys with
  | [] => (None, cache, [])                         (* all keys failed *)
  | k :: keys' =>
      match upstream k with
      | Response 200 data =>
          (data, APICache.set cache cache_key data now, [k])
      | Response 404 _ =>
          (* Cache 404s briefly to avoid repeated requests *)
          (None, APICache.set cache cache_key None now, [k])
      | _ =>
          let '(r, cache', sent) := fetch_loop upstream cache_key now keys' cache in
          (r, cache', k :: sent)
      end
  end.

(** [_make_request(path, cache_key, ttl)] with [cache_key] given. *)
Definition _make_request (COC_API_KEYS : api_keys) (upstream : string → response V)
    (cache_key : string) (ttl now : Z) (cache : APICache.t V)
  : option V * APICache.t V * list string :=
  match COC_API_KEYS with
  | [] => (None, cache, [])
  | _ =>
      let '(cached, cache1) := APICache.get cache cache_key ttl now in
      match cached with
      | Some v => (Some v, cache1, [])
      | None => fetch_loop upstream cache_key now (values COC_API_KEYS) cache1
      end
  end.
End Gateway.
End COCAPI.

(** ** [discordwelcomebot.py]: credential selection and [coc_get] *)

Module Bot.
Section Gateway.
Context {V : Type}.
Import Upstream.

(** The module globals [_selected_coc_key], [_selected_coc_key_ts],
    [_cached_ip], [_cached_ip_ts]. *)
Record cred : Type := Cred {
  _selected_coc_key : option string;
  _selected_coc_key_ts : Z;
  _cached_ip : option string;
  _cached_ip_ts : Z
}.

Definition cred_init : cred := Cred None 0 None 0.

(** [x and (now - ts) < ttl] for an optional string [x]. *)
Definition fresh (x : option string) (ts ttl now : Z) : bool :=
  match x with
  | Some s => truthy s && bool_decide (now - ts < ttl)
  | None => false
  end.

(** [get_egress_ip()] with an open HTTP session.  [probe] is the
    stripped body of the address service when it answers 200, [None]
    when it answers otherwise or the request raises. *)
Definition get_egress_ip (COC_IP_CACHE_TTL now : Z) (probe : option string)
    (c : cred) : option string * cred :=
  if fresh (_cached_ip c) (_cached_ip_ts c) COC_IP_CACHE_TTL now
  then (_cached_ip c, c)
  else match probe with
       | Some ip =>
           (Some ip, Cred (_selected_coc_key c) (_selected_coc_key_ts c) (Some ip) now)
       | None => (None, c)
       end.

Definition select_key (c : cred) (k : string) (now : Z) : cred :=
  Cred (Some k) now (_cached_ip c) (_cached_ip_ts c).

(** [select_coc_key()]. *)
Definition select_coc_key (COC_API_KEYS : api_keys) (COC_IP_CACHE_TTL now : Z)
    (probe : option string) (c : cred) : option string * cred :=
  if fresh (_selected_coc_key c) (_selected_coc_key_ts c) COC_IP_CACHE_TTL now
  then (_selected_coc_key c, c)
  else
    let '(ip, c1) := get_egress_ip COC_IP_CACHE_TTL now probe c in
    let by_ip :=
      match ip with
      | Some a => if truthy a then dict_get COC_API_KEYS a else None
      | None => None
      end in
    match by_ip with
    | Some k => (Some k, select_key c1 k now)
    | None =>
        match dict_get COC_API_KEYS "*" with
        | Some k => (Some k, select_key c1 k now)
        | None =>
            match values COC_API_KEYS with
            | k :: _ => (Some k, select_key c1 k now)
            | [] => (None, c1)
            end
        end
    end.

(** [_try_key_and_fetch]: the pair [(status, data)]. *)
Definition _try_key_and_fetch (r : response V) : option Z * option V :=
  match r with
  | Response status json =>
      if bool_decide (status = 200) then (Some status, json) else (Some status, None)
  | TimeoutError | ClientError => (None, None)
  end.

(** [status == 200 and data is not None]: the document on success. *)
Definition success (r : response V) : option V :=
  match _try_key_and_fetch r with
  | (Some 200, Some data) => Some data
  | _ => None
  end.

(** The failover loop of [_fetch]:
    [for k in set(COC_API_KEYS.values()): if k == key: continue ...].
    [others] is the sequence in which the set is iterated. *)
Fixpoint failover (upstream : string → response V) (cache_key key : string)
    (now : Z) (others : list string) (c : cred) (cache : APICache.t V)
  : option V * cred * APICache.t V * list string :=
  match others with
  | [] => (None, c, cache, [])
  | k :: others' =>
      if String.eqb k key
      then failover upstream cache_key key now others' c cache
      else match success (upstream k) with
           | Some data =>
               (Some data, select_key c k now,
                APICache.set cache cache_key (Some data) now, [k])
           | None =>
               let '(r, c', cache', sent) :=
                 failover upstream cache_key key now others' c cache in
               (r, c', cache', k :: sent)
           end
  end.

(** The factory [_fetch] of [coc_get]. *)
Definition _fetch (COC_API_KEYS : api_keys) (COC_IP_CACHE_TTL : Z)
    (others : list string) (upstream : string → response V)
    (probe : option string) (cache_key : string) (now : Z)
    (c : cred) (cache : APICache.t V)
  : option V * cred * APICache.t V * list string :=
  let '(sel, c1) := select_coc_key COC_API_KEYS COC_IP_CACHE_TTL now probe c in
  match sel with
  | None => (None, c1, cache, [])
  | Some key =>
      if negb (truthy key) then (None, c1, cache, [])
      else match success (upstream key) with
           | Some data =>
               (Some data, c1, APICache.set cache cache_key (Some data) now, [key])
           | None =>
               let '(r, c', cache', sent) :=
                 failover upstream cache_key key now others c1 cache in
               (r, c', cache', key :: sent)
           end
  end.

(** [coc_get(path)] with an open HTTP session, run to completion with no
    other call in flight; [cache_key] and [ttl] are those computed from
    the path. *)
Definition coc_get (COC_API_KEYS : api_keys) (COC_IP_CACHE_TTL : Z)
    (others : list string) (upstream : string → response V)
    (probe : option string) (cache_key : string) (ttl now : Z)
    (c : cred) (cache : APICache.t V)
  : option V * cred * APICache.t V * list string :=
  let '(cached, cache1) := APICache.get cache cache_key ttl now in
  match cached with
  | Some v => (Some v, c, cache1, [])
  | None =>
      _fetch COC_API_KEYS COC_IP_CACHE_TTL others upstream probe cache_key now c cache1
  end.
End Gateway.
End Bot.

(** ** [discordwelcomebot.py]: the join/leave tracker [track_clan]

    One iteration of the [while] loop of [track_clan], from the result of
    [get_clan_member_list] to the end of the loop body, as a function of
    the module globals and the member files.  What the iteration sends or
    writes is returned as a list of effects in program order.  A Join or
    Leave effect stands for the [channel.send] of the corresponding embed;
    how the embed is rendered, and the player lookup done for it, are left
    out.  A file write is taken to succeed ([save_json] swallows a failed
    write and leaves the file as it was). *)

Module Tracker.

(** An element of [memberList]; a field that is missing, [null] or of no
    use is [None]. *)
Record member : Type := Member {
  tag : option string;
  name : option string
}.

Inductive effect : Type :=
| LogEmpty (clan_tag : string)          (* "[TRACK] empty member list ... skipping this poll" *)
| LogBaseline (clan_tag : string)       (* "[TRACK] Baseline initialized ..." *)
| Join (clan_tag player : string)
| Leave (clan_tag player : string)
| Save (path : string) (tags : list string).

(** The globals [strict_join_cache], [initialized_baseline] and
    [missing_counts], and the JSON files written by [save_strict_cache]
    (by path; a member file holds a list of tags). *)
Record state : Type := State {
  strict_join_cache : gmap string (gset string);
  initialized_baseline : gset string;
  missing_counts : gmap string (gmap string Z);
  files : gmap string (list string)
}.

(** [tag.replace('#','')] *)
Fixpoint remove_hash (s : string) : string :=
  match s with
  | EmptyString => EmptyString
  | String a s' =>
      if Ascii.eqb a "#"%char then remove_hash s' else String a (remove_hash s')
  end.

Definition members_filename (clan_tag : string) : string :=
  ("members_" ++ remove_hash clan_tag ++ ".json")%string.

(** [load_strict_cache]: [set(data)] when the file holds a list, the
    empty set otherwise. *)
Definition load_strict_cache (fs : gmap string (list string)) (clan_tag : string)
  : gset string :=
  match fs !! members_filename clan_tag with
  | Some data => list_to_set data
  | None => ∅
  end.

(** [strict_join_cache.get(clan_tag, set())] *)
Definition known (s : state) (clan_tag : string) : gset string :=
  default ∅ (strict_join_cache s !! clan_tag).

(** [save_strict_cache(clan_tag, strict_join_cache[clan_tag])].  The
    order in which Python lists a set is unspecified; the model writes
    the tags in the order of [elements]. *)
Definition save_strict_cache (s : state) (clan_tag : string) : list effect * state :=
  let content := elements (known s clan_tag) in
  ([Save (members_filename clan_tag) content],
   State (strict_join_cache s) (initialized_baseline s) (missing_counts s)
         (<[members_filename clan_tag := content]> (files s))).

Definition set_known (s : state) (clan_tag : string) (tags : gset string) : state :=
  State (<[clan_tag := tags]> (strict_join_cache s)) (initialized_baseline s)
        (missing_counts s) (files s).

(** [missing_counts.setdefault(clan_tag, {})] followed by an update [f]
    of the dict it returns. *)
Definition missing (s : state) (clan_tag : string) : gmap string Z :=
  default ∅ (missing_counts s !! clan_tag).

Definition update_missing (s : state) (clan_tag : string)
    (f : gmap string Z → gmap string Z) : state :=
  State (strict_join_cache s) (initialized_baseline s)
        (<[clan_tag := f (missing s clan_tag)]> (missing_counts s)) (files s).

(** The keys of [current_tags = {m["tag"]: m.get("name") for m in
    member_list if m.get("tag")}], in dict order: the tags that are
    present and non-empty, each at its first occurrence. *)
Fixpoint first_occurrences (l : list string) : list string :=
  match l with
  | [] => []
  | x :: l' => x :: filter (λ y, y ≠ x) (first_occurrences l')
  end.

Definition tagged (m : member) : option string :=
  match tag m with
  | Some t => if Upstream.truthy t then Some t else None
  | None => None
  end.

Definition current_tags (member_list : list member) : list string :=
  first_occurrences (omap tagged member_list).

(** The body of [for tag in joins]: the announcement, then
    [strict_join_cache[clan_tag].add(tag)] (the entry exists on this
    path) and [missing_counts.setdefault(clan_tag, {}).pop(tag, None)]. *)
Definition join_one (clan_tag player : string) (s : state) : state :=
  update_missing (set_known s clan_tag (known s clan_tag ∪ {[player]}))
                 clan_tag (delete player).

Fixpoint join_loop (clan_tag : string) (joins : list string) (s : state)
  : list effect * state :=
  match joins with
  | [] => ([], s)
  | player :: joins' =>
      let '(out, s') := join_loop clan_tag joins' (join_one clan_tag player s) in
      (Join clan_tag player :: out, s')
  end.

(** The body of [for tag in candidate_leaves]. *)
Definition leave_one (LEAVE_DEBOUNCE_COUNT : Z) (clan_tag player : string)
    (s : state) : list effect * state :=
  let cnt := default 0 (missing s clan_tag !! player) + 1 in
  let s1 := update_missing s clan_tag (<[player := cnt]>) in
  if bool_decide (cnt < LEAVE_DEBOUNCE_COUNT) then ([], s1)
  else
    let '(saved, s2) :=
      if bool_decide (player ∈ known s1 clan_tag)
      then save_strict_cache
             (set_known s1 clan_tag (known s1 clan_tag ∖ {[player]})) clan_tag
      else ([], s1) in
    (Leave clan_tag player :: saved, update_missing s2 clan_tag (delete player)).

Fixpoint leave_loop (LEAVE_DEBOUNCE_COUNT : Z) (clan_tag : string)
    (candidate_leaves : list string) (s : state) : list effect * state :=
  match candidate_leaves with
  | [] => ([], s)
  | player :: rest =>
      let '(out1, s1) := leave_one LEAVE_DEBOUNCE_COUNT clan_tag player s in
      let '(out2, s2) := leave_loop LEAVE_DEBOUNCE_COUNT clan_tag rest s1 in
      (out1 ++ out2, s2)
  end.

(** The branch [if not prev_tags]: adopt the current tags as baseline,
    save, and log once per run of the process. *)
Definition baseline (clan_tag : string) (current : list string) (s : state)
  : list effect * state :=
  let s1 :=
    match current with
    | [] => set_known s clan_tag ∅
    | _ => set_known s clan_tag (list_to_set current)
    end in
  let '(saved, s2) := save_strict_cache s1 clan_tag in
  if bool_decide (clan_tag ∈ initialized_baseline s2) then (saved, s2)
  else (saved ++ [LogBaseline clan_tag],
        State (strict_join_cache s2) (initialized_baseline s2 ∪ {[clan_tag]})
              (missing_counts s2) (files s2)).

(** The rest of the body: joins, then the debounced leaves.
    [prev_tags] is the very set object stored in [strict_join_cache], so
    after the join loop it contains the tags just added. *)
Definition diff (LEAVE_DEBOUNCE_COUNT : Z) (clan_tag : string)
    (current : list string) (s : state) : list effect * state :=
  let joins := filter (λ t, t ∉ known s clan_tag) current in
  let '(out1, s1) := join_loop clan_tag joins s in
  let '(out2, s2) :=
    match joins with
    | [] => ([], s1)
    | _ => save_strict_cache s1 clan_tag
    end in
  let current_tag_set : gset string := list_to_set current in
  let s3 := update_missing s2 clan_tag (λ m, foldr delete m current) in
  let prev_tags := known s3 clan_tag in
  let candidate_leaves := filter (λ t, t ∉ current_tag_set) (elements prev_tags) in
  let '(out3, s4) := leave_loop LEAVE_DEBOUNCE_COUNT clan_tag candidate_leaves s3 in
  (out1 ++ out2 ++ out3, s4).

(** One iteration of the loop, given what [get_clan_member_list]
    returned. *)
Definition tick (LEAVE_DEBOUNCE_COUNT : Z) (SKIP_EMPTY_MEMBER_LIST : bool)
    (clan_tag : string) (member_list : option (list member)) (s : state)
  : list effect * state :=
  match member_list with
  | None => ([], s)
  | Some ml =>
      if match ml with [] => SKIP_EMPTY_MEMBER_LIST | _ => false end
      then ([LogEmpty clan_tag], s)
      else
        let current := current_tags ml in
        if bool_decide (known s clan_tag = ∅)
        then baseline clan_tag current s
        else diff LEAVE_DEBOUNCE_COUNT clan_tag current s
  end.

(** A run of iterations, one per poll result. *)
Fixpoint ticks (LEAVE_DEBOUNCE_COUNT : Z) (SKIP_EMPTY_MEMBER_LIST : bool)
    (clan_tag : string) (polls : list (option (list member))) (s : state)
  : list effect * state :=
  match polls with
  | [] => ([], s)
  | p :: polls' =>
      let '(out1, s1) := tick LEAVE_DEBOUNCE_COUNT SKIP_EMPTY_MEMBER_LIST clan_tag p s in
      let '(out2, s2) := ticks LEAVE_DEBOUNCE_COUNT SKIP_EMPTY_MEMBER_LIST clan_tag polls' s1 in
      (out1 ++ out2, s2)
  end.

(** The state in which [track_clan] enters its loop:
    [strict_join_cache[clan_tag] = load_strict_cache(clan_tag)]. *)
Definition start (clan_tag : string) (s : state) : state :=
  set_known s clan_tag (load_strict_cache (files s) clan_tag).

Definition is_join (e : effect) : bool :=
  match e with Join _ _ => true | _ => false end.
Definition is_leave (e : effect) : bool :=
  match e with Leave _ _ => true | _ => false end.
Definition is_baseline_log (e : effect) : bool :=
  match e with LogBaseline _ => true | _ => false end.

(** Notions used to state what an iteration does. *)

(** The value the miss counter of [t] takes when [t] is missing once
    more: [missing.get(tag, 0) + 1]. *)
Definition next_count (m : gmap string Z) (t : string) : Z :=
  default 0 (m !! t) + 1.

(** Of the candidates, those whose leave this poll confirms. *)
Definition confirmed (LEAVE_DEBOUNCE_COUNT : Z) (m : gmap string Z)
    (cands : list string) : list string :=
  filter (λ t, ¬ (next_count m t < LEAVE_DEBOUNCE_COUNT)) cands.

(** [candidate_leaves] in terms of the known set [K] at the start of the
    iteration: [prev_tags] is read after the join loop has added the new
    tags to it. *)
Definition candidates (K : gset string) (current : list string) : list string :=
  filter (λ t, t ∉ (list_to_set current : gset string))
         (elements (K ∪ list_to_set (filter (λ t, t ∉ K) current))).

(** The miss counters only concern known tags.  This holds when the
    tracker starts with no counters and is kept by every iteration. *)
Definition counters_known (clan_tag : string) (s : state) : Prop :=
  ∀ t, is_Some (missing s clan_tag !! t) → t ∈ known s clan_tag.
End Tracker.

(** ** [donations.py]: [calculate_monthly_donations] *)

Module Donations.

(** The dict built by [extract_lifetime_donations]. *)
Record lifetime_donations : Type := Lifetime {
  troops_donated : Z;
  spells_donated : Z;
  siege_donated : Z;
  total_donated : Z
}.

(** One member of a snapshot, as written by [create_donation_snapshot]:
    the keys ["name"], ["seasonal"] and ["lifetime"].  Such a dict is
    never empty, so [if prev_data] tests whether the tag is present. *)
Record member : Type := Member {
  name : string;
  seasonal : Z;
  lifetime : lifetime_donations
}.

(** A snapshot: the month ["YYYY-MM"], the time it was taken and the
    members by tag. *)
Record snapshot : Type := Snapshot {
  date : string;
  timestamp : string;
  members : gmap string member
}.

(** One entry of the ["members"] dict of the result. *)
Record entry : Type := Entry {
  entry_name : string;
  monthly : Z;
  entry_seasonal : Z;
  entry_lifetime : lifetime_donations
}.

Record report : Type := Report {
  month : string;
  report_members : gmap string entry;
  total_monthly : Z;
  note : option string
}.

(** [sorted(l, key=lambda x: x.get("date", ""))]: Python's sort is
    stable and compares strings by code point.  Insertion from the
    right, each element going in front of the first one whose date is
    not smaller, is a stable sort. *)
Fixpoint insert_by_date (x : snapshot) (l : list snapshot) : list snapshot :=
  match l with
  | [] => [x]
  | y :: l' =>
      if String.leb (date x) (date y) then x :: y :: l'
      else y :: insert_by_date x l'
  end.

Definition sorted (l : list snapshot) : list snapshot :=
  foldr insert_by_date [] l.

(** The figure of one member:
    [max(0, target_seasonal - prev_seasonal)] when the previous snapshot
    has the tag, [target_seasonal] otherwise. *)
Definition monthly_figure (prev_members : gmap string member)
    (tag : string) (data : member) : Z :=
  let target_seasonal := seasonal data in
  match prev_members !! tag with
  | Some prev_data =>
      let prev_seasonal := seasonal prev_data in
      Z.max 0 (target_seasonal - prev_seasonal)
  | None => target_seasonal
  end.

(** The body of [for tag, data in target_members.items()], on the pair
    of [monthly_donations] and [total_monthly]. *)
Definition add_member (prev_members : gmap string member)
    (tag : string) (data : member) (acc : gmap string entry * Z)
  : gmap string entry * Z :=
  let m := monthly_figure prev_members tag data in
  (<[tag := Entry (name data) m (seasonal data) (lifetime data)]> acc.1,
   acc.2 + m).

Definition monthly_loop (target_members prev_members : gmap string member)
  : gmap string entry * Z :=
  map_fold (add_member prev_members) (∅, 0) target_members.

Definition first_snapshot_note : string :=
  "First snapshot - no previous data to compare".

(** [calculate_monthly_donations(clan_tag, month_key)] on the loaded
    snapshots. *)
Definition calculate_monthly_donations
    (snapshots : gmap string (list snapshot)) (clan_tag month_key : string)
  : option report :=
  let clan_snapshots := default [] (snapshots !! clan_tag) in
  match clan_snapshots with
  | [] => None
  | _ =>
      match list_find (λ s, date s = month_key) clan_snapshots with
      | None => None
      | Some (_, target_snapshot) =>
          let sorted_snapshots := sorted clan_snapshots in
          match list_find (λ s, date s = month_key) sorted_snapshots with
          | None | Some (O, _) =>
              Some (Report month_key ∅ 0 (Some first_snapshot_note))
          | Some (S i, _) =>
              match sorted_snapshots !! i with
              | Some prev_snapshot =>
                  let '(monthly_donations, total) :=
                    monthly_loop (members target_snapshot) (members prev_snapshot) in
                  Some (Report month_key monthly_donations total None)
              | None => None
              end
          end
      end
  end.

(** The sum of the per-member monthly figures of a report. *)
Definition sum_monthly (m : gmap string entry) : Z :=
  map_fold (λ _ e acc, acc + monthly e) 0 m.

(** Order of snapshots by month string; Python compares strings by code
    point. *)
Definition date_le (a b : snapshot) : Prop := String.leb (date a) (date b) = true.

(** The entry the loop writes for a member of the target snapshot. *)
Definition entry_of (prev_members : gmap string member) (tag : string)
    (data : member) : entry :=
  Entry (name data) (monthly_figure prev_members tag data) (seasonal data)
        (lifetime data).
End Donations.

(** ** [cache.py]: [RequestDeduplicator.clear]

    [clear] holds the lock and contains no [await]: it is one more atomic
    step of the event loop. *)

Module DeduplicatorOps.
Section Ops.
Context {R : Type}.
Import RequestDeduplicator.

(** [fut.done()] for the task with that identity. *)
Definition done (ts : list (string * option (outcome R))) (future : nat) : bool :=
  match ts !! future with
  | Some (_, Some _) => true
  | _ => false
  end.

(** The body of [for k in list(self._pending.keys())], on the pair of
    [self._pending] and [removed].  ([self._pending.get(k)] is [None]
    only for a key that is gone, which the loop never meets.) *)
Definition clear_step (ts : list (string * option (outcome R)))
    (acc : gmap string nat * nat) (k : string) : gmap string nat * nat :=
  match acc.1 !! k with
  | None => (delete k acc.1, S acc.2)
  | Some fut => if done ts fut then (delete k acc.1, S acc.2) else acc
  end.

(** [clear()]: the state afterwards and the pair
    [(total, removed_done)] it reports. *)
Definition clear (s : state R) : state R * (nat * nat) :=
  let total := size (pending s) in
  let '(p, removed) :=
    foldl (clear_step (tasks s)) (pending s, 0%nat) ((map_to_list (pending s)).*1) in
  (State p (tasks s) (callers s), (total, removed)).

(** The steps of the event loop that concern the de-duplicator. *)
Inductive op : Type :=
| Ev (e : event R)
| Clear.

Definition step_op (s : state R) (o : op) : option (state R) :=
  match o with
  | Ev e => step s e
  | Clear => Some (clear s).1
  end.

Fixpoint run_ops (s : state R) (os : list op) : option (state R) :=
  match os with
  | [] => Some s
  | o :: os' =>
      match step_op s o with
      | Some s' => run_ops s' os'
      | None => None
      end
  end.
(** Every task that has not settled is the pending entry of its key. *)
Definition running_registered (s : state R) : Prop :=
  ∀ f key, tasks s !! f = Some (key, None) → pending s !! key = Some f.
End Ops.
Arguments op : clear implicits.
End DeduplicatorOps.

(** ** Notions used to state what the gateways do *)

Module GatewayNotions.
Section Notions.
Context {V : Type}.
Import Upstream.

(** The answers that end the key loop of [COCAPI._make_request]: status
    200 and status 404. *)
Definition final (r : response V) : bool :=
  match r with
  | Response status _ => bool_decide (status = 200) || bool_decide (status = 404)
  | TimeoutError | ClientError => false
  end.

(** What [_make_request] returns and stores for a final answer: the
    parsed body for a 200, [None] for a 404. *)
Definition answer (r : response V) : option V :=
  match r with
  | Response status json => if bool_decide (status = 200) then json else None
  | TimeoutError | ClientError => None
  end.
End Notions.
End GatewayNotions.

(** ** Notions used to state further properties of the tracker *)

Module TrackerNotions.
Import Tracker.

(** Everything that belongs to other clans, and every file other than
    the member file of the clan, is the same in both states. *)
Definition same_elsewhere (clan_tag : string) (s s' : state) : Prop :=
  (∀ c, c ≠ clan_tag → strict_join_cache s' !! c = strict_join_cache s !! c) ∧
  (∀ c, c ≠ clan_tag → missing_counts s' !! c = missing_counts s !! c) ∧
  (∀ c, c ≠ clan_tag → c ∈ initialized_baseline s' ↔ c ∈ initialized_baseline s) ∧
  (∀ path, path ≠ members_filename clan_tag → files s' !! path = files s !! path).

(** Every stored miss counter is at least 1 and below the threshold. *)
Definition counters_bounded (LEAVE_DEBOUNCE_COUNT : Z) (clan_tag : string)
    (s : state) : Prop :=
  ∀ t n, missing s clan_tag !! t = Some n → 1 ≤ n < LEAVE_DEBOUNCE_COUNT.

(** The announcements of a leave of one player. *)
Definition is_leave_of (player : string) (e : effect) : bool :=
  match e with
  | Leave _ p => bool_decide (p = player)
  | _ => false
  end.

Definition is_join_of (player : string) (e : effect) : bool :=
  match e with
  | Join _ p => bool_decide (p = player)
  | _ => false
  end.
End TrackerNotions.

(** ** The simple tracker, trackers.py

    [ClanTracker.track_joins_leaves]: the tracker of the modular bot.
    It has neither a baseline nor a debounce: an iteration compares the
    roster with [self.member_cache] and announces every difference.  It
    shares the roster type, the announcements and the member file with
    the tracker above. *)

Module ClanTracker.
Import Tracker.

(** [self.member_cache] and the JSON files. *)
Record state : Type := State {
  member_cache : gset string;
  files : gmap string (list string)
}.

(** [__init__]: [self.member_cache = load_strict_cache(self.clan_tag)]. *)
Definition init (clan_tag : string) (fs : gmap string (list string)) : state :=
  State (load_strict_cache fs clan_tag) fs.

(** [save_strict_cache(self.clan_tag, self.member_cache)] *)
Definition save_strict_cache (clan_tag : string) (s : state) : list effect * state :=
  let content := elements (member_cache s) in
  ([Save (members_filename clan_tag) content],
   State (member_cache s) (<[members_filename clan_tag := content]> (files s))).

(** [for tag in joins]: the announcement (an exception of the send is
    caught and logged), then [self.member_cache.add(tag)]. *)
Fixpoint join_loop (clan_tag : string) (joins : list string) (s : state)
  : list effect * state :=
  match joins with
  | [] => ([], s)
  | player :: joins' =>
      let '(out, s') :=
        join_loop clan_tag joins' (State (member_cache s ∪ {[player]}) (files s)) in
      (Join clan_tag player :: out, s')
  end.

(** The body of [for tag in leaves]. *)
Definition leave_one (clan_tag player : string) (s : state) : list effect * state :=
  if bool_decide (player ∈ member_cache s)
  then
    let '(saved, s') :=
      save_strict_cache clan_tag (State (member_cache s ∖ {[player]}) (files s)) in
    (Leave clan_tag player :: saved, s')
  else ([Leave clan_tag player], s).

Fixpoint leave_loop (clan_tag : string) (leaves : list string) (s : state)
  : list effect * state :=
  match leaves with
  | [] => ([], s)
  | player :: rest =>
      let '(out1, s1) := leave_one clan_tag player s in
      let '(out2, s2) := leave_loop clan_tag rest s1 in
      (out1 ++ out2, s2)
  end.

(** One iteration of the loop, given what [get_clan_members] returned
    (the empty list when the clan could not be fetched).  [prev_tags] is
    the set object [self.member_cache] itself, so [leaves] is computed
    from the set after the joins have been added. *)
Definition tick (clan_tag : string) (member_list : list member) (s : state)
  : list effect * state :=
  match member_list with
  | [] => ([], s)
  | _ =>
      let current := current_tags member_list in
      let joins := filter (λ t, t ∉ member_cache s) current in
      let '(out1, s1) := join_loop clan_tag joins s in
      let '(out2, s2) :=
        match joins with
        | [] => ([], s1)
        | _ => save_strict_cache clan_tag s1
        end in
      let leaves := filter (λ t, t ∉ current) (elements (member_cache s2)) in
      let '(out3, s3) := leave_loop clan_tag leaves s2 in
      (out1 ++ out2 ++ out3, s3)
  end.

Fixpoint ticks (clan_tag : string) (polls : list (list member)) (s : state)
  : list effect * state :=
  match polls with
  | [] => ([], s)
  | p :: polls' =>
      let '(out1, s1) := tick clan_tag p s in
      let '(out2, s2) := ticks clan_tag polls' s1 in
      (out1 ++ out2, s2)
  end.
End ClanTracker.

(** ** The war tracker, discordwelcomebot.py and trackers.py

    [war_tracker] (and [ClanTracker.track_war], which keeps the baseline
    in a local variable and writes no file): each poll of the current
    war announces the attacks a member has beyond the number recorded
    for that member by the previous processed poll. *)

Module WarTracker.
Section War.
(** An element of a member's ["attacks"] list. *)
Context {A : Type}.

(** An element of [war["clan"]["members"]]; [attacks] is
    [member.get("attacks", []) or []]. *)
Record member : Type := Member {
  tag : option string;
  name : option string;
  attacks : list A
}.

(** The document of the current war: its ["state"] and
    [(war.get("clan") or {}).get("members") or []]. *)
Record war : Type := War {
  war_state : option string;
  members : list member
}.

(** A Python dict from tag to attacks, in insertion order. *)
Definition dict : Type := list (string * list A).

Inductive effect : Type :=
| Hit (player : string) (name : option string) (atk : A)   (* "WAR HIT: ..." *)
| Save (path : string) (content : dict).

(** [war_baselines[clan_tag]] and the JSON files. *)
Record state : Type := State {
  war_baseline : dict;
  files : gmap string dict
}.

(** [d.get(k)] *)
Fixpoint get (k : string) (d : dict) : option (list A) :=
  match d with
  | [] => None
  | (k', v) :: d' => if decide (k' = k) then Some v else get k d'
  end.

(** [d[k] = v]: an existing key keeps its place. *)
Fixpoint assign (k : string) (v : list A) (d : dict) : dict :=
  match d with
  | [] => [(k, v)]
  | (k', v') :: d' =>
      if decide (k' = k) then (k, v) :: d' else (k', v') :: assign k v d'
  end.

Definition tagged (m : member) : option string :=
  match tag m with
  | Some t => if Upstream.truthy t then Some t else None
  | None => None
  end.

(** The loop that fills [current_map]. *)
Definition current_map (ms : list member) : dict :=
  foldl (λ d m, match tagged m with
                | Some t => assign t (attacks m) d
                | None => d
                end) [] ms.

(** [next((m.get("name") for m in members if m.get("tag") == tag), tag)] *)
Definition name_of (ms : list member) (t : string) : option string :=
  match List.find (λ m, bool_decide (tag m = Some t)) ms with
  | Some m => name m
  | None => Some t
  end.

(** The body of [for tag, attacks in current_map.items()]. *)
Definition announce (ms : list member) (prev_map : dict) (t : string)
    (atks : list A) : list effect :=
  let prev_attacks := default [] (get t prev_map) in
  if bool_decide (length prev_attacks < length atks)%nat
  then Hit t (name_of ms t) <$> drop (length prev_attacks) atks
  else [].

Definition war_filename (clan_tag : string) : string :=
  ("war_" ++ Tracker.remove_hash clan_tag ++ ".json")%string.

(** [war_baselines[clan_tag] = load_json(war_filename(clan_tag)) or {}] *)
Definition start (clan_tag : string) (fs : gmap string dict) : state :=
  State (default [] (fs !! war_filename clan_tag)) fs.

(** One iteration, given what [get_current_war] returned. *)
Definition tick (clan_tag : string) (w : option war) (s : state)
  : list effect * state :=
  match w with
  | None => ([], s)
  | Some w =>
      if bool_decide (war_state w = Some "inWar"%string)
      then
        let cm := current_map (members w) in
        (flat_map (λ '(t, atks), announce (members w) (war_baseline s) t atks) cm
           ++ [Save (war_filename clan_tag) cm],
         State cm (<[war_filename clan_tag := cm]> (files s)))
      else ([], s)
  end.

(** A run of iterations, one per answer of [get_current_war]. *)
Fixpoint ticks (clan_tag : string) (polls : list (option war)) (s : state)
  : list effect * state :=
  match polls with
  | [] => ([], s)
  | p :: polls' =>
      let '(out1, s1) := tick clan_tag p s in
      let '(out2, s2) := ticks clan_tag polls' s1 in
      (out1 ++ out2, s2)
  end.

(** The answers on which an iteration only sleeps:
    [not war or war.get("state") != "inWar"]. *)
Definition idle (w : option war) : Prop :=
  match w with
  | None => True
  | Some w => war_state w ≠ Some "inWar"%string
  end.

(** The attacks announced for one player. *)
Definition hits_of (t : string) (out : list effect) : list A :=
  omap (λ e, match e with
             | Hit p _ a => if decide (p = t) then Some a else None
             | Save _ _ => None
             end) out.

(** The attacks of the last member of the roster that carries tag [t]. *)
Fixpoint latest (t : string) (ms : list member) : option (list A) :=
  match ms with
  | [] => None
  | m :: ms' =>
      match latest t ms' with
      | Some a => Some a
      | None => if decide (tagged m = Some t) then Some (attacks m) else None
      end
  end.
End War.
Arguments member : clear implicits.
Arguments war : clear implicits.
Arguments dict : clear implicits.
Arguments effect : clear implicits.
Arguments state : clear implicits.
End WarTracker.

(** ** The snapshot store, donations.py and storage.py

    The functions that write and read the list of monthly snapshots of a
    clan.  [snapshots] is what [load_donation_snapshots] returns; saving
    the file is taken to succeed. *)

Module DonationStore.
Import Donations.

(** [sorted(l, key=lambda x: x.get("date", ""), reverse=True)]: with
    [reverse=True] Python's sort is still stable.  Insertion from the
    right, each element going in front of the first one whose date is
    not greater. *)
Fixpoint insert_by_date_reverse (x : snapshot) (l : list snapshot) : list snapshot :=
  match l with
  | [] => [x]
  | y :: l' =>
      if String.leb (date y) (date x) then x :: y :: l'
      else y :: insert_by_date_reverse x l'
  end.

Definition sorted_reverse (l : list snapshot) : list snapshot :=
  foldr insert_by_date_reverse [] l.

(** [save_monthly_snapshot(clan_tag, snapshot)], as a function of the
    loaded store; the result is the store that is written. *)
Definition save_monthly_snapshot (snapshots : gmap string (list snapshot))
    (clan_tag : string) (snap : snapshot) : gmap string (list snapshot) :=
  let clan_snapshots := default [] (snapshots !! clan_tag) in
  let month_key := date snap in
  let kept := filter (λ s, date s ≠ month_key) clan_snapshots in
  let sorted_snapshots := sorted_reverse (kept ++ [snap]) in
  <[clan_tag := take 24 sorted_snapshots]> snapshots.

(** [get_latest_snapshot(clan_tag)] *)
Definition get_latest_snapshot (snapshots : gmap string (list snapshot))
    (clan_tag : string) : option snapshot :=
  let clan_snapshots := default [] (snapshots !! clan_tag) in
  match clan_snapshots with
  | [] => None
  | _ => head (sorted_reverse clan_snapshots)
  end.


(** The slice [l[:limit]]: a negative [limit] counts from the end. *)
Definition slice_to {X} (limit : Z) (l : list X) : list X :=
  if bool_decide (0 ≤ limit) then take (Z.to_nat limit) l
  else take (length l - Z.to_nat (- limit)) l.

(** [get_donation_history(clan_tag, limit)]; a report is a dict that is
    not empty, so [if monthly_data] tests for [None]. *)
Definition get_donation_history (snapshots : gmap string (list snapshot))
    (clan_tag : string) (limit : Z) : list report :=
  let clan_snapshots := default [] (snapshots !! clan_tag) in
  match clan_snapshots with
  | [] => []
  | _ =>
      omap (λ s, calculate_monthly_donations snapshots clan_tag (date s))
           (slice_to limit (sorted_reverse clan_snapshots))
  end.



(** Descending order of snapshots by month string. *)
Definition date_ge (a b : snapshot) : Prop := date_le b a.
End DonationStore.

(** ** The upgrade alerts, discordwelcomebot.py and trackers.py

    [upgrade_alert_loop] (and [ClanTracker.track_upgrades]): for each
    member of the roster the lines describing the upgrades in progress
    are compared with the lines recorded for that player by the last
    poll that fetched the player. *)

Module UpgradeAlerts.
Section Alerts.
(** A line of the alert, such as ["Hero: Archer Queen → L81"]; the code
    compares lines with [==]. *)
Context {L : Type} `{EqDecision L}.

(** What [get_player] returned, reduced to what the loop reads: the name
    and the list [upgrading] that the three loops over heroes, pets and
    troops with spells build. *)
Record player : Type := Player {
  player_name : option string;
  upgrading : list L
}.

(** A roster entry together with the answer of [get_player] for its
    tag ([None] when the player could not be fetched). *)
Record member : Type := Member {
  tag : option string;
  fetched : option player
}.

Inductive effect : Type :=
| Alert (player_tag : string) (name : option string) (new_upgrades : list L).

Definition tagged (m : member) : option string :=
  match tag m with
  | Some t => if Upstream.truthy t then Some t else None
  | None => None
  end.

(** The body of [for m in members], on [last_upgrade_cache]. *)
Definition member_step (m : member) (cache : gmap string (list L))
  : list effect * gmap string (list L) :=
  match tagged m with
  | None => ([], cache)
  | Some t =>
      match fetched m with
      | None => ([], cache)
      | Some p =>
          let old := default [] (cache !! t) in
          let new_upgrades := filter (λ x, x ∉ old) (upgrading p) in
          (match new_upgrades with
           | [] => []
           | _ => [Alert t (player_name p) new_upgrades]
           end,
           <[t := upgrading p]> cache)
      end
  end.

(** One iteration on a roster; an empty roster only sleeps. *)
Fixpoint tick (members : list member) (cache : gmap string (list L))
  : list effect * gmap string (list L) :=
  match members with
  | [] => ([], cache)
  | m :: members' =>
      let '(out1, cache1) := member_step m cache in
      let '(out2, cache2) := tick members' cache1 in
      (out1 ++ out2, cache2)
  end.

Fixpoint ticks (polls : list (list member)) (cache : gmap string (list L))
  : list effect * gmap string (list L) :=
  match polls with
  | [] => ([], cache)
  | p :: polls' =>
      let '(out1, cache1) := tick p cache in
      let '(out2, cache2) := ticks polls' cache1 in
      (out1 ++ out2, cache2)
  end.

(** The alerts for player [t] that list the line [x]. *)
Definition lists (t : string) (x : L) (e : effect) : bool :=
  match e with
  | Alert t' _ new_upgrades => bool_decide (t' = t ∧ x ∈ new_upgrades)
  end.

Definition alerts_of (t : string) (x : L) (out : list effect) : list effect :=
  filter (lists t x) out.

(** In this roster every fetched document of player [t] lists [x]. *)
Definition still_upgrading (t : string) (x : L) (members : list member) : Prop :=
  ∀ m p, m ∈ members → tagged m = Some t → fetched m = Some p → x ∈ upgrading p.
End Alerts.
Arguments player : clear implicits.
Arguments member : clear implicits.
Arguments effect : clear implicits.
End UpgradeAlerts.

(** * Properties *)

(** ** The TTL cache *)

Section CacheFacts.
Context {V : Type}.
Implicit Types (cache : APICache.t V) (key : string) (value : option V).

Lemma get_hit cache key value timestamp ttl now :
  cache !! key = Some (value, timestamp) →
  now - timestamp < ttl →
  APICache.get cache key ttl now = (value, cache).
Proof.
  intros Hk Hfresh. unfold APICache.get. rewrite Hk.
  by rewrite bool_decide_eq_true_2.
Qed.

Lemma get_expired cache key value timestamp ttl now :
  cache !! key = Some (value, timestamp) →
  ¬ now - timestamp < ttl →
  APICache.get cache key ttl now = (None, delete key cache).
Proof.
  intros Hk Hstale. unfold APICache.get. rewrite Hk.
  by rewrite bool_decide_eq_false_2.
Qed.

Lemma get_absent cache key ttl now :
  cache !! key = None → APICache.get cache key ttl now = (None, cache).
Proof. intros Hk. unfold APICache.get. by rewrite Hk. Qed.

Lemma set_lookup cache key value now :
  APICache.set cache key value now !! key = Some (value, now).
Proof. unfold APICache.set. apply lookup_insert_eq. Qed.

(** Reads that all find the entry fresh leave the cache as it is. *)
Lemma reads_fresh cache key value timestamp rs :
  cache !! key = Some (value, timestamp) →
  Forall (λ r, r.2 - timestamp < r.1) rs →
  APICache.reads cache key rs = cache.
Proof.
  intros Hk Hrs. induction Hrs as [|[ttl now] rs Hr _ IH]; [done|].
  simpl in *. by rewrite (get_hit _ _ _ _ _ _ Hk Hr).
Qed.
End CacheFacts.

(** C4, as stated, fails: a read with a small time-to-live that finds the
    entry stale deletes it, and a later read under whose larger
    time-to-live the entry would be fresh no longer finds it. *)
Lemma stale_read_evicts_for_all_readers :
  ¬ (∀ (cache : APICache.t nat) key v stored ttl1 now1 ttl2 now2,
       now2 - stored < ttl2 →
       (APICache.get
          (APICache.get (APICache.set cache key v stored) key ttl1 now1).2
          key ttl2 now2).1 = v).
Proof.
  intros H.
  specialize (H ∅ "clan:#X"%string (Some 7%nat) 0 1 5 100 6 ltac:(lia)).
  vm_compute in H. discriminate H.
Qed.

(** C4, amended: an entry holds no time-to-live; a read returns the
    stored value exactly when [now - storedAt < ttl] for the time-to-live
    of that read; after [set], a read under which the entry is fresh
    returns the value provided every read in between also found it fresh;
    a read that finds the entry stale deletes it, so that every later read
    misses whatever its time-to-live. *)
Theorem per_read_ttl {V : Type} (cache : APICache.t V) (key : string) :
  (∀ (v : V) timestamp ttl now,
     cache !! key = Some (Some v, timestamp) →
     ((APICache.get cache key ttl now).1 = Some v ↔ now - timestamp < ttl)) ∧
  (∀ value stored rs ttl2 now2,
     Forall (λ r, r.2 - stored < r.1) rs →
     now2 - stored < ttl2 →
     (APICache.get (APICache.reads (APICache.set cache key value stored) key rs)
                   key ttl2 now2).1 = value) ∧
  (∀ value timestamp ttl1 now1 ttl2 now2,
     cache !! key = Some (value, timestamp) →
     ¬ now1 - timestamp < ttl1 →
     (APICache.get (APICache.get cache key ttl1 now1).2 key ttl2 now2).1 = None).
Proof.
  split; [|split].
  - intros v timestamp ttl now Hk. split.
    + intros Hget. destruct (decide (now - timestamp < ttl)) as [|Hstale]; [done|].
      rewrite (get_expired _ _ _ _ _ _ Hk Hstale) in Hget. discriminate Hget.
    + intros Hfresh. by rewrite (get_hit _ _ _ _ _ _ Hk Hfresh).
  - intros value stored rs ttl2 now2 Hrs Hfresh.
    rewrite (reads_fresh _ key value stored); [|apply set_lookup|done].
    by rewrite (get_hit _ key value stored); [|apply set_lookup|].
  - intros value timestamp ttl1 now1 ttl2 now2 Hk Hstale.
    rewrite (get_expired _ _ _ _ _ _ Hk Hstale). simpl.
    rewrite get_absent; [done|]. apply lookup_delete_eq.
Qed.

Lemma per_read_ttl_witness :
  let cache : APICache.t nat := {[ "clan:#X"%string := (Some 7%nat, 0) ]} in
  ((APICache.get cache "clan:#X" 60 59).1 = Some 7%nat ↔ 59 - 0 < 60) ∧
  (APICache.get
     (APICache.reads (APICache.set cache "clan:#X" (Some 8%nat) 100) "clan:#X"
                     [(30, 110); (60, 120)])
     "clan:#X" 300 350).1 = Some 8%nat ∧
  (APICache.get (APICache.get cache "clan:#X" 30 45).2 "clan:#X" 300 46).1 = None.
Proof.
  intros cache.
  destruct (per_read_ttl cache "clan:#X") as (Hiff & Hreads & Hevict).
  split; [|split].
  - apply Hiff. reflexivity.
  - apply Hreads; [|lia]. repeat constructor; simpl; lia.
  - apply (Hevict (Some 7%nat) 0); [reflexivity|lia].
Defined.

(** ** The request de-duplicator *)

Section DedupFacts.
Context {R : Type}.
Import RequestDeduplicator.
Implicit Types (s : state R) (es : list (event R)) (o : outcome R).
Implicit Types (key : string) (c future : nat) (cs rs : list nat).

Lemma run_app s es1 es2 :
  run s (es1 ++ es2) = run s es1 ≫= λ s1, run s1 es2.
Proof.
  revert s. induction es1 as [|e es1 IH]; intros s; simpl; [done|].
  destruct (step s e); simpl; [apply IH|done].
Qed.

Lemma run_cons s e es s1 :
  step s e = Some s1 → run s (e :: es) = run s1 es.
Proof. intros H. simpl. by rewrite H. Qed.

Lemma run_app_Some s es1 es2 s1 s2 :
  run s es1 = Some s1 → run s1 es2 = Some s2 → run s (es1 ++ es2) = Some s2.
Proof. intros H1 H2. by rewrite run_app, H1. Qed.

(** A call that finds no pending task makes one, registers it and
    invokes the factory once. *)
Lemma call_creates s key c :
  pending s !! key = None →
  pending (call s key c) !! key = Some (length (tasks s)) ∧
  tasks (call s key c) = tasks s ++ [(key, None)] ∧
  callers (call s key c) = <[c := Awaiting key (length (tasks s))]> (callers s) ∧
  invocations key (call s key c) = S (invocations key s).
Proof.
  intros Hk. unfold call, invocations. rewrite Hk. simpl.
  split_and!; [apply lookup_insert_eq|done|done|].
  rewrite filter_app, length_app, filter_cons_True by done. simpl. lia.
Qed.

(** A call that finds a pending task that still runs shares it: no task
    is made and the caller suspends. *)
Lemma call_joins s key c future key0 :
  pending s !! key = Some future →
  tasks s !! future = Some (key0, None) →
  call s key c =
    State (pending s) (tasks s) (<[c := Awaiting key future]> (callers s)).
Proof. intros Hk Ht. unfold call. by rewrite Hk, Ht. Qed.

Lemma cleanup_same (p : gmap string nat) key future :
  p !! key = Some future → cleanup p key future = delete key p.
Proof. intros Hk. unfold cleanup. by rewrite Hk, bool_decide_eq_true_2. Qed.

Lemma cleanup_other (p : gmap string nat) key future newer :
  p !! key = Some newer → newer ≠ future → cleanup p key future = p.
Proof. intros Hk Hne. unfold cleanup. by rewrite Hk, bool_decide_eq_false_2. Qed.

Lemma cleanup_absent (p : gmap string nat) key future :
  p !! key = None → cleanup p key future = p.
Proof. intros Hk. unfold cleanup. by rewrite Hk. Qed.

Lemma cleanup_lookup_ne (p : gmap string nat) key key' future :
  key' ≠ key → cleanup p key future !! key' = p !! key'.
Proof.
  intros Hne. unfold cleanup. destruct (p !! key); [|done].
  case_bool_decide; [|done]. by rewrite lookup_delete_ne.
Qed.

(** A call that finds a pending task that is done takes its outcome and
    removes the entry at once. *)
Lemma call_late s key c future key0 o :
  pending s !! key = Some future →
  tasks s !! future = Some (key0, Some o) →
  call s key c =
    State (delete key (pending s)) (tasks s) (<[c := Finished key o]> (callers s)).
Proof. intros Hk Ht. unfold call. by rewrite Hk, Ht, (cleanup_same _ _ _ Hk). Qed.

(** Callers arriving while the task pending for the key still runs all
    suspend on that task. *)
Lemma run_calls_join cs : ∀ s key future key0,
  pending s !! key = Some future →
  tasks s !! future = Some (key0, None) →
  NoDup cs →
  (∀ c, c ∈ cs → callers s !! c = None) →
  ∃ s', run s (Call key <$> cs) = Some s' ∧
        pending s' = pending s ∧ tasks s' = tasks s ∧
        (∀ c, c ∈ cs → callers s' !! c = Some (Awaiting key future)) ∧
        (∀ c, c ∉ cs → callers s' !! c = callers s !! c).
Proof.
  induction cs as [|c cs IH]; intros s key future key0 Hk Hrunning Hnd Hfresh.
  { exists s. split_and!; try done. intros c Hc. by apply elem_of_nil in Hc. }
  apply NoDup_cons in Hnd as [Hc Hnd].
  simpl. rewrite (Hfresh c) by left. rewrite (call_joins _ _ _ _ _ Hk Hrunning).
  edestruct (IH (State (pending s) (tasks s)
                       (<[c := Awaiting key future]> (callers s))) key future key0)
    as (s' & Hrun & Hp & Ht & Hin & Hout); [done|done|done| |].
  { intros c' Hc'. simpl. rewrite lookup_insert_ne by (intros ->; done).
    apply Hfresh. by right. }
  exists s'. split_and!; [done|done|done| |].
  - intros c' [->|Hc']%elem_of_cons; [|by apply Hin].
    rewrite (Hout _ Hc). simpl. apply lookup_insert_eq.
  - intros c' [Hne Hc']%not_elem_of_cons. rewrite (Hout _ Hc'). simpl.
    by rewrite lookup_insert_ne.
Qed.

(** Once the task is done, its awaiters resume in any order; each gets
    the outcome of the task, and the first to resume removes the pending
    entry if it is still the one of that task. *)
Lemma run_resumes rs : ∀ s key future o,
  tasks s !! future = Some (key, Some o) →
  NoDup rs →
  (∀ c, c ∈ rs → callers s !! c = Some (Awaiting key future)) →
  pending s !! key = Some future ∨ pending s !! key = None →
  ∃ s', run s (Resume <$> rs) = Some s' ∧
        tasks s' = tasks s ∧
        (∀ c, c ∈ rs → callers s' !! c = Some (Finished key o)) ∧
        (∀ c, c ∉ rs → callers s' !! c = callers s !! c) ∧
        (rs ≠ [] → pending s' !! key = None) ∧
        (rs = [] → pending s' = pending s) ∧
        (∀ key', key' ≠ key → pending s' !! key' = pending s !! key').
Proof.
  induction rs as [|c rs IH]; intros s key future o Ht Hnd Haw Hp.
  { exists s. split_and!; try done. intros c Hc. by apply elem_of_nil in Hc. }
  apply NoDup_cons in Hnd as [Hc Hnd].
  simpl. rewrite (Haw c) by left. rewrite Ht.
  set (s1 := State (cleanup (pending s) key future) (tasks s)
                   (<[c := Finished key o]> (callers s))).
  assert (pending s1 !! key = None) as Hp1.
  { simpl. destruct Hp as [Hp|Hp].
    - rewrite (cleanup_same _ _ _ Hp). apply lookup_delete_eq.
    - by rewrite (cleanup_absent _ _ _ Hp). }
  edestruct (IH s1 key future o)
    as (s' & Hrun & Ht' & Hin & Hout & Hne & Hnil & Hframe);
    [done|done| |by right|].
  { intros c' Hc'. simpl. rewrite lookup_insert_ne by (intros ->; done).
    apply Haw. by right. }
  exists s'. split_and!; [done|done| | | |done|].
  - intros c' [->|Hc']%elem_of_cons; [|by apply Hin].
    rewrite (Hout _ Hc). simpl. apply lookup_insert_eq.
  - intros c' [Hne' Hc']%not_elem_of_cons. rewrite (Hout _ Hc'). simpl.
    by rewrite lookup_insert_ne.
  - intros _. destruct rs as [|c' rs]; [|by apply Hne].
    by rewrite Hnil.
  - intros key' Hk'. rewrite (Hframe _ Hk'). simpl.
    by apply cleanup_lookup_ne.
Qed.
(** Calls for another key touch neither the pending entry of this key
    nor the count of its factory invocations. *)
Lemma call_other_key s key key' c :
  key' ≠ key →
  pending (call s key' c) !! key = pending s !! key ∧
  invocations key (call s key' c) = invocations key s.
Proof.
  intros Hne. unfold call, invocations.
  destruct (pending s !! key') as [future|]; simpl.
  - destruct (tasks s !! future) as [[key0 [o|]]|]; simpl; [|done|done].
    split; [|done]. by apply cleanup_lookup_ne.
  - rewrite lookup_insert_ne by done. split; [done|].
    rewrite filter_app, length_app, filter_cons_False by done. simpl. lia.
Qed.
End DedupFacts.

(** C1: when N callers invoke [get_or_create] for a key without a pending
    fetch, all of them while the fetch is in flight, the factory is
    invoked exactly once, every caller ends with the outcome of that one
    task (its result or its exception), the pending entry of the key is
    gone once they have resumed, and a later call starts a new fetch.
    The callers may resume in any order. *)
Theorem concurrent_callers_share_one_fetch {R : Type}
    (s : RequestDeduplicator.state R) (key : string) (cs rs : list nat)
    (o : RequestDeduplicator.outcome R) :
  let future := length (RequestDeduplicator.tasks s) in
  RequestDeduplicator.pending s !! key = None →
  cs ≠ [] →
  NoDup cs →
  (∀ c, c ∈ cs → RequestDeduplicator.callers s !! c = None) →
  rs ≡ₚ cs →
  ∃ s',
    RequestDeduplicator.run s
      ((RequestDeduplicator.Call key <$> cs)
         ++ [RequestDeduplicator.Settle future o]
         ++ (RequestDeduplicator.Resume <$> rs)) = Some s' ∧
    RequestDeduplicator.invocations key s'
      = S (RequestDeduplicator.invocations key s) ∧
    (∀ c, c ∈ cs →
       RequestDeduplicator.callers s' !! c
         = Some (RequestDeduplicator.Finished key o)) ∧
    RequestDeduplicator.pending s' !! key = None ∧
    (∀ c', RequestDeduplicator.callers s' !! c' = None →
       ∃ s'', RequestDeduplicator.step s' (RequestDeduplicator.Call key c') = Some s'' ∧
              RequestDeduplicator.invocations key s''
                = S (RequestDeduplicator.invocations key s')).
Proof.
  intros future Hk Hne Hnd Hfresh Hperm.
  destruct cs as [|c1 cs]; [done|]. clear Hne.
  apply NoDup_cons in Hnd as [Hc1 Hnd1].
  (* the first call makes the task *)
  destruct (call_creates s key c1 Hk) as (Hp1 & Ht1 & Hc1' & Hi1).
  set (s1 := RequestDeduplicator.call s key c1) in *.
  assert (RequestDeduplicator.tasks s1 !! future = Some (key, None)) as Hrunning.
  { rewrite Ht1. subst future. by rewrite lookup_app_r, Nat.sub_diag by lia. }
  (* the other callers join it while it runs *)
  destruct (run_calls_join cs s1 key future key Hp1 Hrunning Hnd1)
    as (s2 & Hrun2 & Hp2 & Ht2 & Hin2 & Hout2).
  { intros c Hc. rewrite Hc1'. rewrite lookup_insert_ne.
    - apply Hfresh. by right.
    - by intros ->. }
  (* the task settles *)
  set (s3 := RequestDeduplicator.State (RequestDeduplicator.pending s2)
               (<[future := (key, Some o)]> (RequestDeduplicator.tasks s2))
               (RequestDeduplicator.callers s2)).
  assert (RequestDeduplicator.tasks s2 = RequestDeduplicator.tasks s ++ [(key, None)])
    as Ht2' by (by rewrite Ht2).
  assert (RequestDeduplicator.step s2 (RequestDeduplicator.Settle future o) = Some s3)
    as Hstep3.
  { simpl. rewrite Ht2'. subst future.
    rewrite lookup_app_r, Nat.sub_diag by lia. simpl. subst s3.
    by rewrite Ht2'. }
  assert (RequestDeduplicator.tasks s3
          = RequestDeduplicator.tasks s ++ [(key, Some o)]) as Ht3.
  { simpl. rewrite Ht2'. subst future.
    rewrite insert_app_r_alt, Nat.sub_diag by lia. done. }
  (* everybody resumes *)
  assert (∀ c, c ∈ c1 :: cs →
               RequestDeduplicator.callers s3 !! c
                 = Some (RequestDeduplicator.Awaiting key future)) as Haw.
  { intros c Hc. simpl. apply elem_of_cons in Hc as [->|Hc].
    - rewrite Hout2 by done. rewrite Hc1'. apply lookup_insert_eq.
    - by apply Hin2. }
  destruct (run_resumes rs s3 key future o)
    as (s5 & Hrun5 & Ht5 & Hin5 & Hout5 & Hgone & _ & _).
  { rewrite Ht3. subst future. by rewrite lookup_app_r, Nat.sub_diag by lia. }
  { rewrite Hperm. by apply NoDup_cons. }
  { intros c Hc. apply Haw. by rewrite <- Hperm. }
  { left. simpl. by rewrite Hp2. }
  assert (RequestDeduplicator.invocations key s5
          = S (RequestDeduplicator.invocations key s)) as Hi5.
  { unfold RequestDeduplicator.invocations. rewrite Ht5, Ht3.
    rewrite filter_app, length_app, filter_cons_True by done. simpl. lia. }
  assert (RequestDeduplicator.pending s5 !! key = None) as Hp5.
  { apply Hgone. intros ->. apply Permutation_nil_cons in Hperm. done. }
  exists s5. split_and!.
  - rewrite fmap_cons, <- app_comm_cons.
    rewrite (run_cons _ _ _ s1) by (simpl; by rewrite (Hfresh c1) by left).
    apply (run_app_Some _ _ _ s2 s5 Hrun2). cbn [app].
    by rewrite (run_cons _ _ _ s3) by done.
  - done.
  - intros c Hc. apply Hin5. by rewrite Hperm.
  - done.
  - intros c' Hc'. exists (RequestDeduplicator.call s5 key c'). split.
    + simpl. by rewrite Hc'.
    + by destruct (call_creates s5 key c' Hp5) as (_ & _ & _ & ->).
Qed.

Lemma concurrent_callers_share_one_fetch_witness :
  ∃ s' : RequestDeduplicator.state nat,
    RequestDeduplicator.run RequestDeduplicator.init
      [RequestDeduplicator.Call "clan:#X" 1%nat;
       RequestDeduplicator.Call "clan:#X" 2%nat;
       RequestDeduplicator.Call "clan:#X" 3%nat;
       RequestDeduplicator.Settle 0%nat (RequestDeduplicator.Returned 42%nat);
       RequestDeduplicator.Resume 3%nat;
       RequestDeduplicator.Resume 1%nat;
       RequestDeduplicator.Resume 2%nat] = Some s' ∧
    RequestDeduplicator.invocations "clan:#X" s' = 1%nat ∧
    (∀ c, c ∈ [1; 2; 3]%nat →
       RequestDeduplicator.callers s' !! c
         = Some (RequestDeduplicator.Finished "clan:#X"
                   (RequestDeduplicator.Returned 42%nat))) ∧
    RequestDeduplicator.pending s' !! "clan:#X"%string = None ∧
    (∀ c', RequestDeduplicator.callers s' !! c' = None →
       ∃ s'', RequestDeduplicator.step s'
                (RequestDeduplicator.Call "clan:#X" c') = Some s'' ∧
              RequestDeduplicator.invocations "clan:#X" s''
                = S (RequestDeduplicator.invocations "clan:#X" s')).
Proof.
  apply (concurrent_callers_share_one_fetch
           RequestDeduplicator.init "clan:#X" [1; 2; 3]%nat [3; 1; 2]%nat
           (RequestDeduplicator.Returned 42%nat)).
  - reflexivity.
  - discriminate.
  - compute_done.
  - intros c _. reflexivity.
  - apply (Permutation_cons_append [1; 2]%nat 3%nat).
Defined.

(** C10: the [finally] block of a caller deletes the pending entry of its
    key only if that entry is the future the caller awaited.  If a newer
    fetch has been registered under the key in the meantime, the resuming
    caller leaves the pending map as it is; if the entry is still its own
    future, it deletes it and touches no other key.  Hence, once a fetch
    has settled and its awaiters have resumed, in any order, the key is
    absent from the pending map. *)
Theorem cleanup_removes_only_own_future {R : Type}
    (s : RequestDeduplicator.state R) (key : string) (c future : nat) :
  RequestDeduplicator.callers s !! c
    = Some (RequestDeduplicator.Awaiting key future) →
  (∀ newer key0 o,
     RequestDeduplicator.pending s !! key = Some newer → newer ≠ future →
     RequestDeduplicator.tasks s !! future = Some (key0, Some o) →
     ∃ s', RequestDeduplicator.step s (RequestDeduplicator.Resume c) = Some s' ∧
           RequestDeduplicator.pending s' = RequestDeduplicator.pending s ∧
           RequestDeduplicator.pending s' !! key = Some newer) ∧
  (∀ key0 o,
     RequestDeduplicator.pending s !! key = Some future →
     RequestDeduplicator.tasks s !! future = Some (key0, Some o) →
     ∃ s', RequestDeduplicator.step s (RequestDeduplicator.Resume c) = Some s' ∧
           RequestDeduplicator.pending s'
             = delete key (RequestDeduplicator.pending s)) ∧
  (∀ o others order,
     RequestDeduplicator.pending s !! key = Some future →
     RequestDeduplicator.tasks s !! future = Some (key, None) →
     NoDup (c :: others) →
     (∀ c', c' ∈ others →
        RequestDeduplicator.callers s !! c'
          = Some (RequestDeduplicator.Awaiting key future)) →
     order ≡ₚ c :: others →
     ∃ s', RequestDeduplicator.run s
             (RequestDeduplicator.Settle future o
                :: (RequestDeduplicator.Resume <$> order)) = Some s' ∧
           RequestDeduplicator.pending s' !! key = None ∧
           (∀ c', c' ∈ c :: others →
              RequestDeduplicator.callers s' !! c'
                = Some (RequestDeduplicator.Finished key o))).
Proof.
  intros Hc. split_and!.
  - intros newer key0 o Hp Hne Ht. eexists. split; [|split].
    + simpl. rewrite Hc, Ht. reflexivity.
    + simpl. by apply cleanup_other with newer.
    + simpl. by rewrite (cleanup_other _ _ _ newer).
  - intros key0 o Hp Ht. eexists. split.
    + simpl. rewrite Hc, Ht. reflexivity.
    + simpl. by apply cleanup_same.
  - intros o others order Hp Ht Hnd Haw Hperm.
    set (s1 := RequestDeduplicator.State (RequestDeduplicator.pending s)
                 (<[future := (key, Some o)]> (RequestDeduplicator.tasks s))
                 (RequestDeduplicator.callers s)).
    destruct (run_resumes order s1 key future o)
      as (s' & Hrun & _ & Hin & _ & Hgone & _ & _).
    + simpl. apply list_lookup_insert_eq. by eapply lookup_lt_Some.
    + by rewrite Hperm.
    + intros c' Hc'. rewrite Hperm in Hc'. simpl.
      apply elem_of_cons in Hc' as [->|Hc']; [done|by apply Haw].
    + by left.
    + exists s'. split_and!.
      * rewrite (run_cons _ _ _ s1); [done|]. simpl. by rewrite Ht.
      * apply Hgone. intros ->. by apply Permutation_nil_cons in Hperm.
      * intros c' Hc'. apply Hin. by rewrite Hperm.
Qed.

Lemma cleanup_removes_only_own_future_witness :
  let o := RequestDeduplicator.Returned 42%nat in
  let key := "clan:#X"%string in
  (* caller 2 still awaits task 0 while task 1 has been registered *)
  let s_newer : RequestDeduplicator.state nat :=
    RequestDeduplicator.State {[ key := 1%nat ]}
      [(key, Some o); (key, None)]
      {[ 1%nat := RequestDeduplicator.Finished key o;
         2%nat := RequestDeduplicator.Awaiting key 0;
         3%nat := RequestDeduplicator.Awaiting key 1 ]} in
  (* callers 1 and 2 await task 0, which is still registered *)
  let s_own (done : option (RequestDeduplicator.outcome nat))
    : RequestDeduplicator.state nat :=
    RequestDeduplicator.State {[ key := 0%nat ]}
      [(key, done)]
      {[ 1%nat := RequestDeduplicator.Awaiting key 0;
         2%nat := RequestDeduplicator.Awaiting key 0 ]} in
  (∃ s', RequestDeduplicator.step s_newer (RequestDeduplicator.Resume 2%nat) = Some s' ∧
         RequestDeduplicator.pending s' = RequestDeduplicator.pending s_newer ∧
         RequestDeduplicator.pending s' !! key = Some 1%nat) ∧
  (∃ s', RequestDeduplicator.step (s_own (Some o)) (RequestDeduplicator.Resume 1%nat)
           = Some s' ∧
         RequestDeduplicator.pending s'
           = delete key (RequestDeduplicator.pending (s_own (Some o)))) ∧
  (∃ s', RequestDeduplicator.run (s_own None)
           (RequestDeduplicator.Settle 0%nat o
              :: (RequestDeduplicator.Resume <$> [2; 1]%nat)) = Some s' ∧
         RequestDeduplicator.pending s' !! key = None ∧
         (∀ c', c' ∈ [1; 2]%nat →
            RequestDeduplicator.callers s' !! c'
              = Some (RequestDeduplicator.Finished key o))).
Proof.
  intros o key s_newer s_own. split_and!.
  - apply (proj1 (cleanup_removes_only_own_future s_newer key 2%nat 0%nat
                    ltac:(by vm_compute)) 1%nat key o).
    + by vm_compute.
    + discriminate.
    + reflexivity.
  - apply (proj1 (proj2 (cleanup_removes_only_own_future (s_own (Some o)) key
                           1%nat 0%nat ltac:(by vm_compute))) key o).
    + by vm_compute.
    + reflexivity.
  - apply (proj2 (proj2 (cleanup_removes_only_own_future (s_own None) key
                           1%nat 0%nat ltac:(by vm_compute))) o [2%nat] [2; 1]%nat).
    + by vm_compute.
    + reflexivity.
    + compute_done.
    + intros c' ->%list_elem_of_singleton. by vm_compute.
    + apply (Permutation_cons_append [1%nat] 2%nat).
Defined.

(** ** The gateways *)

Section GatewayFacts.
Context {V : Type}.
Import Upstream.
Implicit Types (upstream : string → response V) (cache : APICache.t V).
Implicit Types (c : Bot.cred) (key k : string) (others : list string).

(** The failover loop stops at the first remaining key that succeeds,
    having sent one request with each key before it, and selects it. *)
Lemma failover_first_success upstream cache_key key now others :
  ∀ before k after data c cache,
    filter (λ x, x ≠ key) others = before ++ k :: after →
    Forall (λ x, Bot.success (upstream x) = None) before →
    Bot.success (upstream k) = Some data →
    Bot.failover upstream cache_key key now others c cache
    = (Some data, Bot.select_key c k now,
       APICache.set cache cache_key (Some data) now, before ++ [k]).
Proof.
  induction others as [|x others IH]; intros before k after data c cache Hf Hb Hk.
  { by destruct before. }
  simpl. destruct (String.eqb_spec x key) as [->|Hx].
  - rewrite filter_cons_False in Hf by (intros ?; done). by eapply IH.
  - rewrite filter_cons_True in Hf by done.
    destruct before as [|b before]; simplify_eq/=.
    + by rewrite Hk.
    + apply Forall_cons in Hb as [Hb1 Hb]. rewrite Hb1.
      by rewrite (IH before k after data c cache).
Qed.

(** When no remaining key succeeds, the loop has sent one request with
    each of them and changes neither the selection nor the cache. *)
Lemma failover_all_fail upstream cache_key key now others c cache :
  Forall (λ x, Bot.success (upstream x) = None) (filter (λ x, x ≠ key) others) →
  Bot.failover upstream cache_key key now others c cache
  = (None, c, cache, filter (λ x, x ≠ key) others).
Proof.
  induction others as [|x others IH]; intros Hall; [done|].
  simpl. destruct (String.eqb_spec x key) as [->|Hx].
  - rewrite filter_cons_False in Hall |- * by (intros ?; done). by apply IH.
  - rewrite filter_cons_True in Hall |- * by done.
    apply Forall_cons in Hall as [Hx1 Hall]. by rewrite Hx1, IH.
Qed.

Lemma select_coc_key_fresh KEYS ttl now probe c :
  Bot.fresh (Bot._selected_coc_key c) (Bot._selected_coc_key_ts c) ttl now = true →
  Bot.select_coc_key KEYS ttl now probe c = (Bot._selected_coc_key c, c).
Proof. intros H. unfold Bot.select_coc_key. by rewrite H. Qed.

(** The key [select_coc_key] returns is the one the globals hold
    afterwards. *)
Lemma select_coc_key_selected KEYS ttl now probe c key c1 :
  Bot.select_coc_key KEYS ttl now probe c = (Some key, c1) →
  Bot._selected_coc_key c1 = Some key.
Proof.
  unfold Bot.select_coc_key.
  destruct (Bot.fresh _ _ _ _); [by intros [= <- <-]|].
  destruct (Bot.get_egress_ip ttl now probe c) as [ip c0].
  repeat case_match; by intros [= <- <-].
Qed.

(** When the cached selection has expired, the key [select_coc_key]
    returns is stored with the time of the call. *)
Lemma select_coc_key_stale KEYS ttl now probe c key c1 :
  Bot.fresh (Bot._selected_coc_key c) (Bot._selected_coc_key_ts c) ttl now = false →
  Bot.select_coc_key KEYS ttl now probe c = (Some key, c1) →
  Bot._selected_coc_key_ts c1 = now.
Proof.
  intros Hstale. unfold Bot.select_coc_key. rewrite Hstale.
  destruct (Bot.get_egress_ip ttl now probe c) as [ip c0].
  repeat case_match; by intros [= <- <-].
Qed.

(** A stored [None] is read back as a miss: whatever the clock and the
    time-to-live, [_make_request] goes on to the upstream service. *)
Lemma make_request_none_is_miss (KEYS : api_keys) ip k rest upstream cache_key
    ttl now timestamp cache :
  KEYS = (ip, k) :: rest →
  cache !! cache_key = Some (None, timestamp) →
  ∃ cache1,
    COCAPI._make_request KEYS upstream cache_key ttl now cache
    = COCAPI.fetch_loop upstream cache_key now (values KEYS) cache1.
Proof.
  intros -> Hk. unfold COCAPI._make_request, APICache.get. rewrite Hk.
  case_bool_decide; eauto.
Qed.

(** A 404 for the first key stores [None] and ends the call after that
    one request. *)
Lemma fetch_loop_not_found upstream cache_key now k keys body cache :
  upstream k = Response 404 body →
  COCAPI.fetch_loop upstream cache_key now (k :: keys) cache
  = (None, APICache.set cache cache_key None now, [k]).
Proof. intros Hk. simpl. by rewrite Hk. Qed.
End GatewayFacts.

(** C5: at the failing input the code misses what the claim and the
    comment in [_fetch] ask for.  With one API key that the service
    answers with 404, the first [_make_request] stores [None] for the
    key, and a second call ten seconds later, well within the
    time-to-live of 60, reads that [None] as a miss and sends a request
    again.  [coc_get] stores nothing on a 404 and asks again as well. *)
Theorem not_found_is_requested_again :
  let KEYS : Upstream.api_keys := [("*", "KEY_A")]%string in
  let upstream (k : string) : Upstream.response nat := Upstream.Response 404 None in
  let '(r1, cache1, sent1) :=
    COCAPI._make_request KEYS upstream "player:#P" 60 1000 ∅ in
  let '(r2, cache2, sent2) :=
    COCAPI._make_request KEYS upstream "player:#P" 60 1010 cache1 in
  let '(r3, c3, cache3, sent3) :=
    Bot.coc_get KEYS 300 ["KEY_A"%string] upstream None "coc:/players/%23P" 60 1000
                Bot.cred_init ∅ in
  let '(r4, c4, cache4, sent4) :=
    Bot.coc_get KEYS 300 ["KEY_A"%string] upstream None "coc:/players/%23P" 60 1010
                c3 cache3 in
  (r1 = None ∧ cache1 !! "player:#P"%string = Some (None, 1000) ∧
   sent1 = ["KEY_A"%string]) ∧
  (1010 - 1000 < 60 ∧ r2 = None ∧ sent2 = ["KEY_A"%string]) ∧
  (r3 = None ∧ cache3 = ∅ ∧ sent3 = ["KEY_A"%string]) ∧
  (r4 = None ∧ sent4 = ["KEY_A"%string]).
Proof. vm_compute. repeat split; done. Qed.

(** C6, as stated, fails.  [_fetch] begins with [select_coc_key], and
    when the cached selection has expired that call stores the key it
    derives, with the time of the call, before any request is sent.
    Nothing undoes this when every key fails: here [KEY_B], selected
    long ago, is replaced by [KEY_A], the key configured for the egress
    address, although the request with [KEY_A] has just failed like all
    the others. *)
Lemma all_failed_attempt_persists_a_selection :
  ¬ (∀ (KEYS : Upstream.api_keys) (TTL : Z) (others : list string)
       (upstream : string → Upstream.response nat) (probe : option string)
       (cache_key : string) (now : Z) (c : Bot.cred) (cache : APICache.t nat),
       (∀ k, Bot.success (upstream k) = None) →
       let r := Bot._fetch KEYS TTL others upstream probe cache_key now c cache in
       r.1.1.1 = None ∧
       Bot._selected_coc_key r.1.1.2 = Bot._selected_coc_key c ∧
       Bot._selected_coc_key_ts r.1.1.2 = Bot._selected_coc_key_ts c).
Proof.
  intros H.
  specialize (H [("1.2.3.4", "KEY_A"); ("5.6.7.8", "KEY_B")]%string 300
                ["KEY_A"; "KEY_B"]%string
                (λ _, Upstream.Response 403 None) None "coc:/clans/%23X"%string 1000
                (Bot.Cred (Some "KEY_B"%string) 0 (Some "1.2.3.4"%string) 900) ∅
                (λ _, eq_refl)).
  destruct H as (_ & Hkey & _). vm_compute in Hkey. discriminate Hkey.
Qed.

(** C6, amended: within one run of [_fetch], when the request with the
    selected key fails, the other keys are tried in the order of
    iteration, the selected key left out.  The first of them to succeed
    is stored as the selected key, which a later [select_coc_key] within
    the time-to-live returns; the document is cached and returned.  If
    none succeeds, [_fetch] returns [None] after one request with every
    key, and the failover itself stores no selection: the credential
    globals are the ones [select_coc_key] left at the start of the
    attempt, with the key of the first request selected.  That is the
    very state before the call when the cached selection was still
    fresh; when it had expired, it is the newly derived key, stored with
    the time of the attempt. *)
Theorem credential_failover {V : Type}
    (KEYS : Upstream.api_keys) (TTL : Z) (others : list string)
    (upstream : string → Upstream.response V) (probe : option string)
    (cache_key : string) (now : Z) (c c1 : Bot.cred) (cache : APICache.t V)
    (key : string) :
  Bot.select_coc_key KEYS TTL now probe c = (Some key, c1) →
  Upstream.truthy key = true →
  Bot.success (upstream key) = None →
  (∀ before k after data,
     filter (λ x, x ≠ key) others = before ++ k :: after →
     Forall (λ x, Bot.success (upstream x) = None) before →
     Bot.success (upstream k) = Some data →
     Bot._fetch KEYS TTL others upstream probe cache_key now c cache
     = (Some data, Bot.select_key c1 k now,
        APICache.set cache cache_key (Some data) now, key :: before ++ [k]) ∧
     Bot._selected_coc_key (Bot.select_key c1 k now) = Some k ∧
     (∀ later probe',
        Upstream.truthy k = true → later - now < TTL →
        (Bot.select_coc_key KEYS TTL later probe' (Bot.select_key c1 k now)).1
        = Some k)) ∧
  (Forall (λ x, Bot.success (upstream x) = None) (filter (λ x, x ≠ key) others) →
   Bot._fetch KEYS TTL others upstream probe cache_key now c cache
   = (None, c1, cache, key :: filter (λ x, x ≠ key) others) ∧
   Bot._selected_coc_key c1 = Some key ∧
   (Bot.fresh (Bot._selected_coc_key c) (Bot._selected_coc_key_ts c) TTL now = true →
    c1 = c) ∧
   (Bot.fresh (Bot._selected_coc_key c) (Bot._selected_coc_key_ts c) TTL now = false →
    Bot._selected_coc_key_ts c1 = now)).
Proof.
  intros Hsel Htruthy Hfail. split.
  - intros before k after data Hf Hb Hk. split_and!.
    + unfold Bot._fetch. rewrite Hsel, Htruthy, Hfail. simpl.
      by rewrite (failover_first_success _ _ _ _ _ before k after data).
    + done.
    + intros later probe' Hk' Hlater.
      rewrite select_coc_key_fresh; [done|]. simpl.
      rewrite Hk'. simpl. by apply bool_decide_eq_true_2.
  - intros Hall. split_and!.
    + unfold Bot._fetch. rewrite Hsel, Htruthy, Hfail. simpl.
      by rewrite failover_all_fail.
    + by eapply select_coc_key_selected.
    + intros Hfresh. rewrite select_coc_key_fresh in Hsel by done. congruence.
    + intros Hstale. by eapply select_coc_key_stale.
Qed.

Lemma credential_failover_witness :
  let KEYS : Upstream.api_keys :=
    [("1.2.3.4", "KEY_A"); ("5.6.7.8", "KEY_B"); ("*", "KEY_C")]%string in
  let others := ["KEY_C"; "KEY_A"; "KEY_B"]%string in
  let c := Bot.Cred (Some "KEY_A"%string) 900 (Some "1.2.3.4"%string) 900 in
  (* KEY_A and KEY_C are rejected, KEY_B is accepted *)
  let up1 (k : string) : Upstream.response nat :=
    if String.eqb k "KEY_B" then Upstream.Response 200 (Some 7%nat)
    else Upstream.Response 403 None in
  (* every key is rejected or times out *)
  let up2 (k : string) : Upstream.response nat :=
    if String.eqb k "KEY_B" then Upstream.TimeoutError
    else Upstream.Response 403 None in
  Bot._fetch KEYS 300 others up1 None "coc:/clans/%23X" 1000 c ∅
  = (Some 7%nat, Bot.Cred (Some "KEY_B"%string) 1000 (Some "1.2.3.4"%string) 900,
     APICache.set ∅ "coc:/clans/%23X" (Some 7%nat) 1000,
     ["KEY_A"; "KEY_C"; "KEY_B"]%string) ∧
  Bot._fetch KEYS 300 others up2 None "coc:/clans/%23X" 1000 c ∅
  = (None, c, ∅, ["KEY_A"; "KEY_C"; "KEY_B"]%string) ∧
  (* the same with a selection of [KEY_B] that has expired *)
  Bot._fetch KEYS 300 others up2 None "coc:/clans/%23X" 1000
             (Bot.Cred (Some "KEY_B"%string) 0 (Some "1.2.3.4"%string) 900) ∅
  = (None, Bot.Cred (Some "KEY_A"%string) 1000 (Some "1.2.3.4"%string) 900, ∅,
     ["KEY_A"; "KEY_C"; "KEY_B"]%string).
Proof.
  intros KEYS others c up1 up2. split_and!.
  - destruct (credential_failover KEYS 300 others up1 None "coc:/clans/%23X"
                1000 c c ∅ "KEY_A" eq_refl eq_refl eq_refl) as [Hfirst _].
    destruct (Hfirst ["KEY_C"%string] "KEY_B"%string [] 7%nat) as (Hrun & _ & _).
    + reflexivity.
    + repeat constructor.
    + reflexivity.
    + exact Hrun.
  - destruct (credential_failover KEYS 300 others up2 None "coc:/clans/%23X"
                1000 c c ∅ "KEY_A" eq_refl eq_refl eq_refl) as [_ Hnone].
    destruct Hnone as [Hrun _].
    + repeat constructor.
    + exact Hrun.
  - destruct (credential_failover KEYS 300 others up2 None "coc:/clans/%23X"
                1000 (Bot.Cred (Some "KEY_B"%string) 0 (Some "1.2.3.4"%string) 900)
                (Bot.Cred (Some "KEY_A"%string) 1000 (Some "1.2.3.4"%string) 900)
                ∅ "KEY_A" eq_refl eq_refl eq_refl) as [_ Hnone].
    destruct Hnone as [Hrun _].
    + repeat constructor.
    + exact Hrun.
Defined.

(** ** The join/leave tracker *)

Section TrackerFacts.
Import Tracker.
Variable LEAVE_DEBOUNCE_COUNT : Z.
Variable clan_tag : string.
Implicit Types (s : state) (t player : string) (m : gmap string Z).

Local Abbreviation confirmed m cands := (Tracker.confirmed LEAVE_DEBOUNCE_COUNT m cands).
Local Abbreviation counters_known s := (Tracker.counters_known clan_tag s).

Lemma known_set_known s tags : known (set_known s clan_tag tags) clan_tag = tags.
Proof. unfold known, set_known. simpl. by rewrite lookup_insert_eq. Qed.

Lemma missing_update_missing s f :
  missing (update_missing s clan_tag f) clan_tag = f (missing s clan_tag).
Proof. unfold missing at 1, update_missing. simpl. by rewrite lookup_insert_eq. Qed.

Lemma filter_ext_in {A} (P Q : A → Prop) `{∀ x, Decision (P x)}
    `{∀ x, Decision (Q x)} (l : list A) :
  (∀ x, x ∈ l → P x ↔ Q x) → filter P l = filter Q l.
Proof.
  induction l as [|x l IH]; intros Hext; [done|].
  assert (filter P l = filter Q l) as Hl.
  { apply IH. intros y Hy. apply Hext. by right. }
  destruct (decide (P x)) as [HP|HP].
  - rewrite !filter_cons_True; [by f_equal|by apply Hext; [left|]|done].
  - rewrite !filter_cons_False; [done| |done].
    intros HQ. apply HP. apply Hext; [by left|done].
Qed.

Lemma known_join_one s player :
  known (join_one clan_tag player s) clan_tag = known s clan_tag ∪ {[player]}.
Proof. unfold known at 1, join_one. simpl. by rewrite lookup_insert_eq. Qed.

Lemma missing_join_one s player :
  missing (join_one clan_tag player s) clan_tag = delete player (missing s clan_tag).
Proof. unfold missing at 1, join_one. simpl. by rewrite lookup_insert_eq. Qed.

(** The join loop announces each new tag once, in order, adds the tags
    to the known set and drops their miss counters. *)
Lemma join_loop_spec joins : ∀ s,
  let r := join_loop clan_tag joins s in
  r.1 = Join clan_tag <$> joins ∧
  known r.2 clan_tag = known s clan_tag ∪ list_to_set joins ∧
  (∀ t, missing r.2 clan_tag !! t
        = if decide (t ∈ joins) then None else missing s clan_tag !! t) ∧
  files r.2 = files s ∧
  initialized_baseline r.2 = initialized_baseline s.
Proof.
  induction joins as [|p joins IH]; intros s; simpl.
  { split_and!; try done. set_solver. }
  specialize (IH (join_one clan_tag p s)).
  destruct (join_loop clan_tag joins (join_one clan_tag p s)) as [out s'].
  simpl in *. destruct IH as (-> & Hk & Hm & Hf & Hi).
  split_and!; [done| | |done|done].
  - rewrite Hk, known_join_one. set_solver.
  - intros t. rewrite Hm, missing_join_one.
    destruct (decide (t = p)) as [->|Hne].
    + rewrite lookup_delete_eq. rewrite (decide_True (P := p ∈ p :: joins)) by left.
      by case_decide.
    + rewrite lookup_delete_ne by done.
      destruct (decide (t ∈ joins)) as [Hin|Hin].
      * by rewrite decide_True by (by right).
      * rewrite decide_False; [done|]. by intros [?|?]%elem_of_cons.
Qed.

Lemma known_save s :
  known (save_strict_cache s clan_tag).2 clan_tag = known s clan_tag.
Proof. done. Qed.

Lemma missing_save s :
  missing (save_strict_cache s clan_tag).2 clan_tag = missing s clan_tag.
Proof. done. Qed.

Lemma files_save s :
  files (save_strict_cache s clan_tag).2 !! members_filename clan_tag
  = Some (elements (known s clan_tag)).
Proof. unfold save_strict_cache. simpl. by rewrite lookup_insert_eq. Qed.

(** One candidate below the threshold: only its counter changes. *)
Lemma leave_one_waiting s player :
  next_count (missing s clan_tag) player < LEAVE_DEBOUNCE_COUNT →
  let r := leave_one LEAVE_DEBOUNCE_COUNT clan_tag player s in
  r.1 = [] ∧
  known r.2 clan_tag = known s clan_tag ∧
  missing r.2 clan_tag
    = <[player := next_count (missing s clan_tag) player]> (missing s clan_tag) ∧
  files r.2 = files s ∧
  initialized_baseline r.2 = initialized_baseline s.
Proof.
  intros Hlt. unfold leave_one. fold (next_count (missing s clan_tag) player).
  rewrite bool_decide_eq_true_2 by done. simpl.
  split_and!; try done. by rewrite missing_update_missing.
Qed.

(** One known candidate at the threshold: the leave is announced, the
    tag removed from the known set, the set saved and the counter
    dropped. *)
Lemma leave_one_confirmed s player :
  ¬ (next_count (missing s clan_tag) player < LEAVE_DEBOUNCE_COUNT) →
  player ∈ known s clan_tag →
  let r := leave_one LEAVE_DEBOUNCE_COUNT clan_tag player s in
  r.1 = [Leave clan_tag player;
         Save (members_filename clan_tag) (elements (known s clan_tag ∖ {[player]}))] ∧
  known r.2 clan_tag = known s clan_tag ∖ {[player]} ∧
  missing r.2 clan_tag = delete player (missing s clan_tag) ∧
  files r.2 !! members_filename clan_tag
    = Some (elements (known s clan_tag ∖ {[player]})) ∧
  initialized_baseline r.2 = initialized_baseline s.
Proof.
  intros Hge Hin. unfold leave_one. fold (next_count (missing s clan_tag) player).
  rewrite bool_decide_eq_false_2 by done.
  set (s1 := update_missing s clan_tag
               (<[player := next_count (missing s clan_tag) player]>)).
  assert (known s1 clan_tag = known s clan_tag) as Hk1 by done.
  rewrite Hk1, bool_decide_eq_true_2 by done.
  set (s2 := set_known s1 clan_tag (known s clan_tag ∖ {[player]})).
  assert (known s2 clan_tag = known s clan_tag ∖ {[player]}) as Hk2
    by apply known_set_known.
  simpl. split_and!.
  - by rewrite Hk2.
  - unfold known at 1. simpl. by rewrite lookup_insert_eq.
  - unfold missing at 1. simpl. rewrite lookup_insert_eq. simpl.
    unfold missing at 1. simpl. rewrite lookup_insert_eq. simpl.
    by rewrite delete_insert_eq.
  - rewrite lookup_insert_eq. by rewrite Hk2.
  - done.
Qed.

Lemma confirmed_ext m m' cands :
  (∀ t, t ∈ cands → m' !! t = m !! t) → confirmed m' cands = confirmed m cands.
Proof.
  intros Hext. apply filter_ext_in. intros t Ht.
  unfold next_count. by rewrite (Hext t Ht).
Qed.

(** The leave loop over distinct known candidates. *)
Lemma leave_loop_spec cands : ∀ s,
  NoDup cands →
  (∀ t, t ∈ cands → t ∈ known s clan_tag) →
  let m := missing s clan_tag in
  let r := leave_loop LEAVE_DEBOUNCE_COUNT clan_tag cands s in
  filter is_leave r.1 = Leave clan_tag <$> confirmed m cands ∧
  filter is_join r.1 = [] ∧
  known r.2 clan_tag = known s clan_tag ∖ list_to_set (confirmed m cands) ∧
  (∀ t, missing r.2 clan_tag !! t
        = if decide (t ∈ cands)
          then if decide (next_count m t < LEAVE_DEBOUNCE_COUNT)
               then Some (next_count m t) else None
          else m !! t) ∧
  files r.2 !! members_filename clan_tag
    = (if decide (confirmed m cands = []) then files s !! members_filename clan_tag
       else Some (elements (known r.2 clan_tag))) ∧
  initialized_baseline r.2 = initialized_baseline s.
Proof.
  induction cands as [|p rest IH]; intros s Hnd Hknown; simpl.
  { split_and!; try done. set_solver. }
  apply NoDup_cons in Hnd as [Hp Hnd].
  destruct (decide (next_count (missing s clan_tag) p < LEAVE_DEBOUNCE_COUNT)) as [Hlt|Hge].
  - (* below the threshold *)
    destruct (leave_one_waiting s p Hlt) as (Ho & Hk & Hm & Hf & Hi).
    destruct (leave_one LEAVE_DEBOUNCE_COUNT clan_tag p s) as [out1 s1].
    simpl in Ho, Hk, Hm, Hf, Hi. subst out1.
    specialize (IH s1 Hnd).
    destruct (leave_loop LEAVE_DEBOUNCE_COUNT clan_tag rest s1) as [out2 s2].
    simpl in IH |- *.
    destruct IH as (IHl & IHj & IHk & IHm & IHf & IHi).
    { intros t Ht. rewrite Hk. apply Hknown. by right. }
    assert (confirmed (missing s1 clan_tag) rest = confirmed (missing s clan_tag) rest) as Hc.
    { apply confirmed_ext. intros t Ht. rewrite Hm.
      apply lookup_insert_ne. by intros ->. }
    assert (confirmed (missing s clan_tag) (p :: rest) = confirmed (missing s clan_tag) rest) as Hc'.
    { unfold Tracker.confirmed. by rewrite filter_cons_False by (intros H; by apply H). }
    rewrite Hc in IHl, IHk, IHf. rewrite Hc'.
    split_and!; [done|done|by rewrite IHk, Hk| |by rewrite IHf, Hf|by rewrite IHi].
    intros t. rewrite IHm, Hm. destruct (decide (t = p)) as [->|Hne].
    + rewrite decide_False by done. rewrite decide_True by left.
      rewrite decide_True by done. apply lookup_insert_eq.
    + assert (next_count (<[p:=next_count (missing s clan_tag) p]> (missing s clan_tag)) t = next_count (missing s clan_tag) t) as Hn.
      { unfold next_count. by rewrite lookup_insert_ne. }
      rewrite Hn, lookup_insert_ne by done.
      destruct (decide (t ∈ rest)) as [Hin|Hin].
      * by rewrite (decide_True (P := t ∈ p :: rest)) by (by right).
      * rewrite (decide_False (P := t ∈ p :: rest)); [done|].
        by intros [?|?]%elem_of_cons.
  - (* at the threshold *)
    destruct (leave_one_confirmed s p Hge) as (Ho & Hk & Hm & Hf & Hi).
    { apply Hknown. by left. }
    destruct (leave_one LEAVE_DEBOUNCE_COUNT clan_tag p s) as [out1 s1].
    simpl in Ho, Hk, Hm, Hf, Hi. subst out1.
    specialize (IH s1 Hnd).
    destruct (leave_loop LEAVE_DEBOUNCE_COUNT clan_tag rest s1) as [out2 s2].
    simpl in IH |- *.
    destruct IH as (IHl & IHj & IHk & IHm & IHf & IHi).
    { intros t Ht. rewrite Hk. apply elem_of_difference. split.
      - apply Hknown. by right.
      - intros ->%elem_of_singleton. done. }
    assert (confirmed (missing s1 clan_tag) rest = confirmed (missing s clan_tag) rest) as Hc.
    { apply confirmed_ext. intros t Ht. rewrite Hm.
      apply lookup_delete_ne. by intros ->. }
    assert (confirmed (missing s clan_tag) (p :: rest) = p :: confirmed (missing s clan_tag) rest) as Hc'.
    { unfold Tracker.confirmed. by rewrite filter_cons_True by done. }
    rewrite Hc in IHl, IHk, IHf. rewrite Hc'.
    assert (known s2 clan_tag
            = known s clan_tag ∖ list_to_set (p :: confirmed (missing s clan_tag) rest)) as Hk2.
    { rewrite IHk, Hk. set_solver. }
    split_and!; [| |done| | |by rewrite IHi].
    + rewrite filter_cons_True by done. rewrite filter_cons_False by (by intros ?).
      by rewrite IHl.
    + rewrite filter_cons_False by (by intros ?).
      by rewrite filter_cons_False by (by intros ?).
    + intros t. rewrite IHm, Hm. destruct (decide (t = p)) as [->|Hne].
      * rewrite decide_False by done. rewrite decide_True by left.
        rewrite decide_False by done. apply lookup_delete_eq.
      * assert (next_count (delete p (missing s clan_tag)) t = next_count (missing s clan_tag) t) as Hn.
        { unfold next_count. by rewrite lookup_delete_ne. }
        rewrite Hn, lookup_delete_ne by done.
        destruct (decide (t ∈ rest)) as [Hin|Hin].
        -- by rewrite (decide_True (P := t ∈ p :: rest)) by (by right).
        -- rewrite (decide_False (P := t ∈ p :: rest)); [done|].
           by intros [?|?]%elem_of_cons.
    + rewrite decide_False by done. rewrite IHf.
      case_decide as Hnil; [|done].
      rewrite Hf. do 2 f_equal. rewrite IHk, Hk, Hnil. set_solver.
Qed.

Lemma filter_is_leave_joins (joins : list string) :
  filter is_leave (Join clan_tag <$> joins) = [].
Proof.
  induction joins as [|p joins IH]; [done|].
  rewrite fmap_cons. by rewrite filter_cons_False by (by intros ?).
Qed.

Lemma filter_is_join_joins (joins : list string) :
  filter is_join (Join clan_tag <$> joins) = Join clan_tag <$> joins.
Proof.
  induction joins as [|p joins IH]; [done|].
  rewrite fmap_cons. rewrite filter_cons_True by done. by rewrite IH.
Qed.

Lemma elem_of_candidates K current t :
  t ∈ candidates K current ↔ t ∈ K ∧ t ∉ current.
Proof.
  unfold candidates. rewrite list_elem_of_filter, elem_of_elements.
  rewrite elem_of_union, !elem_of_list_to_set, list_elem_of_filter. tauto.
Qed.

Lemma NoDup_candidates K current : NoDup (candidates K current).
Proof. apply NoDup_filter, NoDup_elements. Qed.

(** The joins-then-leaves part of an iteration. *)
Lemma diff_spec s current :
  let K := known s clan_tag in
  let M := missing s clan_tag in
  let joins := filter (λ t, t ∉ K) current in
  let gone := confirmed M (candidates K current) in
  let r := diff LEAVE_DEBOUNCE_COUNT clan_tag current s in
  filter is_join r.1 = Join clan_tag <$> joins ∧
  filter is_leave r.1 = Leave clan_tag <$> gone ∧
  known r.2 clan_tag = (K ∪ list_to_set joins) ∖ list_to_set gone ∧
  (∀ t, missing r.2 clan_tag !! t
        = if decide (t ∈ current) then None
          else if decide (t ∈ K)
               then if decide (next_count M t < LEAVE_DEBOUNCE_COUNT)
                    then Some (next_count M t) else None
               else M !! t) ∧
  files r.2 !! members_filename clan_tag
    = (if decide (joins = [] ∧ gone = []) then files s !! members_filename clan_tag
       else Some (elements (known r.2 clan_tag))) ∧
  initialized_baseline r.2 = initialized_baseline s.
Proof.
  intros K M joins gone. unfold diff. fold K. fold joins.
  destruct (join_loop_spec joins s) as (Ho1 & Hk1 & Hm1 & Hf1 & Hi1).
  destruct (join_loop clan_tag joins s) as [out1 s1].
  simpl in Ho1, Hk1, Hm1, Hf1, Hi1. fold K in Hk1. fold M in Hm1.
  (* the save after the joins *)
  set (saved := match joins with
                | [] => ([], s1)
                | _ => save_strict_cache s1 clan_tag
                end).
  assert (known saved.2 clan_tag = known s1 clan_tag ∧
          missing saved.2 clan_tag = missing s1 clan_tag ∧
          initialized_baseline saved.2 = initialized_baseline s1 ∧
          filter is_join saved.1 = [] ∧ filter is_leave saved.1 = [] ∧
          files saved.2 !! members_filename clan_tag
          = (if decide (joins = []) then files s !! members_filename clan_tag
             else Some (elements (known s1 clan_tag)))) as Hsaved.
  { subst saved. destruct joins as [|j joins']; simpl.
    - by rewrite Hf1.
    - split_and!; try done. by rewrite lookup_insert_eq. }
  destruct saved as [out2 s2]. simpl in Hsaved.
  destruct Hsaved as (Hk2 & Hm2 & Hi2 & Hj2 & Hl2 & Hf2).
  (* the counters of the present tags are dropped *)
  set (s3 := update_missing s2 clan_tag (λ m, foldr delete m current)).
  assert (known s3 clan_tag = K ∪ list_to_set joins) as Hk3
    by (by rewrite <- Hk1, <- Hk2).
  assert (∀ t, missing s3 clan_tag !! t
               = if decide (t ∈ current) then None else M !! t) as Hm3.
  { intros t. subst s3. rewrite missing_update_missing, Hm2.
    destruct (decide (t ∈ current)) as [Hin|Hin].
    - by apply lookup_foldr_delete.
    - rewrite lookup_foldr_delete_not_elem_of by done. rewrite Hm1.
      rewrite decide_False; [done|].
      intros [_ ?]%list_elem_of_filter. done. }
  rewrite Hk3.
  change (filter (λ t, t ∉ (list_to_set current : gset string))
                 (elements (K ∪ list_to_set joins)))
    with (candidates K current).
  (* the leave loop *)
  destruct (leave_loop_spec (candidates K current) s3)
    as (Hl4 & Hj4 & Hk4 & Hm4 & Hf4 & Hi4).
  { apply NoDup_candidates. }
  { intros t [Ht _]%elem_of_candidates. rewrite Hk3. set_solver. }
  destruct (leave_loop LEAVE_DEBOUNCE_COUNT clan_tag (candidates K current) s3)
    as [out3 s4].
  simpl in Hl4, Hj4, Hk4, Hm4, Hf4, Hi4 |- *.
  assert (confirmed (missing s3 clan_tag) (candidates K current) = gone) as Hgone.
  { apply confirmed_ext. intros t [_ Ht]%elem_of_candidates.
    rewrite Hm3. by rewrite decide_False. }
  rewrite Hgone in Hl4, Hk4, Hf4.
  split_and!.
  - rewrite !filter_app, Ho1, Hj2, Hj4, filter_is_join_joins.
    by rewrite !app_nil_r.
  - by rewrite !filter_app, Ho1, Hl2, Hl4, filter_is_leave_joins.
  - by rewrite Hk4, Hk3.
  - intros t. rewrite Hm4.
    destruct (decide (t ∈ candidates K current)) as [Hc|Hc].
    + apply elem_of_candidates in Hc as [HtK Htc].
      rewrite (decide_False (P := t ∈ current)) by done.
      rewrite (decide_True (P := t ∈ K)) by done.
      assert (next_count (missing s3 clan_tag) t = next_count M t) as ->; [|done].
      unfold next_count. rewrite Hm3. by rewrite decide_False.
    + rewrite Hm3. destruct (decide (t ∈ current)) as [Htc|Htc]; [done|].
      rewrite decide_False; [done|]. intros HtK. apply Hc.
      by apply elem_of_candidates.
  - rewrite Hf4. subst s3. simpl. fold (known s2 clan_tag). rewrite Hf2.
    destruct (decide (gone = [])) as [Hg|Hg].
    + destruct (decide (joins = [])) as [Hj|Hj].
      * by rewrite decide_True.
      * rewrite decide_False by tauto. do 2 f_equal.
        rewrite Hk4, Hk3, Hk1, Hg. set_solver.
    + by rewrite decide_False by tauto.
  - by rewrite Hi4, <- Hi1, <- Hi2.
Qed.

Lemma elem_of_first_occurrences (l : list string) t :
  t ∈ first_occurrences l ↔ t ∈ l.
Proof.
  induction l as [|x l IH]; [done|]. simpl.
  rewrite !elem_of_cons, list_elem_of_filter, IH.
  destruct (decide (t = x)); naive_solver.
Qed.

(** The current tags are the non-empty tags of the roster. *)
Lemma elem_of_current_tags ml t :
  t ∈ current_tags ml ↔ ∃ x : member, x ∈ ml ∧ tag x = Some t ∧ t ≠ ""%string.
Proof.
  unfold current_tags. rewrite elem_of_first_occurrences, list_elem_of_omap.
  split.
  - intros (x & Hx & Ht). exists x. split; [done|].
    unfold tagged in Ht. destruct (tag x) as [t'|]; [|done].
    destruct (Upstream.truthy t') eqn:Htr; [|done]. simplify_eq.
    split; [done|]. intros ->. done.
  - intros (x & Hx & Ht & Hne). exists x. split; [done|].
    unfold tagged. rewrite Ht.
    destruct (Upstream.truthy t) eqn:Htr; [done|].
    unfold Upstream.truthy in Htr. apply negb_false_iff, String.eqb_eq in Htr.
    done.
Qed.

Lemma known_start s :
  known (start clan_tag s) clan_tag = load_strict_cache (files s) clan_tag.
Proof. apply known_set_known. Qed.

Lemma counters_known_start s :
  missing_counts s !! clan_tag = None → counters_known (start clan_tag s).
Proof.
  intros Hm t [n Hn]. unfold missing, start in Hn. simpl in Hn.
  rewrite Hm in Hn. done.
Qed.

(** The baseline branch. *)
Lemma baseline_spec current s :
  let adopted : gset string := list_to_set current in
  let saved := Save (members_filename clan_tag) (elements adopted) in
  let r := baseline clan_tag current s in
  r.1 = (if decide (clan_tag ∈ initialized_baseline s) then [saved]
         else [saved; LogBaseline clan_tag]) ∧
  known r.2 clan_tag = adopted ∧
  files r.2 !! members_filename clan_tag = Some (elements adopted) ∧
  missing_counts r.2 = missing_counts s ∧
  initialized_baseline r.2 = initialized_baseline s ∪ {[clan_tag]}.
Proof.
  intros adopted saved. unfold baseline.
  set (s1 := match current with
             | [] => set_known s clan_tag ∅
             | _ => set_known s clan_tag (list_to_set current)
             end).
  assert (s1 = set_known s clan_tag adopted) as -> by (by destruct current).
  unfold save_strict_cache. rewrite known_set_known. simpl.
  destruct (decide (clan_tag ∈ initialized_baseline s)) as [Hin|Hin].
  - rewrite bool_decide_eq_true_2 by done. simpl.
    split_and!; try done.
    + unfold known. simpl. by rewrite lookup_insert_eq.
    + by rewrite lookup_insert_eq.
    + set_solver.
  - rewrite bool_decide_eq_false_2 by done. simpl.
    split_and!; try done.
    + unfold known. simpl. by rewrite lookup_insert_eq.
    + by rewrite lookup_insert_eq.
Qed.

(** Only the baseline branch writes the baseline log line. *)
Lemma leave_loop_no_log cands : ∀ s,
  filter is_baseline_log (leave_loop LEAVE_DEBOUNCE_COUNT clan_tag cands s).1 = [].
Proof.
  induction cands as [|p rest IH]; intros s; [done|]. simpl.
  assert (filter is_baseline_log (leave_one LEAVE_DEBOUNCE_COUNT clan_tag p s).1 = [])
    as H1.
  { unfold leave_one. repeat case_bool_decide; done. }
  destruct (leave_one LEAVE_DEBOUNCE_COUNT clan_tag p s) as [out1 s1].
  specialize (IH s1).
  destruct (leave_loop LEAVE_DEBOUNCE_COUNT clan_tag rest s1) as [out2 s2].
  simpl in *. by rewrite filter_app, H1, IH.
Qed.

Lemma diff_no_log current s :
  filter is_baseline_log (diff LEAVE_DEBOUNCE_COUNT clan_tag current s).1 = [].
Proof.
  unfold diff.
  destruct (join_loop_spec (filter (λ t, t ∉ known s clan_tag) current) s)
    as (Ho1 & _).
  destruct (join_loop clan_tag _ s) as [out1 s1]. simpl in Ho1.
  set (saved := match filter (λ t, t ∉ known s clan_tag) current with
                | [] => ([], s1)
                | _ => save_strict_cache s1 clan_tag
                end).
  assert (filter is_baseline_log saved.1 = []) as H2.
  { subst saved. by destruct (filter _ current). }
  destruct saved as [out2 s2].
  match goal with
  | |- context [leave_loop ?n ?c ?l ?s3] =>
      pose proof (leave_loop_no_log l s3) as H3;
      destruct (leave_loop n c l s3) as [out3 s4]
  end.
  simpl in *. rewrite !filter_app, H2, H3, Ho1.
  clear. induction (filter _ current) as [|p l IH]; [done|].
  rewrite fmap_cons. by rewrite filter_cons_False by (by intros ?).
Qed.

(** An iteration that is not discarded runs the baseline branch when
    nothing is known and the diff otherwise. *)
Lemma tick_processed SKIP ml s :
  ml ≠ [] ∨ SKIP = false →
  tick LEAVE_DEBOUNCE_COUNT SKIP clan_tag (Some ml) s
  = if decide (known s clan_tag = ∅) then baseline clan_tag (current_tags ml) s
    else diff LEAVE_DEBOUNCE_COUNT clan_tag (current_tags ml) s.
Proof.
  intros Hproc. unfold tick.
  assert (match ml with [] => SKIP | _ => false end = false) as ->.
  { destruct ml; [|done]. by destruct Hproc. }
  by destruct (decide (known s clan_tag = ∅));
    [rewrite bool_decide_eq_true_2|rewrite bool_decide_eq_false_2].
Qed.

(** The baseline log line is written at most once over any run of
    iterations, and never once the clan is in [initialized_baseline]. *)
Lemma tick_log SKIP poll s :
  let r := tick LEAVE_DEBOUNCE_COUNT SKIP clan_tag poll s in
  (clan_tag ∈ initialized_baseline s →
     filter is_baseline_log r.1 = [] ∧ clan_tag ∈ initialized_baseline r.2) ∧
  (clan_tag ∉ initialized_baseline s →
     filter is_baseline_log r.1 = [] ∨
     (filter is_baseline_log r.1 = [LogBaseline clan_tag] ∧
      clan_tag ∈ initialized_baseline r.2)).
Proof.
  destruct poll as [ml|]; [|by split; [|left]].
  destruct (decide (ml ≠ [] ∨ SKIP = false)) as [Hproc|Hskip].
  - cbv zeta. rewrite (tick_processed _ _ _ Hproc).
    destruct (decide (known s clan_tag = ∅)) as [Hempty|Hne].
    + destruct (baseline_spec (current_tags ml) s) as (Ho & _ & _ & _ & Hi).
      destruct (baseline clan_tag (current_tags ml) s) as [out s'].
      simpl in *. subst out. rewrite Hi. split.
      * intros Hin. rewrite decide_True by done. split; [done|set_solver].
      * intros Hin. rewrite decide_False by done. right.
        split; [done|set_solver].
    + pose proof (diff_no_log (current_tags ml) s) as Hlog.
      destruct (diff_spec s (current_tags ml)) as (_ & _ & _ & _ & _ & Hi).
      destruct (diff LEAVE_DEBOUNCE_COUNT clan_tag (current_tags ml) s) as [out s'].
      simpl in *. rewrite Hi. split; [done|by left].
  - assert (ml = [] ∧ SKIP = true) as [-> ->].
    { destruct ml; [|by destruct Hskip; left]. destruct SKIP; [done|].
      by destruct Hskip; right. }
    simpl. by split; [|left].
Qed.

Lemma ticks_log SKIP polls : ∀ s,
  let r := ticks LEAVE_DEBOUNCE_COUNT SKIP clan_tag polls s in
  (clan_tag ∈ initialized_baseline s → filter is_baseline_log r.1 = []) ∧
  (length (filter is_baseline_log r.1) ≤ 1)%nat.
Proof.
  induction polls as [|poll polls IH]; intros s; simpl; [split; [done|lia]|].
  destruct (tick_log SKIP poll s) as [Hin Hout].
  destruct (tick LEAVE_DEBOUNCE_COUNT SKIP clan_tag poll s) as [out1 s1].
  destruct (IH s1) as [IHin IHlen].
  destruct (ticks LEAVE_DEBOUNCE_COUNT SKIP clan_tag polls s1) as [out2 s2].
  simpl in *. rewrite filter_app, length_app. split.
  - intros Hs. destruct (Hin Hs) as [-> Hs1]. by rewrite (IHin Hs1).
  - destruct (decide (clan_tag ∈ initialized_baseline s)) as [Hs|Hs].
    + destruct (Hin Hs) as [-> Hs1]. simpl. lia.
    + destruct (Hout Hs) as [->|[-> Hs1]]; [simpl; lia|].
      rewrite (IHin Hs1). simpl. lia.
Qed.

(** What an iteration that is not discarded does to the known set, the
    miss counters and the member file, and which leaves it announces. *)
Lemma tick_spec SKIP ml s :
  ml ≠ [] ∨ SKIP = false →
  counters_known s →
  let cur := current_tags ml in
  let K := known s clan_tag in
  let M := missing s clan_tag in
  let r := tick LEAVE_DEBOUNCE_COUNT SKIP clan_tag (Some ml) s in
  ∃ gone,
    filter is_leave r.1 = Leave clan_tag <$> gone ∧
    NoDup gone ∧
    (∀ t, t ∈ gone ↔
          t ∈ K ∧ (t ∉ cur) ∧ ¬ (next_count M t < LEAVE_DEBOUNCE_COUNT)) ∧
    (∀ t, t ∈ known r.2 clan_tag ↔ (t ∈ K ∨ t ∈ cur) ∧ t ∉ gone) ∧
    (∀ t, missing r.2 clan_tag !! t
          = if decide (t ∈ K ∧ (t ∉ cur) ∧ next_count M t < LEAVE_DEBOUNCE_COUNT)
            then Some (next_count M t) else None) ∧
    (gone ≠ [] →
     files r.2 !! members_filename clan_tag = Some (elements (known r.2 clan_tag))) ∧
    counters_known r.2.
Proof.
  intros Hproc Hwf cur K M. cbv zeta. rewrite (tick_processed _ _ _ Hproc).
  fold cur K.
  destruct (decide (K = ∅)) as [Hempty|Hne].
  - (* baseline: no leave, and no counter by the invariant *)
    destruct (baseline_spec cur s) as (Ho & Hk & Hf & Hm & Hi).
    destruct (baseline clan_tag cur s) as [out s']. simpl in *.
    assert (M = ∅) as HM.
    { apply map_empty. intros t. apply eq_None_not_Some. intros Ht.
      apply Hwf in Ht. fold K in Ht. rewrite Hempty in Ht. set_solver. }
    assert (missing s' clan_tag = ∅) as HM'.
    { unfold missing. rewrite Hm. exact HM. }
    exists []. split_and!.
    + subst out. by case_decide.
    + constructor.
    + intros t. rewrite Hempty. set_solver.
    + intros t. rewrite Hk, Hempty, elem_of_list_to_set. set_solver.
    + intros t. rewrite HM', lookup_empty. rewrite decide_False; [done|].
      rewrite Hempty. set_solver.
    + done.
    + intros t [n Hn]. rewrite HM' in Hn. done.
  - destruct (diff_spec s cur)
      as (_ & Hl & Hk & Hm & Hf & _).
    destruct (diff LEAVE_DEBOUNCE_COUNT clan_tag cur s) as [out s'].
    simpl in *. fold K M in Hl, Hk, Hm, Hf.
    set (gone := confirmed M (candidates K cur)) in *.
    assert (∀ t, t ∈ gone ↔
                 t ∈ K ∧ (t ∉ cur) ∧ ¬ (next_count M t < LEAVE_DEBOUNCE_COUNT))
      as Hgone.
    { intros t. subst gone. unfold Tracker.confirmed.
      rewrite list_elem_of_filter, elem_of_candidates. tauto. }
    assert (∀ t, t ∈ known s' clan_tag ↔ (t ∈ K ∨ t ∈ cur) ∧ t ∉ gone) as Hk'.
    { intros t. rewrite Hk, elem_of_difference, elem_of_union.
      rewrite !elem_of_list_to_set, list_elem_of_filter.
      destruct (decide (t ∈ K)); tauto. }
    assert (∀ t, missing s' clan_tag !! t
                 = if decide (t ∈ K ∧ (t ∉ cur) ∧
                              next_count M t < LEAVE_DEBOUNCE_COUNT)
                   then Some (next_count M t) else None) as Hm'.
    { intros t. rewrite Hm.
      destruct (decide (t ∈ cur)) as [Hc|Hc].
      { rewrite decide_False; [done|tauto]. }
      destruct (decide (t ∈ K)) as [HK|HK].
      { destruct (decide (next_count M t < LEAVE_DEBOUNCE_COUNT)) as [Hn|Hn].
        - rewrite decide_True; [done|tauto].
        - rewrite decide_False; [done|tauto]. }
      rewrite decide_False by tauto.
      destruct (M !! t) as [n|] eqn:Hn; [|done].
      exfalso. apply HK. apply Hwf. by exists n. }
    exists gone. split_and!; [done| |done|done|done| |].
    + subst gone. unfold Tracker.confirmed. apply NoDup_filter, NoDup_candidates.
    + intros Hg. rewrite Hf. rewrite decide_False; [done|tauto].
    + intros t [n Hn]. rewrite Hm' in Hn. case_decide as Hc; [|done].
      apply Hk'. split; [tauto|]. rewrite Hgone. tauto.
Qed.
(** The invariant is kept by every iteration, hence by every run. *)
Lemma counters_known_tick SKIP poll s :
  counters_known s →
  counters_known (tick LEAVE_DEBOUNCE_COUNT SKIP clan_tag poll s).2.
Proof.
  intros Hwf. destruct poll as [ml|]; [|done].
  destruct (decide (ml ≠ [] ∨ SKIP = false)) as [Hproc|Hskip].
  - by destruct (tick_spec SKIP ml s Hproc Hwf) as (_ & _ & _ & _ & _ & _ & _ & ?).
  - assert (ml = [] ∧ SKIP = true) as [-> ->]; [|done].
    destruct ml; [|by destruct Hskip; left]. destruct SKIP; [done|].
    by destruct Hskip; right.
Qed.

Lemma counters_known_ticks SKIP polls : ∀ s,
  counters_known s →
  counters_known (ticks LEAVE_DEBOUNCE_COUNT SKIP clan_tag polls s).2.
Proof.
  induction polls as [|poll polls IH]; intros s Hwf; [done|]. simpl.
  pose proof (counters_known_tick SKIP poll s Hwf) as H1.
  destruct (tick LEAVE_DEBOUNCE_COUNT SKIP clan_tag poll s) as [out1 s1].
  specialize (IH s1 H1).
  by destruct (ticks LEAVE_DEBOUNCE_COUNT SKIP clan_tag polls s1) as [out2 s2].
Qed.
End TrackerFacts.

(** C7: with empty-result skipping enabled, an iteration whose poll
    returned an empty roster only writes the "skipping this poll" log
    line: it announces no join and no leave, writes no file, and leaves
    the known sets, the miss counters, the baseline flags and the files
    exactly as they were; so does any number of such iterations. *)
Theorem empty_poll_is_discarded (LEAVE_DEBOUNCE_COUNT : Z) (clan_tag : string)
    (s : Tracker.state) :
  Tracker.tick LEAVE_DEBOUNCE_COUNT true clan_tag (Some []) s
  = ([Tracker.LogEmpty clan_tag], s) ∧
  (∀ n, Tracker.ticks LEAVE_DEBOUNCE_COUNT true clan_tag (replicate n (Some [])) s
        = (replicate n (Tracker.LogEmpty clan_tag), s)).
Proof.
  split; [done|]. intros n. induction n as [|n IH]; [done|].
  simpl in *. by rewrite IH.
Qed.

(** C3: when the known set of a clan is empty and the poll has at least
    one tag, the iteration announces no join (and no leave), makes the
    tags of the poll the known set, and its first effect is to write
    that set to the member file.  In particular this is what the first
    such poll does after [track_clan] has loaded an empty or missing
    member file. *)
Theorem bootstrap_adopts_snapshot_silently (LEAVE_DEBOUNCE_COUNT : Z)
    (SKIP_EMPTY_MEMBER_LIST : bool) (clan_tag : string)
    (ml : list Tracker.member) (s : Tracker.state) :
  Tracker.current_tags ml ≠ [] →
  let adopted : gset string := list_to_set (Tracker.current_tags ml) in
  let path := Tracker.members_filename clan_tag in
  let silent_adoption (r : list Tracker.effect * Tracker.state) : Prop :=
    filter Tracker.is_join r.1 = [] ∧
    filter Tracker.is_leave r.1 = [] ∧
    head r.1 = Some (Tracker.Save path (elements adopted)) ∧
    Tracker.known r.2 clan_tag = adopted ∧
    (∀ t, t ∈ Tracker.known r.2 clan_tag ↔
          ∃ x, x ∈ ml ∧ Tracker.tag x = Some t ∧ t ≠ ""%string) ∧
    Tracker.files r.2 !! path = Some (elements adopted) in
  (Tracker.known s clan_tag = ∅ →
   silent_adoption
     (Tracker.tick LEAVE_DEBOUNCE_COUNT SKIP_EMPTY_MEMBER_LIST clan_tag (Some ml) s)) ∧
  (Tracker.load_strict_cache (Tracker.files s) clan_tag = ∅ →
   silent_adoption
     (Tracker.tick LEAVE_DEBOUNCE_COUNT SKIP_EMPTY_MEMBER_LIST clan_tag (Some ml)
                   (Tracker.start clan_tag s))).
Proof.
  intros Hcur adopted path silent_adoption.
  assert (∀ s0, Tracker.known s0 clan_tag = ∅ →
                silent_adoption
                  (Tracker.tick LEAVE_DEBOUNCE_COUNT SKIP_EMPTY_MEMBER_LIST
                                clan_tag (Some ml) s0)) as Hgen.
  { intros s0 Hempty. subst silent_adoption. cbv beta.
    rewrite tick_processed by (left; by intros ->).
    rewrite decide_True by done.
    destruct (baseline_spec clan_tag (Tracker.current_tags ml) s0)
      as (Ho & Hk & Hf & _ & _).
    destruct (Tracker.baseline clan_tag (Tracker.current_tags ml) s0) as [out s'].
    simpl in *. split_and!.
    - subst out. by case_decide.
    - subst out. by case_decide.
    - subst out. by case_decide.
    - done.
    - intros t. rewrite Hk. subst adopted. rewrite elem_of_list_to_set.
      apply elem_of_current_tags.
    - done. }
  split; [apply Hgen|].
  intros Hload. apply Hgen. by rewrite known_start.
Qed.

Lemma bootstrap_adopts_snapshot_silently_witness :
  let ml := [Tracker.Member (Some "#A"%string) (Some "a"%string);
             Tracker.Member (Some "#B"%string) None;
             Tracker.Member (Some "#C"%string) (Some "c"%string)] in
  let r := Tracker.tick 2 true "#CLAN" (Some ml)
             (Tracker.start "#CLAN" (Tracker.State ∅ ∅ ∅ ∅)) in
  filter Tracker.is_join r.1 = [] ∧
  Tracker.known r.2 "#CLAN" = {[ "#A"; "#B"; "#C" ]}%string ∧
  Tracker.files r.2 !! "members_CLAN.json"%string
  = Some (elements ({[ "#A"; "#B"; "#C" ]}%string : gset string)).
Proof.
  intros ml r.
  destruct (bootstrap_adopts_snapshot_silently 2 true "#CLAN" ml
              (Tracker.State ∅ ∅ ∅ ∅) ltac:(discriminate)) as [_ Hstart].
  destruct (Hstart ltac:(by vm_compute)) as (Hj & _ & _ & Hk & _ & Hf).
  subst r. split_and!.
  - exact Hj.
  - etrans; [exact Hk|]. by vm_compute.
  - etrans; [exact Hf|]. by vm_compute.
Defined.

(** C9, as stated, fails.  With empty-result skipping disabled and a
    threshold of 2: the first poll initialises the baseline of the clan
    with [#A]; two empty polls confirm the leave of [#A] and empty the
    known set; the next poll, with [#B], is adopted without a join
    although the clan is in [initialized_baseline]. *)
Lemma silent_bootstrap_repeats :
  let roster (t : string) := Some [Tracker.Member (Some t) None] in
  let s0 := Tracker.start "#CLAN" (Tracker.State ∅ ∅ ∅ ∅) in
  let before := Tracker.ticks 2 false "#CLAN" [roster "#A"%string; Some []; Some []] s0 in
  let after := Tracker.tick 2 false "#CLAN" (roster "#B"%string) before.2 in
  filter Tracker.is_leave before.1 = [Tracker.Leave "#CLAN" "#A"] ∧
  "#CLAN"%string ∈ Tracker.initialized_baseline before.2 ∧
  Tracker.known before.2 "#CLAN" = ∅ ∧
  filter Tracker.is_join after.1 = [] ∧
  Tracker.known after.2 "#CLAN" = {[ "#B"%string ]}.
Proof. vm_compute. split_and!; done. Qed.

(** C9, amended: [initialized_baseline] gates the baseline log line
    only.  Over any run of iterations that line is written at most once
    for a clan, and never once the clan is in the set.  The silent
    adoption itself happens whenever the known set of the clan is empty,
    whether or not the clan is in [initialized_baseline]: a poll with at
    least one tag is then adopted as the known set with no join
    announced. *)
Theorem baseline_logged_once_adoption_repeats (LEAVE_DEBOUNCE_COUNT : Z)
    (SKIP_EMPTY_MEMBER_LIST : bool) (clan_tag : string)
    (ml : list Tracker.member) (s : Tracker.state) :
  Tracker.known s clan_tag = ∅ →
  Tracker.current_tags ml ≠ [] →
  let r := Tracker.tick LEAVE_DEBOUNCE_COUNT SKIP_EMPTY_MEMBER_LIST clan_tag
                        (Some ml) s in
  filter Tracker.is_join r.1 = [] ∧
  Tracker.known r.2 clan_tag = list_to_set (Tracker.current_tags ml) ∧
  filter Tracker.is_baseline_log r.1
    = (if decide (clan_tag ∈ Tracker.initialized_baseline s) then []
       else [Tracker.LogBaseline clan_tag]) ∧
  clan_tag ∈ Tracker.initialized_baseline r.2 ∧
  (∀ polls s0,
     let run := Tracker.ticks LEAVE_DEBOUNCE_COUNT SKIP_EMPTY_MEMBER_LIST clan_tag
                              polls s0 in
     (length (filter Tracker.is_baseline_log run.1) ≤ 1)%nat ∧
     (clan_tag ∈ Tracker.initialized_baseline s0 →
      filter Tracker.is_baseline_log run.1 = [])).
Proof.
  intros Hempty Hcur. cbv zeta.
  rewrite tick_processed by (left; by intros ->).
  rewrite decide_True by done.
  destruct (baseline_spec clan_tag (Tracker.current_tags ml) s)
    as (Ho & Hk & _ & _ & Hi).
  destruct (Tracker.baseline clan_tag (Tracker.current_tags ml) s) as [out s'].
  simpl in *. split_and!.
  - subst out. by case_decide.
  - done.
  - subst out. by case_decide.
  - rewrite Hi. set_solver.
  - intros polls s0.
    destruct (ticks_log LEAVE_DEBOUNCE_COUNT clan_tag SKIP_EMPTY_MEMBER_LIST polls s0)
      as [Hin Hlen].
    by split.
Qed.

Lemma baseline_logged_once_adoption_repeats_witness :
  let s := Tracker.State {[ "#CLAN"%string := ∅ ]} {[ "#CLAN"%string ]} ∅
                         {[ "members_CLAN.json"%string := [] ]} in
  let r := Tracker.tick 2 false "#CLAN"
             (Some [Tracker.Member (Some "#B"%string) None]) s in
  filter Tracker.is_join r.1 = [] ∧
  Tracker.known r.2 "#CLAN" = {[ "#B"%string ]} ∧
  filter Tracker.is_baseline_log r.1 = [].
Proof.
  intros s r.
  destruct (baseline_logged_once_adoption_repeats 2 false "#CLAN"
              [Tracker.Member (Some "#B"%string) None] s
              ltac:(by vm_compute) ltac:(discriminate))
    as (Hj & Hk & Hl & _ & _).
  subst r. split_and!.
  - exact Hj.
  - etrans; [exact Hk|]. by vm_compute.
  - etrans; [exact Hl|]. by vm_compute.
Defined.

(** C2: in an iteration that is not discarded by the empty-poll guard,
    the leaves announced are exactly the known tags that are absent
    from the poll and whose miss counter, incremented by this miss,
    reaches the threshold, each announced once; such a tag is removed
    from the known set, its counter is dropped, and the member file then
    holds the known set.  A known absent tag that stays below the
    threshold stays known with its counter incremented by one.  The
    counter of every tag present in the poll is dropped.  With threshold
    2 and the member file [#A, #B]: the polls [#A] and then [#A, #B]
    announce no leave, the counter of [#B] being 1 after the first poll
    and absent after the second; the polls [#A] and [#A] announce the one
    leave of [#B] in the second iteration, after which the known set and
    the file are [#A]. *)
Theorem leave_debounce (LEAVE_DEBOUNCE_COUNT : Z) (SKIP_EMPTY_MEMBER_LIST : bool)
    (clan_tag : string) (ml : list Tracker.member) (s : Tracker.state) :
  ml ≠ [] ∨ SKIP_EMPTY_MEMBER_LIST = false →
  Tracker.counters_known clan_tag s →
  let cur := Tracker.current_tags ml in
  let count t := Tracker.next_count (Tracker.missing s clan_tag) t in
  let r := Tracker.tick LEAVE_DEBOUNCE_COUNT SKIP_EMPTY_MEMBER_LIST clan_tag
                        (Some ml) s in
  (∃ gone,
     filter Tracker.is_leave r.1 = Tracker.Leave clan_tag <$> gone ∧
     NoDup gone ∧
     (∀ t, t ∈ gone ↔
           t ∈ Tracker.known s clan_tag ∧ (t ∉ cur) ∧ LEAVE_DEBOUNCE_COUNT ≤ count t) ∧
     (∀ t, t ∈ gone →
           (t ∉ Tracker.known r.2 clan_tag) ∧
           Tracker.missing r.2 clan_tag !! t = None ∧
           Tracker.files r.2 !! Tracker.members_filename clan_tag
           = Some (elements (Tracker.known r.2 clan_tag))) ∧
     (∀ t, t ∈ Tracker.known s clan_tag → t ∉ cur → count t < LEAVE_DEBOUNCE_COUNT →
           t ∈ Tracker.known r.2 clan_tag ∧
           Tracker.missing r.2 clan_tag !! t = Some (count t)) ∧
     (∀ t, t ∈ cur → Tracker.missing r.2 clan_tag !! t = None) ∧
     Tracker.counters_known clan_tag r.2) ∧
  (let roster (ts : list string) := Some ((λ t, Tracker.Member (Some t) None) <$> ts) in
   let s0 := Tracker.start "#CLAN"
               (Tracker.State ∅ ∅ ∅ {[ "members_CLAN.json" := ["#A"; "#B"] ]}%string) in
   let poll1 := Tracker.tick 2 true "#CLAN" (roster ["#A"]%string) s0 in
   let back := Tracker.tick 2 true "#CLAN" (roster ["#A"; "#B"]%string) poll1.2 in
   let still_away := Tracker.tick 2 true "#CLAN" (roster ["#A"]%string) poll1.2 in
   (poll1.1 = [] ∧ Tracker.missing poll1.2 "#CLAN" !! "#B"%string = Some 1) ∧
   (back.1 = [] ∧ Tracker.missing back.2 "#CLAN" !! "#B"%string = None ∧
    Tracker.known back.2 "#CLAN" = {[ "#A"; "#B" ]}%string) ∧
   (still_away.1 = [Tracker.Leave "#CLAN" "#B";
                    Tracker.Save "members_CLAN.json" ["#A"%string]] ∧
    Tracker.known still_away.2 "#CLAN" = {[ "#A"%string ]} ∧
    Tracker.missing still_away.2 "#CLAN" !! "#B"%string = None ∧
    Tracker.files still_away.2 !! "members_CLAN.json"%string = Some ["#A"%string])).
Proof.
  intros Hproc Hwf cur count. cbv zeta. split.
  - destruct (tick_spec LEAVE_DEBOUNCE_COUNT clan_tag SKIP_EMPTY_MEMBER_LIST ml s
                Hproc Hwf)
      as (gone & Hl & Hnd & Hgone & Hk & Hm & Hf & Hwf').
    fold cur in Hgone, Hk, Hm.
    exists gone. split_and!; [done|done| | | | |done].
    + intros t. rewrite Hgone. subst count. simpl. split.
      * intros (? & ? & ?). split_and!; [done|done|lia].
      * intros (? & ? & ?). split_and!; [done|done|lia].
    + intros t Ht. split_and!.
      * rewrite Hk. tauto.
      * rewrite Hm. rewrite decide_False; [done|].
        apply Hgone in Ht. tauto.
      * apply Hf. by intros ->; apply elem_of_nil in Ht.
    + intros t HtK Htc Hlt. split.
      * apply Hk. split; [by left|]. rewrite Hgone. tauto.
      * rewrite Hm. by rewrite decide_True.
    + intros t Ht. rewrite Hm. rewrite decide_False; [done|tauto].
  - vm_compute. split_and!; done.
Qed.

Lemma leave_debounce_witness :
  let s := Tracker.State {[ "#CLAN"%string := {[ "#A"; "#B" ]}%string ]} ∅
                         {[ "#CLAN"%string := {[ "#B"%string := 1 ]} ]}
                         {[ "members_CLAN.json"%string := ["#A"; "#B"]%string ]} in
  let r := Tracker.tick 2 true "#CLAN"
             (Some [Tracker.Member (Some "#A"%string) (Some "a"%string)]) s in
  ∃ gone,
    filter Tracker.is_leave r.1 = Tracker.Leave "#CLAN" <$> gone ∧
    "#B"%string ∈ gone ∧
    ("#B"%string ∉ Tracker.known r.2 "#CLAN") ∧
    Tracker.missing r.2 "#CLAN" !! "#A"%string = None.
Proof.
  intros s r.
  destruct (leave_debounce 2 true "#CLAN"
              [Tracker.Member (Some "#A"%string) (Some "a"%string)] s) as [Hgen _].
  - left. discriminate.
  - intros t [n Hn]. subst s. unfold Tracker.missing in Hn. simpl in Hn.
    rewrite lookup_singleton_eq in Hn. simpl in Hn.
    apply lookup_singleton_Some in Hn as [<- _]. by vm_compute.
  - destruct Hgen as (gone & Hl & _ & Hgone & Hout & _ & Hcur & _).
    assert ("#B"%string ∈ gone) as HB.
    { apply Hgone. split_and!; [by vm_compute|compute_done|by vm_compute]. }
    exists gone. split_and!.
    + exact Hl.
    + exact HB.
    + by destruct (Hout _ HB) as (? & _ & _).
    + apply Hcur. compute_done.
Defined.

(** ** The donation delta *)

Section DonationFacts.
Import Donations.

Lemma string_leb_refl (a : string) : String.leb a a = true.
Proof. by destruct (String.leb_total a a). Qed.

Lemma string_ltb_leb (a b : string) :
  String.ltb a b = true ↔ String.leb a b = true ∧ a ≠ b.
Proof.
  unfold String.ltb, String.leb.
  destruct (String.compare a b) eqn:Hc.
  - apply String.compare_eq_iff in Hc. naive_solver.
  - split; [|done]. intros _. split; [done|]. intros ->.
    assert (String.compare b b = Eq) as Hb
      by (by apply OrderedTypeEx.String_as_OT.cmp_eq).
    congruence.
  - naive_solver.
Qed.

Lemma string_leb_ltb (a b : string) :
  String.leb a b = true ↔ String.ltb a b = true ∨ a = b.
Proof.
  rewrite string_ltb_leb. split.
  - intros H. destruct (decide (a = b)); [by right|by left].
  - intros [[? _]| ->]; [done|apply string_leb_refl].
Qed.

Lemma string_ltb_trans (a b c : string) :
  String.ltb a b = true → String.ltb b c = true → String.ltb a c = true.
Proof.
  unfold String.ltb. intros Hab Hbc.
  destruct (String.compare a b) eqn:H1; try done.
  destruct (String.compare b c) eqn:H2; try done.
  apply OrderedTypeEx.String_as_OT.cmp_lt in H1, H2.
  pose proof (OrderedTypeEx.String_as_OT.lt_trans _ _ _ H1 H2) as H3.
  apply OrderedTypeEx.String_as_OT.cmp_lt in H3.
  unfold OrderedTypeEx.String_as_OT.cmp in H3. by rewrite H3.
Qed.

Lemma string_leb_trans (a b c : string) :
  String.leb a b = true → String.leb b c = true → String.leb a c = true.
Proof.
  rewrite !string_leb_ltb. intros [Hab| ->] [Hbc| ->]; eauto.
  left. by eapply string_ltb_trans.
Qed.

Lemma string_leb_false (a b : string) :
  String.leb a b = false → String.ltb b a = true.
Proof.
  intros Hab. apply string_ltb_leb. split.
  - destruct (String.leb_total a b); congruence.
  - intros ->. by rewrite string_leb_refl in Hab.
Qed.

#[local] Instance date_le_trans : Transitive date_le.
Proof. intros a b c. apply string_leb_trans. Qed.

(** The sort: a permutation of its argument, in ascending order of
    date. *)
Lemma insert_by_date_perm x l : insert_by_date x l ≡ₚ x :: l.
Proof.
  induction l as [|y l IH]; [done|]. simpl.
  destruct (String.leb (date x) (date y)); [done|].
  rewrite IH. apply Permutation_swap.
Qed.

Lemma sorted_perm l : sorted l ≡ₚ l.
Proof.
  induction l as [|x l IH]; [done|]. simpl.
  by rewrite insert_by_date_perm, IH.
Qed.

Lemma insert_by_date_sorted x l :
  StronglySorted date_le l → StronglySorted date_le (insert_by_date x l).
Proof.
  induction l as [|y l IH]; intros Hl; simpl.
  { repeat constructor. }
  apply StronglySorted_cons in Hl as [Hy Hl].
  destruct (String.leb (date x) (date y)) eqn:Hxy.
  - apply StronglySorted_cons. split; [|by apply StronglySorted_cons].
    constructor; [done|].
    eapply Forall_impl; [exact Hy|]. intros z Hz. by trans y.
  - apply StronglySorted_cons. split; [|by apply IH].
    rewrite insert_by_date_perm. constructor; [|done].
    apply string_leb_false in Hxy. by apply string_ltb_leb in Hxy as [? _].
Qed.

Lemma sorted_sorted l : StronglySorted date_le (sorted l).
Proof.
  induction l as [|x l IH]; simpl; [constructor|by apply insert_by_date_sorted].
Qed.

Lemma StronglySorted_lookup (l : list snapshot) i j a b :
  StronglySorted date_le l →
  l !! i = Some a → l !! j = Some b → (i < j)%nat → date_le a b.
Proof.
  intros Hl Ha Hb Hij. rewrite <- (take_drop j l) in Hl.
  eapply StronglySorted_app_1_elem_of; [exact Hl| |].
  - apply list_elem_of_lookup. exists i. by rewrite lookup_take_lt.
  - apply list_elem_of_lookup. exists 0%nat. rewrite lookup_drop.
    by rewrite Nat.add_0_r.
Qed.

(** The loop writes one entry per member of the target snapshot and
    accumulates the sum of the monthly figures it writes. *)
Lemma monthly_loop_spec (target_members prev_members : gmap string member) :
  let r := monthly_loop target_members prev_members in
  (∀ tag, r.1 !! tag = entry_of prev_members tag <$> target_members !! tag) ∧
  r.2 = sum_monthly r.1.
Proof.
  unfold monthly_loop.
  apply (map_fold_weak_ind
           (λ (acc : gmap string entry * Z) (m : gmap string member),
              (∀ tag, acc.1 !! tag = entry_of prev_members tag <$> m !! tag) ∧
              acc.2 = sum_monthly acc.1)).
  - split; [|done]. intros tag. by rewrite !lookup_empty.
  - intros tag data m [entries total] Hfresh [Hentries Htotal]. simpl in *.
    split.
    + intros tag'. destruct (decide (tag' = tag)) as [->|Hne].
      * by rewrite !lookup_insert_eq.
      * by rewrite !lookup_insert_ne.
    + subst total. unfold sum_monthly. rewrite map_fold_insert_L.
      * done.
      * intros. lia.
      * by rewrite Hentries, Hfresh.
Qed.
End DonationFacts.

(** C8: when the clan has a snapshot for month M and a snapshot of an
    earlier month, [calculate_monthly_donations] returns a report without
    the first-snapshot note, computed against the latest snapshot earlier
    than M.  The report has one entry per member of the snapshot of M:
    the monthly figure is [max(0, current - previous)] of the seasonal
    counters when the member is in the earlier snapshot, hence never
    negative, and the current seasonal counter when the member is not.
    The reported total is the sum of the monthly figures of the entries. *)
Theorem monthly_donation_delta (snapshots : gmap string (list Donations.snapshot))
    (clan_tag month_key : string) (i : nat) (target : Donations.snapshot) :
  let clan_snapshots := default [] (snapshots !! clan_tag) in
  list_find (λ s, Donations.date s = month_key) clan_snapshots = Some (i, target) →
  (∃ earlier, earlier ∈ clan_snapshots ∧
              String.ltb (Donations.date earlier) month_key = true) →
  ∃ prev r,
    Donations.calculate_monthly_donations snapshots clan_tag month_key = Some r ∧
    Donations.note r = None ∧
    Donations.month r = month_key ∧
    (* [prev] is the chronologically preceding snapshot *)
    prev ∈ clan_snapshots ∧
    String.ltb (Donations.date prev) month_key = true ∧
    (∀ s, s ∈ clan_snapshots →
          String.ltb (Donations.date s) month_key = true →
          String.leb (Donations.date s) (Donations.date prev) = true) ∧
    (* one entry per member of the month *)
    (∀ tag, Donations.report_members r !! tag = None ↔
            Donations.members target !! tag = None) ∧
    (∀ tag data,
       Donations.members target !! tag = Some data →
       ∃ e, Donations.report_members r !! tag = Some e ∧
            Donations.entry_seasonal e = Donations.seasonal data ∧
            Donations.monthly e
            = match Donations.members prev !! tag with
              | Some prev_data =>
                  Z.max 0 (Donations.seasonal data - Donations.seasonal prev_data)
              | None => Donations.seasonal data
              end ∧
            (is_Some (Donations.members prev !! tag) → 0 ≤ Donations.monthly e)) ∧
    Donations.total_monthly r = Donations.sum_monthly (Donations.report_members r).
Proof.
  intros clan_snapshots Hfind (earlier & Hearlier & Hlt).
  pose proof Hfind as Hfind'.
  apply list_find_Some in Hfind' as (Hi & Hdate & _).
  assert (target ∈ clan_snapshots) as Htarget
    by (apply list_elem_of_lookup; eauto).
  (* the position of the month in the sorted list *)
  set (sorted_snapshots := Donations.sorted clan_snapshots).
  assert (is_Some (list_find (λ s, Donations.date s = month_key) sorted_snapshots))
    as [[j target'] Hj].
  { apply (list_find_elem_of _ _ target); [|done].
    subst sorted_snapshots. by rewrite sorted_perm. }
  pose proof Hj as Hj'.
  apply list_find_Some in Hj' as (Hjl & Hjdate & Hjmin).
  pose proof (sorted_sorted clan_snapshots) as Hsorted.
  fold sorted_snapshots in Hsorted.
  (* every snapshot of an earlier month sits before that position *)
  assert (∀ s, s ∈ clan_snapshots →
               String.ltb (Donations.date s) month_key = true →
               ∃ k, (k < j)%nat ∧ sorted_snapshots !! k = Some s) as Hbefore.
  { intros s Hs Hslt.
    assert (s ∈ sorted_snapshots) as Hs'
      by (subst sorted_snapshots; by rewrite sorted_perm).
    apply list_elem_of_lookup in Hs' as [k Hk]. exists k. split; [|done].
    destruct (decide (k < j)%nat) as [|Hge]; [done|]. exfalso.
    apply string_ltb_leb in Hslt as [Hle Hne].
    destruct (decide (k = j)) as [->|Hkj].
    - rewrite Hjl in Hk. by simplify_eq.
    - assert (Donations.date_le target' s) as Hle'.
      { eapply (StronglySorted_lookup _ j k); [done|done|done|lia]. }
      unfold Donations.date_le in Hle'. rewrite Hjdate in Hle'.
      apply Hne. by apply String.leb_antisym. }
  destruct (Hbefore earlier Hearlier Hlt) as (k0 & Hk0 & _).
  destruct j as [|j']; [lia|].
  assert (is_Some (sorted_snapshots !! j')) as [prev Hprev].
  { apply lookup_lt_is_Some. apply lookup_lt_Some in Hjl. lia. }
  assert (Donations.date_le prev target') as Hprev_le.
  { eapply (StronglySorted_lookup _ j' (S j')); [done|done|done|lia]. }
  assert (String.ltb (Donations.date prev) month_key = true) as Hprev_lt.
  { apply string_ltb_leb. split.
    - unfold Donations.date_le in Hprev_le. by rewrite Hjdate in Hprev_le.
    - apply (Hjmin j' prev Hprev). lia. }
  (* the report *)
  destruct (monthly_loop_spec (Donations.members target) (Donations.members prev))
    as [Hentries Htotal].
  destruct (Donations.monthly_loop (Donations.members target) (Donations.members prev))
    as [monthly_donations total] eqn:Hloop.
  simpl in Hentries, Htotal.
  exists prev, (Donations.Report month_key monthly_donations total None).
  split_and!.
  - unfold Donations.calculate_monthly_donations. fold clan_snapshots.
    destruct clan_snapshots as [|s0 rest] eqn:Hcs; [by apply elem_of_nil in Htarget|].
    rewrite Hfind. fold sorted_snapshots. rewrite Hj, Hprev. by rewrite Hloop.
  - done.
  - done.
  - assert (prev ∈ sorted_snapshots) as Hin by (apply list_elem_of_lookup; eauto).
    subst sorted_snapshots. by rewrite sorted_perm in Hin.
  - done.
  - intros s Hs Hslt. destruct (Hbefore s Hs Hslt) as (k & Hk & Hks).
    destruct (decide (k = j')) as [->|Hne].
    + rewrite Hprev in Hks. simplify_eq. apply string_leb_refl.
    + eapply (StronglySorted_lookup _ k j'); [done|done|done|lia].
  - intros tag. simpl. rewrite Hentries. apply fmap_None.
  - intros tag data Hdata. simpl. rewrite Hentries, Hdata. simpl.
    eexists. split; [done|]. simpl. unfold Donations.monthly_figure.
    split_and!; [done|done|].
    intros [p Hp]. rewrite Hp. lia.
  - done.
Qed.

Lemma monthly_donation_delta_witness :
  let none := Donations.Lifetime 0 0 0 0 in
  let january :=
    Donations.Snapshot "2024-01" "2024-01-01T00:00:00+00:00"
      {[ "#P1" := Donations.Member "one" 50 none;
         "#P2" := Donations.Member "two" 80 none ]}%string in
  let february :=
    Donations.Snapshot "2024-02" "2024-02-01T00:00:00+00:00"
      {[ "#P1" := Donations.Member "one" 80 none;
         "#P2" := Donations.Member "two" 10 none;
         "#P3" := Donations.Member "three" 40 none ]}%string in
  let snapshots : gmap string (list Donations.snapshot) :=
    {[ "#CLAN"%string := [february; january] ]} in
  ∃ r,
    Donations.calculate_monthly_donations snapshots "#CLAN" "2024-02" = Some r ∧
    Donations.note r = None ∧
    Donations.monthly <$> Donations.report_members r !! "#P1"%string = Some 30 ∧
    Donations.monthly <$> Donations.report_members r !! "#P2"%string = Some 0 ∧
    Donations.monthly <$> Donations.report_members r !! "#P3"%string = Some 40 ∧
    Donations.total_monthly r = Donations.sum_monthly (Donations.report_members r) ∧
    Donations.total_monthly r = 70.
Proof.
  intros none january february snapshots.
  destruct (monthly_donation_delta snapshots "#CLAN" "2024-02" 0%nat february)
    as (prev & r & Hcalc & Hnote & _ & _ & _ & _ & _ & _ & Htotal).
  - reflexivity.
  - exists january. split; [|reflexivity]. right. left.
  - exists r. split_and!; [exact Hcalc|exact Hnote| | | |exact Htotal|];
      vm_compute in Hcalc; injection Hcalc as <-; reflexivity.
Defined.

(** * Further properties *)

(** ** The TTL cache: composition and isolation *)

(** X1: the last write wins and resets the age of the entry: after two
    [set]s of a key the cache is as if only the second had happened, and
    a read finds the second value exactly while it is fresh relative to
    the second write.  After [invalidate] every read of the key misses,
    whatever its time-to-live, until the next [set]. *)
Theorem cache_last_write_and_invalidate {V : Type} (cache : APICache.t V)
    (key : string) :
  (∀ v1 t1 v2 t2,
     APICache.set (APICache.set cache key v1 t1) key v2 t2
     = APICache.set cache key v2 t2) ∧
  (∀ v1 t1 (v2 : V) t2 ttl now,
     (APICache.get (APICache.set (APICache.set cache key v1 t1) key (Some v2) t2)
                   key ttl now).1 = Some v2 ↔ now - t2 < ttl) ∧
  (∀ ttl now,
     APICache.get (APICache.invalidate cache key) key ttl now
     = (None, APICache.invalidate cache key)) ∧
  (∀ (v : V) t ttl now,
     now - t < ttl →
     (APICache.get (APICache.set (APICache.invalidate cache key) key (Some v) t)
                   key ttl now).1 = Some v).
Proof.
  split_and!.
  - intros. unfold APICache.set. apply insert_insert_eq.
  - intros v1 t1 v2 t2 ttl now. unfold APICache.set. rewrite insert_insert_eq.
    unfold APICache.get. rewrite lookup_insert_eq.
    case_bool_decide; simpl; naive_solver.
  - intros ttl now. apply get_absent. apply lookup_delete_eq.
  - intros v t ttl now Hfresh.
    by rewrite (get_hit _ key (Some v) t); [|apply set_lookup|].
Qed.

Lemma cache_last_write_and_invalidate_witness :
  let cache : APICache.t nat := {[ "clan:#X"%string := (Some 1%nat, 0) ]} in
  (APICache.get (APICache.set (APICache.invalidate cache "clan:#X") "clan:#X"
                              (Some 2%nat) 100)
                "clan:#X" 60 150).1 = Some 2%nat.
Proof.
  intros cache.
  destruct (cache_last_write_and_invalidate cache "clan:#X") as (_ & _ & _ & H).
  apply H. lia.
Defined.

(** X2: the operations on one key leave every other key alone: a read,
    a write or an invalidation of [key] changes neither the entry of
    another key nor what a read of that other key returns; and a read
    that returns a value leaves the whole cache unchanged. *)
Theorem cache_keys_are_independent {V : Type} (cache : APICache.t V)
    (key other : string) :
  key ≠ other →
  (∀ ttl now, (APICache.get cache key ttl now).2 !! other = cache !! other) ∧
  (∀ value now, APICache.set cache key value now !! other = cache !! other) ∧
  APICache.invalidate cache key !! other = cache !! other ∧
  (∀ ttl now ttl' now',
     (APICache.get (APICache.get cache key ttl now).2 other ttl' now').1
     = (APICache.get cache other ttl' now').1) ∧
  (∀ value now ttl' now',
     (APICache.get (APICache.set cache key value now) other ttl' now').1
     = (APICache.get cache other ttl' now').1) ∧
  (∀ ttl now (v : V),
     (APICache.get cache key ttl now).1 = Some v →
     (APICache.get cache key ttl now).2 = cache).
Proof.
  intros Hne.
  assert (∀ ttl now, (APICache.get cache key ttl now).2 !! other = cache !! other)
    as Hget.
  { intros ttl now. unfold APICache.get.
    destruct (cache !! key) as [[value timestamp]|]; [|done].
    case_bool_decide; simpl; [done|]. by apply lookup_delete_ne. }
  assert (∀ value now, APICache.set cache key value now !! other = cache !! other)
    as Hset by (intros; by apply lookup_insert_ne).
  split_and!; [done|done|by apply lookup_delete_ne| | |].
  - intros ttl now ttl' now'. unfold APICache.get at 1 3. rewrite Hget.
    destruct (cache !! other) as [[v t]|]; [case_bool_decide|]; done.
  - intros value now ttl' now'. unfold APICache.get. rewrite Hset.
    destruct (cache !! other) as [[v t]|]; [case_bool_decide|]; done.
  - intros ttl now v. unfold APICache.get.
    destruct (cache !! key) as [[value timestamp]|]; [|done].
    by case_bool_decide.
Qed.

Lemma cache_keys_are_independent_witness :
  let cache : APICache.t nat :=
    {[ "clan:#X"%string := (Some 1%nat, 0); "war:#X"%string := (Some 2%nat, 0) ]} in
  (APICache.get (APICache.get cache "war:#X" 30 45).2 "clan:#X" 60 45).1
  = (APICache.get cache "clan:#X" 60 45).1.
Proof.
  intros cache.
  destruct (cache_keys_are_independent cache "war:#X" "clan:#X" ltac:(discriminate))
    as (_ & _ & _ & H & _).
  apply H.
Defined.

(** ** The request de-duplicator: [clear] and the running tasks *)

Section DedupOpsFacts.
Context {R : Type}.
Import RequestDeduplicator DeduplicatorOps.
Implicit Types (s : state R) (p : gmap string nat).

(** The loop of [clear] over distinct keys that are all present. *)
Lemma clear_loop_spec (ts : list (string * option (outcome R))) ks : ∀ p r,
  NoDup ks →
  (∀ k, k ∈ ks → is_Some (p !! k)) →
  let res := foldl (clear_step ts) (p, r) ks in
  (∀ k, res.1 !! k
        = if decide (k ∈ ks)
          then match p !! k with
               | Some f => if done ts f then None else Some f
               | None => None
               end
          else p !! k) ∧
  (res.2 + size res.1 = r + size p)%nat.
Proof.
  induction ks as [|k ks IH]; intros p r Hnd Hin; cbn [foldl].
  { split; [|done]. intros k. cbn [fst]. by rewrite decide_False by apply not_elem_of_nil. }
  apply NoDup_cons in Hnd as [Hk Hnd].
  destruct (Hin k ltac:(left)) as [f Hf].
  assert (∀ p1 r1,
            (∀ j, j ≠ k → p1 !! j = p !! j) →
            (p1 !! k = if done ts f then None else Some f) →
            (r1 + size p1 = r + size p)%nat →
            let res := foldl (clear_step ts) (p1, r1) ks in
            (∀ j, res.1 !! j
                  = if decide (j ∈ k :: ks)
                    then match p !! j with
                         | Some f => if done ts f then None else Some f
                         | None => None
                         end
                    else p !! j) ∧
            (res.2 + size res.1 = r + size p)%nat) as Hstep.
  { intros p1 r1 Hother Hthis Hsize.
    destruct (IH p1 r1 Hnd) as [IHl IHs].
    { intros j Hj. rewrite Hother by (intros ->; done). apply Hin. by right. }
    split; [|by rewrite IHs].
    intros j. rewrite IHl. destruct (decide (j = k)) as [->|Hne].
    - rewrite decide_False by done. rewrite decide_True by left.
      by rewrite Hthis, Hf.
    - rewrite Hother by done.
      destruct (decide (j ∈ ks)) as [Hj|Hj].
      + by rewrite decide_True by (by right).
      + rewrite decide_False; [done|]. by intros [?|?]%elem_of_cons. }
  assert (clear_step ts (p, r) k
          = if done ts f then (delete k p, S r) else (p, r)) as ->.
  { unfold clear_step. cbn [fst snd]. by rewrite Hf. }
  destruct (done ts f) eqn:Hdone.
  - apply Hstep.
    + intros j Hj. by rewrite lookup_delete_ne.
    + by rewrite lookup_delete_eq.
    + rewrite map_size_delete_Some by eauto.
      assert (size p ≠ 0)%nat; [|lia].
      intros Hz. apply map_size_empty_inv in Hz. by rewrite Hz in Hf.
  - apply Hstep; [done| |done]. by rewrite Hf.
Qed.

Lemma clear_spec s :
  let r := clear s in
  tasks r.1 = tasks s ∧ callers r.1 = callers s ∧
  (∀ k, pending r.1 !! k
        = match pending s !! k with
          | Some f => if done (tasks s) f then None else Some f
          | None => None
          end) ∧
  r.2.1 = size (pending s) ∧
  (r.2.2 + size (pending r.1) = size (pending s))%nat.
Proof.
  unfold clear.
  destruct (clear_loop_spec (tasks s) ((map_to_list (pending s)).*1) (pending s) 0%nat)
    as [Hl Hs].
  { apply NoDup_fst_map_to_list. }
  { intros k [[k' f] [-> Hkf]]%list_elem_of_fmap.
    apply elem_of_map_to_list in Hkf. eauto. }
  destruct (foldl _ _ _) as [p removed]. simpl in *.
  split_and!; [done|done| |done|done].
  intros k. rewrite Hl. case_decide as Hin; [done|].
  destruct (pending s !! k) as [f|] eqn:Hk; [|done].
  exfalso. apply Hin. apply list_elem_of_fmap. exists (k, f). split; [done|].
  by apply elem_of_map_to_list.
Qed.

Lemma running_registered_step s o s' :
  running_registered s → step_op s o = Some s' → running_registered s'.
Proof.
  intros Inv Hstep f k Hf. destruct o as [[key c|f0 o|c]|]; simpl in Hstep.
  - (* a call *)
    destruct (callers s !! c); [done|]. simplify_eq. unfold call in *.
    destruct (pending s !! key) as [f0|] eqn:Hk; simpl in *.
    { (* a pending task: joined while it runs, cleaned up when done *)
      destruct (tasks s !! f0) as [[key0 [o0|]]|] eqn:Hf0; simpl in *;
        try (by apply Inv).
      pose proof (Inv _ _ Hf) as Hp.
      rewrite (cleanup_same _ _ _ Hk). rewrite lookup_delete_ne; [done|].
      intros ->. rewrite Hk in Hp. simplify_eq. }
    destruct (decide (f < length (tasks s))%nat) as [Hlt|Hge].
    + rewrite lookup_app_l in Hf by done. pose proof (Inv _ _ Hf) as Hp.
      rewrite lookup_insert_ne; [done|]. intros ->. congruence.
    + rewrite lookup_app_r in Hf by lia.
      destruct (f - length (tasks s))%nat as [|n] eqn:Hn; [|by destruct n].
      simpl in Hf. simplify_eq. assert (f = length (tasks s)) as -> by lia.
      apply lookup_insert_eq.
  - (* a task settles *)
    destruct (tasks s !! f0) as [[key0 [o0|]]|] eqn:Hf0; simplify_eq. simpl in *.
    destruct (decide (f = f0)) as [->|Hne].
    + rewrite list_lookup_insert_eq in Hf by (by eapply lookup_lt_Some).
      by simplify_eq.
    + rewrite list_lookup_insert_ne in Hf by done. by apply Inv.
  - (* a caller resumes *)
    destruct (callers s !! c) as [[key f0|]|]; try done.
    destruct (tasks s !! f0) as [[key0 [o0|]]|] eqn:Hf0; simplify_eq. simpl in *.
    pose proof (Inv _ _ Hf) as Hp.
    destruct (decide (k = key)) as [->|Hne].
    + rewrite (cleanup_other _ _ _ f); [done|done|]. intros ->. congruence.
    + by rewrite cleanup_lookup_ne.
  - (* clear *)
    simplify_eq. destruct (clear_spec s) as (Ht & _ & Hp & _).
    rewrite Ht in Hf. rewrite Hp, (Inv _ _ Hf).
    unfold done. by rewrite Hf.
Qed.

Lemma running_registered_run os : ∀ s s',
  running_registered s → run_ops s os = Some s' → running_registered s'.
Proof.
  induction os as [|o os IH]; intros s s' Inv Hrun; simpl in Hrun.
  { by simplify_eq. }
  destruct (step_op s o) as [s1|] eqn:Hstep; [|done].
  eapply IH; [|done]. by eapply running_registered_step.
Qed.
End DedupOpsFacts.

(** X3: [clear] removes exactly the pending entries whose task is done
    and keeps those whose task still runs; it changes neither tasks nor
    callers; it reports the number of entries before as [total], and
    [removed_done] plus the number of entries left equals [total]. *)
Theorem clear_removes_exactly_done_entries {R : Type}
    (s : RequestDeduplicator.state R) :
  let r := DeduplicatorOps.clear s in
  RequestDeduplicator.tasks r.1 = RequestDeduplicator.tasks s ∧
  RequestDeduplicator.callers r.1 = RequestDeduplicator.callers s ∧
  (∀ key f,
     RequestDeduplicator.pending r.1 !! key = Some f ↔
     RequestDeduplicator.pending s !! key = Some f ∧
     DeduplicatorOps.done (RequestDeduplicator.tasks s) f = false) ∧
  r.2.1 = size (RequestDeduplicator.pending s) ∧
  (r.2.2 + size (RequestDeduplicator.pending r.1) = r.2.1)%nat.
Proof.
  destruct (clear_spec s) as (Ht & Hc & Hp & Htotal & Hsize).
  cbv zeta. split_and!; [done|done| |done|by rewrite Htotal].
  intros key f. rewrite Hp.
  destruct (RequestDeduplicator.pending s !! key) as [f0|];
    [|split; [done|by intros [? _]]].
  destruct (DeduplicatorOps.done (RequestDeduplicator.tasks s) f0) eqn:Hd.
  - split; [done|]. intros [[= ->] Hf]. congruence.
  - split; [by intros [= ->]|by intros [? _]].
Qed.

(** X4: in every state reached from the initial one by calls,
    settlements, resumptions and [clear]s, in any order, a task that has
    not settled is the pending entry of its key; so at most one fetch is
    in flight for a key at any time. *)
Theorem one_running_task_per_key {R : Type} (os : list (DeduplicatorOps.op R))
    (s : RequestDeduplicator.state R) (key : string) (f1 f2 : nat) :
  DeduplicatorOps.run_ops RequestDeduplicator.init os = Some s →
  RequestDeduplicator.tasks s !! f1 = Some (key, None) →
  RequestDeduplicator.tasks s !! f2 = Some (key, None) →
  f1 = f2 ∧ RequestDeduplicator.pending s !! key = Some f1.
Proof.
  intros Hrun H1 H2.
  assert (DeduplicatorOps.running_registered s) as Inv.
  { eapply running_registered_run; [|done]. intros f k Hf. done. }
  pose proof (Inv _ _ H1). pose proof (Inv _ _ H2). split; [congruence|done].
Qed.

Lemma one_running_task_per_key_witness :
  let os : list (DeduplicatorOps.op nat) :=
    [DeduplicatorOps.Ev (RequestDeduplicator.Call "clan:#X" 1%nat);
     DeduplicatorOps.Ev
       (RequestDeduplicator.Settle 0%nat (RequestDeduplicator.Raised "boom"));
     DeduplicatorOps.Clear;
     DeduplicatorOps.Ev (RequestDeduplicator.Call "clan:#X" 2%nat)] in
  ∃ s, DeduplicatorOps.run_ops RequestDeduplicator.init os = Some s ∧
       RequestDeduplicator.pending s !! "clan:#X"%string = Some 1%nat.
Proof.
  intros os. eexists. split; [by vm_compute|].
  eapply (one_running_task_per_key os _ "clan:#X" 1%nat 1%nat);
    by vm_compute.
Defined.

(** ** The gateways: order of the keys, caching of successes, selection *)

Section GatewayMoreFacts.
Context {V : Type}.
Import Upstream GatewayNotions.
Implicit Types (upstream : string → response V) (cache : APICache.t V).

(** One turn of the key loop of [_make_request]. *)
Lemma fetch_loop_cons upstream cache_key now k keys cache :
  COCAPI.fetch_loop upstream cache_key now (k :: keys) cache
  = if final (upstream k)
    then (answer (upstream k),
          APICache.set cache cache_key (answer (upstream k)) now, [k])
    else let '(r, cache', sent) := COCAPI.fetch_loop upstream cache_key now keys cache in
         (r, cache', k :: sent).
Proof.
  simpl. destruct (upstream k) as [status json| |]; [|done|done]. simpl.
  destruct (decide (status = 200)) as [->|H200]; [done|].
  destruct (decide (status = 404)) as [->|H404]; [done|].
  rewrite !bool_decide_eq_false_2 by done. simpl.
  destruct status as [|p|p]; [done| |done].
  do 9 (destruct p as [p|p|]; try done).
Qed.

Lemma fetch_loop_first_final upstream cache_key now before : ∀ k after cache,
  Forall (λ x, final (upstream x) = false) before →
  final (upstream k) = true →
  COCAPI.fetch_loop upstream cache_key now (before ++ k :: after) cache
  = (answer (upstream k),
     APICache.set cache cache_key (answer (upstream k)) now, before ++ [k]).
Proof.
  induction before as [|b before IH]; intros k after cache Hb Hk.
  { simpl app. by rewrite fetch_loop_cons, Hk. }
  apply Forall_cons in Hb as [Hb1 Hb].
  rewrite <- !app_comm_cons, fetch_loop_cons, Hb1.
  by rewrite (IH k after cache Hb Hk).
Qed.

Lemma fetch_loop_none_final upstream cache_key now keys cache :
  Forall (λ x, final (upstream x) = false) keys →
  COCAPI.fetch_loop upstream cache_key now keys cache = (None, cache, keys).
Proof.
  induction 1 as [|k keys Hk _ IH]; [done|].
  by rewrite fetch_loop_cons, Hk, IH.
Qed.

(** A document returned by the key loop has been stored under the key,
    with the time of the call. *)
Lemma fetch_loop_Some upstream cache_key now keys : ∀ cache data cache1 sent,
  COCAPI.fetch_loop upstream cache_key now keys cache = (Some data, cache1, sent) →
  cache1 = APICache.set cache cache_key (Some data) now.
Proof.
  induction keys as [|k keys IH]; intros cache data cache1 sent; [done|].
  rewrite fetch_loop_cons. destruct (final (upstream k)).
  - intros [= Ha <- _]. by rewrite Ha.
  - destruct (COCAPI.fetch_loop upstream cache_key now keys cache)
      as [[r c] s] eqn:Hloop.
    intros [= -> <- _]. by eapply IH.
Qed.

Lemma dict_get_values (d : api_keys) a k :
  dict_get d a = Some k → k ∈ values d.
Proof.
  induction d as [|[a' k'] d IH]; [done|]. simpl.
  destruct (String.eqb a' a); [intros [= ->]; by left|].
  intros H. right. by apply IH.
Qed.
End GatewayMoreFacts.

Section GatewayCacheFacts.
Context {V : Type}.
Import Upstream GatewayNotions.
Implicit Types (upstream : string → response V) (cache : APICache.t V).

(** What the failover loop of [coc_get] returns: a document it has
    stored, or nothing with the cache and the selection untouched. *)
Lemma failover_result upstream cache_key key now others : ∀ c cache r c' cache' sent,
  Bot.failover upstream cache_key key now others c cache = (r, c', cache', sent) →
  match r with
  | Some data => cache' = APICache.set cache cache_key (Some data) now
  | None => cache' = cache ∧ c' = c
  end.
Proof.
  induction others as [|k others IH]; intros c cache r c' cache' sent; simpl.
  { by intros [= <- <- <- _]. }
  destruct (String.eqb k key); [apply IH|].
  destruct (Bot.success (upstream k)) as [data|].
  - by intros [= <- _ <- _].
  - destruct (Bot.failover upstream cache_key key now others c cache)
      as [[[r0 c0] cache0] sent0] eqn:Hrest.
    intros [= <- <- <- _]. by eapply IH.
Qed.

Lemma fetch_result KEYS TTL others upstream probe cache_key now c cache r c' cache' sent :
  Bot._fetch KEYS TTL others upstream probe cache_key now c cache = (r, c', cache', sent) →
  match r with
  | Some data => cache' = APICache.set cache cache_key (Some data) now ∧ sent ≠ []
  | None => cache' = cache
  end.
Proof.
  unfold Bot._fetch.
  destruct (Bot.select_coc_key KEYS TTL now probe c) as [[key|] c1];
    [|by intros [= <- _ <- _]].
  destruct (negb (truthy key)); [by intros [= <- _ <- _]|].
  destruct (Bot.success (upstream key)) as [data|]; [by intros [= <- _ <- <-]|].
  destruct (Bot.failover upstream cache_key key now others c1 cache)
    as [[[r0 c0] cache0] sent0] eqn:Hfail.
  intros [= <- _ <- <-]. apply failover_result in Hfail.
  destruct r0; [done|by destruct Hfail].
Qed.
End GatewayCacheFacts.

(** X5: when [_make_request] finds no usable cached value, it asks with
    the API keys in the order of [COC_API_KEYS] and stops at the first
    key answered with status 200 or 404: it returns and stores the body
    for a 200 and [None] for a 404, and no later key is asked, even one
    that would have been accepted.  If no key is answered with 200 or 404,
    every key has been asked once, the result is [None] and nothing is
    stored. *)
Theorem make_request_key_order {V : Type} (KEYS : Upstream.api_keys)
    (upstream : string → Upstream.response V) (cache_key : string) (ttl now : Z)
    (cache : APICache.t V) :
  KEYS ≠ [] →
  (APICache.get cache cache_key ttl now).1 = None →
  let cache0 := (APICache.get cache cache_key ttl now).2 in
  (∀ before k after,
     Upstream.values KEYS = before ++ k :: after →
     Forall (λ x, GatewayNotions.final (upstream x) = false) before →
     GatewayNotions.final (upstream k) = true →
     COCAPI._make_request KEYS upstream cache_key ttl now cache
     = (GatewayNotions.answer (upstream k),
        APICache.set cache0 cache_key (GatewayNotions.answer (upstream k)) now,
        before ++ [k])) ∧
  (Forall (λ x, GatewayNotions.final (upstream x) = false) (Upstream.values KEYS) →
   COCAPI._make_request KEYS upstream cache_key ttl now cache
   = (None, cache0, Upstream.values KEYS)).
Proof.
  intros Hkeys Hmiss cache0.
  assert (COCAPI._make_request KEYS upstream cache_key ttl now cache
          = COCAPI.fetch_loop upstream cache_key now (Upstream.values KEYS) cache0)
    as ->.
  { unfold COCAPI._make_request. destruct KEYS as [|kv KEYS]; [done|].
    subst cache0. destruct (APICache.get cache cache_key ttl now) as [cached c0].
    simpl in *. by subst cached. }
  split.
  - intros before k after -> Hb Hk. by apply fetch_loop_first_final.
  - apply fetch_loop_none_final.
Qed.

Lemma make_request_key_order_witness :
  let KEYS : Upstream.api_keys :=
    [("1.2.3.4", "KEY_A"); ("5.6.7.8", "KEY_B"); ("*", "KEY_C")]%string in
  (* KEY_A is rejected, KEY_B gets a 404, KEY_C would be accepted *)
  let upstream (k : string) : Upstream.response nat :=
    if String.eqb k "KEY_A" then Upstream.Response 403 None
    else if String.eqb k "KEY_B" then Upstream.Response 404 None
    else Upstream.Response 200 (Some 7%nat) in
  COCAPI._make_request KEYS upstream "player:#P" 60 1000 ∅
  = (None, APICache.set ∅ "player:#P" None 1000, ["KEY_A"; "KEY_B"]%string).
Proof.
  intros KEYS upstream.
  destruct (make_request_key_order KEYS upstream "player:#P" 60 1000 ∅
              ltac:(discriminate) eq_refl) as [Hfirst _].
  apply (Hfirst ["KEY_A"%string] "KEY_B"%string ["KEY_C"%string]).
  - reflexivity.
  - repeat constructor.
  - reflexivity.
Defined.

(** X6: a document that [_make_request] has fetched is served from the
    cache afterwards: a second call for the key, at a time when the
    document is younger than the time-to-live of that call, returns the
    same document without any request, whatever the service would answer
    by then, and leaves the cache as it is. *)
Theorem make_request_success_is_cached {V : Type} (KEYS : Upstream.api_keys)
    (upstream upstream' : string → Upstream.response V) (cache_key : string)
    (ttl now ttl' now' : Z) (cache cache1 : APICache.t V) (data : V)
    (sent : list string) :
  COCAPI._make_request KEYS upstream cache_key ttl now cache
  = (Some data, cache1, sent) →
  sent ≠ [] →
  now' - now < ttl' →
  COCAPI._make_request KEYS upstream' cache_key ttl' now' cache1
  = (Some data, cache1, []).
Proof.
  intros Hfirst Hsent Hfresh.
  assert (KEYS ≠ [] ∧ cache1 !! cache_key = Some (Some data, now)) as [Hkeys Hk].
  { unfold COCAPI._make_request in Hfirst. destruct KEYS as [|kv KEYS]; [done|].
    split; [done|].
    destruct (APICache.get cache cache_key ttl now) as [[v|] c0].
    - by simplify_eq.
    - apply fetch_loop_Some in Hfirst as ->. apply set_lookup. }
  unfold COCAPI._make_request. destruct KEYS as [|kv KEYS]; [done|].
  by rewrite (get_hit _ _ _ _ _ _ Hk Hfresh).
Qed.

Lemma make_request_success_is_cached_witness :
  let KEYS : Upstream.api_keys := [("*", "KEY_A")]%string in
  let up (k : string) : Upstream.response nat := Upstream.Response 200 (Some 7%nat) in
  let down (k : string) : Upstream.response nat := Upstream.TimeoutError in
  COCAPI._make_request KEYS down "clan:#X" 60 1030
    (COCAPI._make_request KEYS up "clan:#X" 60 1000 ∅).1.2
  = (Some 7%nat, APICache.set ∅ "clan:#X" (Some 7%nat) 1000, []).
Proof.
  intros KEYS up down.
  apply (make_request_success_is_cached KEYS up down "clan:#X" 60 1000 60 1030 ∅
           _ 7%nat ["KEY_A"%string]).
  - reflexivity.
  - discriminate.
  - lia.
Defined.

(** X10: the same for [coc_get]: a document it has fetched is returned
    by a later call within the time-to-live without any request, and
    that call changes neither the cache nor the credential globals. *)
Theorem coc_get_success_is_cached {V : Type} (KEYS : Upstream.api_keys) (TTL : Z)
    (others others' : list string) (upstream upstream' : string → Upstream.response V)
    (probe probe' : option string) (cache_key : string) (ttl now ttl' now' : Z)
    (c c1 : Bot.cred) (cache cache1 : APICache.t V) (data : V) (sent : list string) :
  Bot.coc_get KEYS TTL others upstream probe cache_key ttl now c cache
  = (Some data, c1, cache1, sent) →
  sent ≠ [] →
  now' - now < ttl' →
  Bot.coc_get KEYS TTL others' upstream' probe' cache_key ttl' now' c1 cache1
  = (Some data, c1, cache1, []).
Proof.
  intros Hfirst Hsent Hfresh.
  assert (cache1 !! cache_key = Some (Some data, now)) as Hk.
  { unfold Bot.coc_get in Hfirst.
    destruct (APICache.get cache cache_key ttl now) as [[v|] c0].
    - by simplify_eq.
    - apply fetch_result in Hfirst as [-> _]. apply set_lookup. }
  unfold Bot.coc_get. by rewrite (get_hit _ _ _ _ _ _ Hk Hfresh).
Qed.

Lemma coc_get_success_is_cached_witness :
  let KEYS : Upstream.api_keys := [("*", "KEY_A")]%string in
  let up (k : string) : Upstream.response nat := Upstream.Response 200 (Some 7%nat) in
  let down (k : string) : Upstream.response nat := Upstream.ClientError in
  let first := Bot.coc_get KEYS 300 ["KEY_A"%string] up None "coc:/clans/%23X"
                           60 1000 Bot.cred_init ∅ in
  Bot.coc_get KEYS 300 ["KEY_A"%string] down None "coc:/clans/%23X" 60 1059
              first.1.1.2 first.1.2
  = (Some 7%nat, first.1.1.2, first.1.2, []).
Proof.
  intros KEYS up down first.
  apply (coc_get_success_is_cached KEYS 300 ["KEY_A"%string] ["KEY_A"%string]
           up down None None "coc:/clans/%23X" 60 1000 60 1059 Bot.cred_init
           _ ∅ _ 7%nat ["KEY_A"%string]).
  - reflexivity.
  - discriminate.
  - lia.
Defined.

(** X11: [coc_get] stores nothing when it fails: if it returns [None],
    the cache afterwards is the cache as its initial read left it, so
    no entry has been written and every other key is untouched. *)
Theorem coc_get_failure_writes_nothing {V : Type} (KEYS : Upstream.api_keys)
    (TTL : Z) (others : list string) (upstream : string → Upstream.response V)
    (probe : option string) (cache_key : string) (ttl now : Z)
    (c c1 : Bot.cred) (cache cache1 : APICache.t V) (sent : list string) :
  Bot.coc_get KEYS TTL others upstream probe cache_key ttl now c cache
  = (None, c1, cache1, sent) →
  cache1 = (APICache.get cache cache_key ttl now).2 ∧
  (cache1 = cache ∨ cache1 = delete cache_key cache) ∧
  (∀ other, other ≠ cache_key → cache1 !! other = cache !! other).
Proof.
  intros Hget.
  assert (cache1 = (APICache.get cache cache_key ttl now).2) as ->.
  { unfold Bot.coc_get in Hget.
    destruct (APICache.get cache cache_key ttl now) as [[v|] c0]; [done|].
    by apply fetch_result in Hget. }
  split; [done|]. unfold APICache.get.
  destruct (cache !! cache_key) as [[value timestamp]|]; simpl.
  - case_bool_decide; simpl.
    + split; [by left|done].
    + split; [by right|]. intros other Hne. by apply lookup_delete_ne.
  - split; [by left|done].
Qed.

Lemma coc_get_failure_writes_nothing_witness :
  let KEYS : Upstream.api_keys := [("*", "KEY_A")]%string in
  let down (k : string) : Upstream.response nat := Upstream.Response 404 None in
  let cache : APICache.t nat := {[ "coc:/clans/%23Y"%string := (Some 3%nat, 990) ]} in
  (Bot.coc_get KEYS 300 ["KEY_A"%string] down None "coc:/clans/%23X" 60 1000
               Bot.cred_init cache).1.2
  = (APICache.get cache "coc:/clans/%23X" 60 1000).2.
Proof.
  intros KEYS down cache.
  destruct (coc_get_failure_writes_nothing KEYS 300 ["KEY_A"%string] down None
              "coc:/clans/%23X" 60 1000 Bot.cred_init
              (Bot.Cred (Some "KEY_A"%string) 1000 None 0) cache cache
              ["KEY_A"%string] eq_refl) as (H & _ & _).
  exact H.
Defined.

(** X7: when no fresh selection is cached, [select_coc_key] picks the
    key configured for the detected egress address if there is one,
    otherwise the key configured for ["*"], otherwise the first
    configured key.  It returns [None] exactly when no key is
    configured; a key it returns is one of the configured keys and is
    stored as the selection with the time of the call. *)
Theorem selected_key_is_configured (KEYS : Upstream.api_keys) (TTL now : Z)
    (probe : option string) (c : Bot.cred) :
  Bot.fresh (Bot._selected_coc_key c) (Bot._selected_coc_key_ts c) TTL now = false →
  let ip := (Bot.get_egress_ip TTL now probe c).1 in
  let r := Bot.select_coc_key KEYS TTL now probe c in
  (r.1 = None ↔ KEYS = []) ∧
  (∀ k, r.1 = Some k →
        k ∈ Upstream.values KEYS ∧
        Bot._selected_coc_key r.2 = Some k ∧ Bot._selected_coc_key_ts r.2 = now) ∧
  (∀ a k, ip = Some a → Upstream.truthy a = true →
          Upstream.dict_get KEYS a = Some k → r.1 = Some k) ∧
  (∀ k, (∀ a, ip = Some a → Upstream.truthy a = true →
              Upstream.dict_get KEYS a = None) →
        Upstream.dict_get KEYS "*" = Some k → r.1 = Some k).
Proof.
  intros Hstale ip r. subst ip r. unfold Bot.select_coc_key. rewrite Hstale.
  destruct (Bot.get_egress_ip TTL now probe c) as [ip c1]. simpl.
  set (by_ip := match ip with
                | Some a => if Upstream.truthy a then Upstream.dict_get KEYS a else None
                | None => None
                end).
  assert (∀ k, by_ip = Some k → k ∈ Upstream.values KEYS) as Hby.
  { intros k. subst by_ip. destruct ip as [a|]; [|done].
    destruct (Upstream.truthy a); [|done]. apply dict_get_values. }
  destruct by_ip as [k0|] eqn:Hby_ip.
  - simpl. split_and!.
    + split; [done|]. intros ->. specialize (Hby k0 eq_refl). by apply elem_of_nil in Hby.
    + intros k [= <-]. split_and!; [by apply Hby|done|done].
    + intros a k -> Ha Hk. subst by_ip. rewrite Ha, Hk in Hby_ip. congruence.
    + intros k Hnone _. subst by_ip. destruct ip as [a|]; [|done].
      destruct (Upstream.truthy a) eqn:Ha; [|done].
      rewrite (Hnone a eq_refl Ha) in Hby_ip. done.
  - assert (∀ a k, ip = Some a → Upstream.truthy a = true →
                   Upstream.dict_get KEYS a = Some k → False) as Hno.
    { intros a k -> Ha Hk. subst by_ip. rewrite Ha, Hk in Hby_ip. done. }
    destruct (Upstream.dict_get KEYS "*") as [k1|] eqn:Hstar.
    + simpl. split_and!.
      * split; [done|]. intros ->. done.
      * intros k [= <-]. split_and!; [by eapply dict_get_values|done|done].
      * intros a k Hip Ha Hk. by destruct (Hno a k).
      * by intros k _ [= <-].
    + destruct KEYS as [|[a0 k2] KEYS']; simpl.
      * split_and!; [done|done| |done]. intros a k Hip Ha Hk. done.
      * split_and!.
        -- split; done.
        -- intros k [= <-]. split_and!; [by left|done|done].
        -- intros a k Hip Ha Hk. by destruct (Hno a k).
        -- done.
Qed.

Lemma selected_key_is_configured_witness :
  let KEYS : Upstream.api_keys :=
    [("1.2.3.4", "KEY_A"); ("5.6.7.8", "KEY_B"); ("*", "KEY_C")]%string in
  (Bot.select_coc_key KEYS 300 1000 (Some "5.6.7.8"%string) Bot.cred_init).1
  = Some "KEY_B"%string ∧
  (Bot.select_coc_key KEYS 300 1000 (Some "9.9.9.9"%string) Bot.cred_init).1
  = Some "KEY_C"%string.
Proof.
  intros KEYS. split.
  - destruct (selected_key_is_configured KEYS 300 1000 (Some "5.6.7.8"%string)
                Bot.cred_init eq_refl) as (_ & _ & Hip & _).
    by apply (Hip "5.6.7.8"%string).
  - destruct (selected_key_is_configured KEYS 300 1000 (Some "9.9.9.9"%string)
                Bot.cred_init eq_refl) as (_ & _ & _ & Hstar).
    apply Hstar; [|done]. by intros a [= <-] _.
Defined.

(** X8: a selection is kept for [COC_IP_CACHE_TTL]: once [select_coc_key]
    has returned a non-empty key, every call made while the stored
    selection is younger than the time-to-live returns that key and
    changes nothing, whatever the address service answers by then. *)
Theorem selection_is_sticky (KEYS KEYS' : Upstream.api_keys) (TTL now later : Z)
    (probe probe' : option string) (c c1 : Bot.cred) (k : string) :
  Bot.select_coc_key KEYS TTL now probe c = (Some k, c1) →
  Upstream.truthy k = true →
  later - Bot._selected_coc_key_ts c1 < TTL →
  Bot.select_coc_key KEYS' TTL later probe' c1 = (Some k, c1).
Proof.
  intros Hsel Hk Hlater.
  pose proof (select_coc_key_selected _ _ _ _ _ _ _ Hsel) as Hstored.
  rewrite select_coc_key_fresh; [by rewrite Hstored|].
  rewrite Hstored. simpl. rewrite Hk. simpl. by apply bool_decide_eq_true_2.
Qed.

Lemma selection_is_sticky_witness :
  let KEYS : Upstream.api_keys :=
    [("1.2.3.4", "KEY_A"); ("5.6.7.8", "KEY_B")]%string in
  let c1 := (Bot.select_coc_key KEYS 300 1000 (Some "5.6.7.8"%string) Bot.cred_init).2 in
  Bot.select_coc_key KEYS 300 1200 (Some "1.2.3.4"%string) c1
  = (Some "KEY_B"%string, c1).
Proof.
  intros KEYS c1.
  apply (selection_is_sticky KEYS KEYS 300 1000 1200 (Some "5.6.7.8"%string)
           (Some "1.2.3.4"%string) Bot.cred_init c1 "KEY_B").
  - reflexivity.
  - reflexivity.
  - by vm_compute.
Defined.

(** X9: the detected egress address is cached with its own
    time-to-live.  While a non-empty cached address is fresh,
    [get_egress_ip] returns it and changes nothing, whatever the address
    service would answer.  Otherwise a failed detection returns [None]
    and leaves the stale address and its time in place, and a successful
    one stores the address with the time of the call, after which it is
    served from the cache until the time-to-live has passed. *)
Theorem egress_ip_is_cached (TTL now : Z) (probe : option string) (c : Bot.cred) :
  (Bot.fresh (Bot._cached_ip c) (Bot._cached_ip_ts c) TTL now = true →
   Bot.get_egress_ip TTL now probe c = (Bot._cached_ip c, c)) ∧
  (Bot.fresh (Bot._cached_ip c) (Bot._cached_ip_ts c) TTL now = false →
   probe = None →
   Bot.get_egress_ip TTL now probe c = (None, c)) ∧
  (∀ ip,
     Bot.fresh (Bot._cached_ip c) (Bot._cached_ip_ts c) TTL now = false →
     probe = Some ip →
     let r := Bot.get_egress_ip TTL now probe c in
     r.1 = Some ip ∧
     Bot._cached_ip r.2 = Some ip ∧ Bot._cached_ip_ts r.2 = now ∧
     Bot._selected_coc_key r.2 = Bot._selected_coc_key c ∧
     Bot._selected_coc_key_ts r.2 = Bot._selected_coc_key_ts c ∧
     (∀ later probe',
        Upstream.truthy ip = true → later - now < TTL →
        Bot.get_egress_ip TTL later probe' r.2 = (Some ip, r.2))).
Proof.
  split_and!.
  - intros Hf. unfold Bot.get_egress_ip. by rewrite Hf.
  - intros Hf ->. unfold Bot.get_egress_ip. by rewrite Hf.
  - intros ip Hf ->. cbv zeta.
    assert (Bot.get_egress_ip TTL now (Some ip) c
            = (Some ip, Bot.Cred (Bot._selected_coc_key c) (Bot._selected_coc_key_ts c)
                                 (Some ip) now)) as ->.
    { unfold Bot.get_egress_ip. by rewrite Hf. }
    simpl. split_and!; try done.
    intros later probe' Hip Hlater. unfold Bot.get_egress_ip. simpl.
    rewrite Hip. simpl. by rewrite bool_decide_eq_true_2.
Qed.

Lemma egress_ip_is_cached_witness :
  let c1 := (Bot.get_egress_ip 300 1000 (Some "1.2.3.4"%string) Bot.cred_init).2 in
  Bot.get_egress_ip 300 1299 None c1 = (Some "1.2.3.4"%string, c1).
Proof.
  intros c1.
  destruct (egress_ip_is_cached 300 1000 (Some "1.2.3.4"%string) Bot.cred_init)
    as (_ & _ & Hstore).
  destruct (Hstore "1.2.3.4"%string eq_refl eq_refl) as (_ & _ & _ & _ & _ & Hlater).
  apply Hlater; [reflexivity|lia].
Defined.

(** ** The tracker: isolation of clans, bounds of the counters, timing of a leave *)

Section TrackerFrame.
Import Tracker TrackerNotions.
Variable LEAVE_DEBOUNCE_COUNT : Z.
Variable clan_tag : string.
Implicit Types (s : state).

Local Ltac frame_solve :=
  unfold same_elsewhere; simpl; split_and!; intros;
  rewrite ?lookup_insert_ne by done; try done.

Lemma same_elsewhere_refl s : same_elsewhere clan_tag s s.
Proof. frame_solve. Qed.

Lemma same_elsewhere_trans s1 s2 s3 :
  same_elsewhere clan_tag s1 s2 → same_elsewhere clan_tag s2 s3 →
  same_elsewhere clan_tag s1 s3.
Proof.
  intros (H1 & H2 & H3 & H4) (G1 & G2 & G3 & G4). split_and!; intros.
  - by rewrite G1, H1.
  - by rewrite G2, H2.
  - by rewrite G3, H3.
  - by rewrite G4, H4.
Qed.

Lemma same_elsewhere_join_one s player :
  same_elsewhere clan_tag s (join_one clan_tag player s).
Proof. unfold join_one. frame_solve. Qed.

Lemma same_elsewhere_save s :
  same_elsewhere clan_tag s (save_strict_cache s clan_tag).2.
Proof. unfold save_strict_cache. frame_solve. Qed.

Lemma same_elsewhere_join_loop joins : ∀ s,
  same_elsewhere clan_tag s (join_loop clan_tag joins s).2.
Proof.
  induction joins as [|p joins IH]; intros s; simpl; [apply same_elsewhere_refl|].
  specialize (IH (join_one clan_tag p s)).
  destruct (join_loop clan_tag joins (join_one clan_tag p s)) as [out s'].
  simpl in *. eapply same_elsewhere_trans; [apply same_elsewhere_join_one|done].
Qed.

Lemma same_elsewhere_leave_one s player :
  same_elsewhere clan_tag s (leave_one LEAVE_DEBOUNCE_COUNT clan_tag player s).2.
Proof. unfold leave_one. repeat case_bool_decide; frame_solve. Qed.

Lemma same_elsewhere_leave_loop cands : ∀ s,
  same_elsewhere clan_tag s (leave_loop LEAVE_DEBOUNCE_COUNT clan_tag cands s).2.
Proof.
  induction cands as [|p rest IH]; intros s; simpl; [apply same_elsewhere_refl|].
  pose proof (same_elsewhere_leave_one s p) as H1.
  destruct (leave_one LEAVE_DEBOUNCE_COUNT clan_tag p s) as [out1 s1].
  specialize (IH s1).
  destruct (leave_loop LEAVE_DEBOUNCE_COUNT clan_tag rest s1) as [out2 s2].
  simpl in *. by eapply same_elsewhere_trans.
Qed.

Lemma same_elsewhere_baseline current s :
  same_elsewhere clan_tag s (baseline clan_tag current s).2.
Proof.
  unfold baseline.
  assert (∀ tags, same_elsewhere clan_tag s
                    (let '(saved, s2) := save_strict_cache (set_known s clan_tag tags)
                                                           clan_tag in
                     if bool_decide (clan_tag ∈ initialized_baseline s2)
                     then (saved, s2)
                     else (saved ++ [LogBaseline clan_tag],
                           State (strict_join_cache s2)
                                 (initialized_baseline s2 ∪ {[clan_tag]})
                                 (missing_counts s2) (files s2))).2) as H.
  { intros tags. simpl. case_bool_decide; frame_solve. set_solver. }
  destruct current; apply H.
Qed.

Lemma same_elsewhere_diff current s :
  same_elsewhere clan_tag s (diff LEAVE_DEBOUNCE_COUNT clan_tag current s).2.
Proof.
  unfold diff.
  pose proof (same_elsewhere_join_loop
                (filter (λ t, t ∉ known s clan_tag) current) s) as H1.
  destruct (join_loop clan_tag _ s) as [out1 s1]. simpl in H1.
  set (saved := match filter (λ t, t ∉ known s clan_tag) current with
                | [] => ([], s1)
                | _ => save_strict_cache s1 clan_tag
                end).
  assert (same_elsewhere clan_tag s1 saved.2) as H2.
  { subst saved. destruct (filter _ current);
      [apply same_elsewhere_refl|apply same_elsewhere_save]. }
  destruct saved as [out2 s2]. simpl in H2.
  set (s3 := update_missing s2 clan_tag (λ m, foldr delete m current)).
  assert (same_elsewhere clan_tag s2 s3) as H3 by (subst s3; frame_solve).
  match goal with
  | |- context [leave_loop ?n ?c ?l s3] =>
      pose proof (same_elsewhere_leave_loop l s3) as H4;
      destruct (leave_loop n c l s3) as [out3 s4]
  end.
  simpl in *.
  eapply same_elsewhere_trans; [exact H1|].
  eapply same_elsewhere_trans; [exact H2|].
  eapply same_elsewhere_trans; [exact H3|exact H4].
Qed.

Lemma same_elsewhere_tick SKIP poll s :
  same_elsewhere clan_tag s (tick LEAVE_DEBOUNCE_COUNT SKIP clan_tag poll s).2.
Proof.
  unfold tick. destruct poll as [ml|]; [|apply same_elsewhere_refl].
  destruct (match ml with [] => SKIP | _ => false end);
    [apply same_elsewhere_refl|].
  case_bool_decide; [apply same_elsewhere_baseline|apply same_elsewhere_diff].
Qed.

Lemma same_elsewhere_ticks SKIP polls : ∀ s,
  same_elsewhere clan_tag s (ticks LEAVE_DEBOUNCE_COUNT SKIP clan_tag polls s).2.
Proof.
  induction polls as [|poll polls IH]; intros s; simpl; [apply same_elsewhere_refl|].
  pose proof (same_elsewhere_tick SKIP poll s) as H1.
  destruct (tick LEAVE_DEBOUNCE_COUNT SKIP clan_tag poll s) as [out1 s1].
  specialize (IH s1).
  destruct (ticks LEAVE_DEBOUNCE_COUNT SKIP clan_tag polls s1) as [out2 s2].
  simpl in *. by eapply same_elsewhere_trans.
Qed.
End TrackerFrame.

(** X12: the tracker of one clan leaves the other clans alone: over any
    run of iterations for a clan, the known set, the miss counters and
    the baseline flag of every other clan are unchanged, and so is every
    file other than the member file of the clan. *)
Theorem tracker_touches_only_its_clan (LEAVE_DEBOUNCE_COUNT : Z)
    (SKIP_EMPTY_MEMBER_LIST : bool) (clan_tag other : string)
    (polls : list (option (list Tracker.member))) (s : Tracker.state) :
  other ≠ clan_tag →
  let s' := (Tracker.ticks LEAVE_DEBOUNCE_COUNT SKIP_EMPTY_MEMBER_LIST clan_tag
                           polls s).2 in
  Tracker.known s' other = Tracker.known s other ∧
  Tracker.missing s' other = Tracker.missing s other ∧
  (other ∈ Tracker.initialized_baseline s' ↔ other ∈ Tracker.initialized_baseline s) ∧
  (∀ path, path ≠ Tracker.members_filename clan_tag →
           Tracker.files s' !! path = Tracker.files s !! path).
Proof.
  intros Hne.
  destruct (same_elsewhere_ticks LEAVE_DEBOUNCE_COUNT clan_tag
              SKIP_EMPTY_MEMBER_LIST polls s) as (H1 & H2 & H3 & H4).
  cbv zeta. unfold Tracker.known, Tracker.missing.
  rewrite H1, H2 by done. split_and!; [done|done|by apply H3|done].
Qed.

Lemma tracker_touches_only_its_clan_witness :
  let s := Tracker.State {[ "#ONE"%string := {[ "#A"%string ]};
                            "#TWO"%string := {[ "#B"%string ]} ]} ∅ ∅ ∅ in
  let s' := (Tracker.ticks 1 false "#ONE" [Some []; Some []] s).2 in
  Tracker.known s' "#TWO" = Tracker.known s "#TWO".
Proof.
  intros s s'.
  by destruct (tracker_touches_only_its_clan 1 false "#ONE" "#TWO" [Some []; Some []] s
                 ltac:(discriminate)) as (H & _).
Defined.

Section TrackerTiming.
Import Tracker TrackerNotions.
Variable LEAVE_DEBOUNCE_COUNT : Z.
Variable clan_tag : string.
Implicit Types (s : state) (t : string).

Lemma NoDup_first_occurrences (l : list string) : NoDup (first_occurrences l).
Proof.
  induction l as [|x l IH]; simpl; [constructor|].
  apply NoDup_cons. split; [|by apply NoDup_filter].
  intros [Hne _]%list_elem_of_filter. done.
Qed.

Lemma filter_leave_of_leaves t (out : list effect) :
  filter (is_leave_of t) out = filter (is_leave_of t) (filter is_leave out).
Proof.
  induction out as [|e out IH]; [done|].
  destruct e as [c|c|c p|c p|path tags];
    try (rewrite (filter_cons_False is_leave) by (by intros ?);
         rewrite filter_cons_False by (by intros ?); done).
  rewrite (filter_cons_True is_leave) by done.
  destruct (decide (is_leave_of t (Leave c p))) as [H|H].
  - rewrite !(filter_cons_True (is_leave_of t)) by done. by rewrite IH.
  - rewrite !(filter_cons_False (is_leave_of t)) by done. done.
Qed.

Lemma filter_leave_of_fmap t (gone : list string) :
  NoDup gone →
  filter (is_leave_of t) (Leave clan_tag <$> gone)
  = if decide (t ∈ gone) then [Leave clan_tag t] else [].
Proof.
  induction 1 as [|p gone Hp Hnd IH]; [done|]. rewrite fmap_cons.
  destruct (decide (p = t)) as [->|Hne].
  - rewrite filter_cons_True by (simpl; by rewrite bool_decide_eq_true_2).
    rewrite IH, decide_False by done. by rewrite decide_True by left.
  - rewrite filter_cons_False
      by (simpl; rewrite bool_decide_eq_false_2 by done; by intros ?).
    rewrite IH. destruct (decide (t ∈ gone)) as [Hin|Hin].
    + by rewrite decide_True by (by right).
    + rewrite decide_False; [done|]. intros [?|?]%elem_of_cons; by simplify_eq.
Qed.

(** The leaves of one tag announced by an iteration that is not
    discarded. *)
Lemma tick_leaves_of SKIP ml s t :
  ml ≠ [] ∨ SKIP = false →
  counters_known clan_tag s →
  let r := tick LEAVE_DEBOUNCE_COUNT SKIP clan_tag (Some ml) s in
  let leaving := t ∈ known s clan_tag ∧ (t ∉ current_tags ml) ∧
                 ¬ (next_count (missing s clan_tag) t < LEAVE_DEBOUNCE_COUNT) in
  (leaving → filter (is_leave_of t) r.1 = [Leave clan_tag t] ∧
             (t ∉ known r.2 clan_tag) ∧ missing r.2 clan_tag !! t = None) ∧
  (¬ leaving → filter (is_leave_of t) r.1 = []).
Proof.
  intros Hproc Hwf.
  destruct (tick_spec LEAVE_DEBOUNCE_COUNT clan_tag SKIP ml s Hproc Hwf)
    as (gone & Hl & Hnd & Hgone & Hk & Hm & _ & _).
  cbv zeta. rewrite filter_leave_of_leaves, Hl, filter_leave_of_fmap by done.
  split.
  - intros Hleaving. rewrite decide_True by (by apply Hgone). split_and!.
    + done.
    + rewrite Hk. rewrite Hgone. tauto.
    + rewrite Hm. rewrite decide_False; [done|tauto].
  - intros Hstay. rewrite decide_False; [done|]. by rewrite Hgone.
Qed.

(** While a known tag is missing and its counter stays below the
    threshold, no leave is announced and the counter grows by one per
    iteration. *)
Lemma misses_accumulate SKIP t polls : ∀ s,
  counters_known clan_tag s →
  t ∈ known s clan_tag →
  Forall (λ ml, (ml ≠ [] ∨ SKIP = false) ∧ t ∉ current_tags ml) polls →
  default 0 (missing s clan_tag !! t) + Z.of_nat (length polls) < LEAVE_DEBOUNCE_COUNT →
  let r := ticks LEAVE_DEBOUNCE_COUNT SKIP clan_tag (Some <$> polls) s in
  filter (is_leave_of t) r.1 = [] ∧
  t ∈ known r.2 clan_tag ∧
  counters_known clan_tag r.2 ∧
  default 0 (missing r.2 clan_tag !! t)
  = default 0 (missing s clan_tag !! t) + Z.of_nat (length polls).
Proof.
  induction polls as [|ml polls IH]; intros s Hwf Hin Hok Hlt.
  { simpl. split_and!; [done|done|done|lia]. }
  apply Forall_cons in Hok as [[Hproc Hmiss] Hok].
  rewrite fmap_cons. cbn [ticks].
  destruct (tick_spec LEAVE_DEBOUNCE_COUNT clan_tag SKIP ml s Hproc Hwf)
    as (gone & _ & _ & Hgone & Hk & Hm & _ & Hwf1).
  destruct (tick_leaves_of SKIP ml s t Hproc Hwf) as [_ Hnone].
  assert (next_count (missing s clan_tag) t < LEAVE_DEBOUNCE_COUNT) as Hnext.
  { unfold next_count. rewrite length_cons in Hlt. lia. }
  destruct (tick LEAVE_DEBOUNCE_COUNT SKIP clan_tag (Some ml) s) as [out1 s1].
  simpl in Hgone, Hk, Hm, Hwf1, Hnone.
  assert (t ∈ known s1 clan_tag) as Hin1.
  { apply Hk. split; [by left|]. rewrite Hgone. tauto. }
  assert (missing s1 clan_tag !! t = Some (next_count (missing s clan_tag) t)) as Hm1.
  { rewrite Hm. by rewrite decide_True. }
  destruct (IH s1 Hwf1 Hin1 Hok) as (IHl & IHk & IHwf & IHm).
  { rewrite Hm1. simpl. unfold next_count. rewrite length_cons in Hlt. lia. }
  destruct (ticks LEAVE_DEBOUNCE_COUNT SKIP clan_tag (Some <$> polls) s1)
    as [out2 s2].
  simpl in *. split_and!; [|done|done|].
  - rewrite filter_app, IHl, Hnone; [done|tauto].
  - rewrite IHm, Hm1. simpl. unfold next_count. lia.
Qed.

(** The bounds of the counters are kept by every iteration. *)
Lemma counters_bounded_tick SKIP poll s :
  counters_known clan_tag s →
  counters_bounded LEAVE_DEBOUNCE_COUNT clan_tag s →
  counters_bounded LEAVE_DEBOUNCE_COUNT clan_tag
    (tick LEAVE_DEBOUNCE_COUNT SKIP clan_tag poll s).2.
Proof.
  intros Hwf Hb. destruct poll as [ml|]; [|done].
  destruct (decide (ml ≠ [] ∨ SKIP = false)) as [Hproc|Hskip].
  - destruct (tick_spec LEAVE_DEBOUNCE_COUNT clan_tag SKIP ml s Hproc Hwf)
      as (gone & _ & _ & _ & _ & Hm & _ & _).
    intros t n Hn. rewrite Hm in Hn. case_decide as Hc; [|done].
    simplify_eq. split; [|tauto]. unfold next_count.
    destruct (missing s clan_tag !! t) as [m|] eqn:Hmt; simpl; [|lia].
    apply Hb in Hmt. lia.
  - assert (ml = [] ∧ SKIP = true) as [-> ->]; [|done].
    destruct ml; [|by destruct Hskip; left]. destruct SKIP; [done|].
    by destruct Hskip; right.
Qed.

Lemma counters_bounded_ticks SKIP polls : ∀ s,
  counters_known clan_tag s →
  counters_bounded LEAVE_DEBOUNCE_COUNT clan_tag s →
  counters_bounded LEAVE_DEBOUNCE_COUNT clan_tag
    (ticks LEAVE_DEBOUNCE_COUNT SKIP clan_tag polls s).2.
Proof.
  induction polls as [|poll polls IH]; intros s Hwf Hb; [done|]. simpl.
  pose proof (counters_known_tick LEAVE_DEBOUNCE_COUNT clan_tag SKIP poll s Hwf) as H1.
  pose proof (counters_bounded_tick SKIP poll s Hwf Hb) as H2.
  destruct (tick LEAVE_DEBOUNCE_COUNT SKIP clan_tag poll s) as [out1 s1].
  specialize (IH s1 H1 H2).
  by destruct (ticks LEAVE_DEBOUNCE_COUNT SKIP clan_tag polls s1) as [out2 s2].
Qed.
End TrackerTiming.


(** X13: the miss counters the tracker stores stay within bounds: from
    the state in which [track_clan] enters its loop with no counters for
    the clan, after any sequence of polls (failed, empty, discarded or
    processed) every stored counter is at least 1 and below
    [LEAVE_DEBOUNCE_COUNT], and belongs to a tag of the known set.  A
    counter that reaches the threshold is never left behind. *)
Theorem miss_counters_stay_below_threshold (LEAVE_DEBOUNCE_COUNT : Z)
    (SKIP_EMPTY_MEMBER_LIST : bool) (clan_tag : string)
    (polls : list (option (list Tracker.member))) (s : Tracker.state) :
  Tracker.missing_counts s !! clan_tag = None →
  let s' := (Tracker.ticks LEAVE_DEBOUNCE_COUNT SKIP_EMPTY_MEMBER_LIST clan_tag
               polls (Tracker.start clan_tag s)).2 in
  ∀ t n, Tracker.missing s' clan_tag !! t = Some n →
         1 ≤ n < LEAVE_DEBOUNCE_COUNT ∧ t ∈ Tracker.known s' clan_tag.
Proof.
  intros Hnone s' t n Hn.
  pose proof (counters_known_start clan_tag s Hnone) as Hwf.
  split.
  - eapply (counters_bounded_ticks LEAVE_DEBOUNCE_COUNT clan_tag
              SKIP_EMPTY_MEMBER_LIST polls (Tracker.start clan_tag s)); [done| |done].
    intros t' n' Hn'. unfold Tracker.missing, Tracker.start in Hn'. simpl in Hn'.
    by rewrite Hnone in Hn'.
  - apply (counters_known_ticks LEAVE_DEBOUNCE_COUNT clan_tag
             SKIP_EMPTY_MEMBER_LIST polls (Tracker.start clan_tag s) Hwf). by exists n.
Qed.

Lemma miss_counters_stay_below_threshold_witness :
  let A := Tracker.Member (Some "#A"%string) (Some "a"%string) in
  let B := Tracker.Member (Some "#B"%string) (Some "b"%string) in
  let s' := (Tracker.ticks 3 true "#CLAN"
               [Some [A; B]; Some [A]; None; Some [A]]
               (Tracker.start "#CLAN" (Tracker.State ∅ ∅ ∅ ∅))).2 in
  Tracker.missing s' "#CLAN" !! "#B"%string = Some 2 ∧
  (1 ≤ 2 < 3 ∧ "#B"%string ∈ Tracker.known s' "#CLAN").
Proof.
  intros A B s'.
  assert (Tracker.missing s' "#CLAN" !! "#B"%string = Some 2) as H by (by vm_compute).
  split; [exact H|].
  exact (miss_counters_stay_below_threshold 3 true "#CLAN"
           [Some [A; B]; Some [A]; None; Some [A]] (Tracker.State ∅ ∅ ∅ ∅)
           eq_refl "#B"%string 2 H).
Defined.

(** X14: a leave is announced at the [LEAVE_DEBOUNCE_COUNT]-th
    consecutive miss and not before: when a known tag without a counter
    is absent from that many processed polls in a row, the first
    [LEAVE_DEBOUNCE_COUNT - 1] iterations announce no leave of it and
    keep it in the known set, and the last one announces its leave
    exactly once, removes it from the known set and drops its counter. *)
Theorem leave_at_the_threshold_miss (LEAVE_DEBOUNCE_COUNT : Z)
    (SKIP_EMPTY_MEMBER_LIST : bool) (clan_tag t : string)
    (polls : list (list Tracker.member)) (last : list Tracker.member)
    (s : Tracker.state) :
  Tracker.counters_known clan_tag s →
  t ∈ Tracker.known s clan_tag →
  Tracker.missing s clan_tag !! t = None →
  Z.of_nat (length polls) + 1 = LEAVE_DEBOUNCE_COUNT →
  Forall (λ ml, (ml ≠ [] ∨ SKIP_EMPTY_MEMBER_LIST = false) ∧
                t ∉ Tracker.current_tags ml) (polls ++ [last]) →
  let before := Tracker.ticks LEAVE_DEBOUNCE_COUNT SKIP_EMPTY_MEMBER_LIST clan_tag
                  (Some <$> polls) s in
  let r := Tracker.tick LEAVE_DEBOUNCE_COUNT SKIP_EMPTY_MEMBER_LIST clan_tag
             (Some last) before.2 in
  filter (TrackerNotions.is_leave_of t) before.1 = [] ∧
  t ∈ Tracker.known before.2 clan_tag ∧
  filter (TrackerNotions.is_leave_of t) r.1 = [Tracker.Leave clan_tag t] ∧
  (t ∉ Tracker.known r.2 clan_tag) ∧
  Tracker.missing r.2 clan_tag !! t = None.
Proof.
  intros Hwf Hin Hnone Hlen Hok before r.
  apply Forall_app in Hok as [Hok Hlast].
  apply Forall_singleton in Hlast as [Hproc Hmiss].
  destruct (misses_accumulate LEAVE_DEBOUNCE_COUNT clan_tag SKIP_EMPTY_MEMBER_LIST
              t polls s Hwf Hin Hok) as (Hl & Hk & Hwf' & Hm).
  { rewrite Hnone. simpl. lia. }
  fold before in Hl, Hk, Hwf', Hm.
  destruct (tick_leaves_of LEAVE_DEBOUNCE_COUNT clan_tag SKIP_EMPTY_MEMBER_LIST
              last before.2 t Hproc Hwf') as [Hleave _].
  fold r in Hleave.
  destruct Hleave as (H1 & H2 & H3).
  { split_and!; [done|done|]. unfold Tracker.next_count.
    rewrite Hm, Hnone. simpl. lia. }
  done.
Qed.

Lemma leave_at_the_threshold_miss_witness :
  let A := Tracker.Member (Some "#A"%string) (Some "a"%string) in
  let s := Tracker.State {[ "#CLAN"%string := {[ "#A"%string; "#B"%string ]} ]} ∅ ∅ ∅ in
  let before := Tracker.ticks 3 true "#CLAN" [Some [A]; Some [A]] s in
  let r := Tracker.tick 3 true "#CLAN" (Some [A]) before.2 in
  filter (TrackerNotions.is_leave_of "#B") before.1 = [] ∧
  filter (TrackerNotions.is_leave_of "#B") r.1 = [Tracker.Leave "#CLAN" "#B"].
Proof.
  intros A s before r.
  assert (Tracker.counters_known "#CLAN" s) as Hwf.
  { intros t [n Hn]. by vm_compute in Hn. }
  assert ("#B"%string ∈ Tracker.known s "#CLAN") as Hin by (by vm_compute; set_solver).
  assert (Forall (λ ml, (ml ≠ [] ∨ true = false) ∧
                        "#B"%string ∉ Tracker.current_tags ml) ([[A]; [A]] ++ [[A]])) as Hok.
  { repeat constructor; try (by left); compute_done. }
  destruct (leave_at_the_threshold_miss 3 true "#CLAN" "#B" [[A]; [A]] [A] s
              Hwf Hin eq_refl eq_refl Hok) as (H1 & _ & H3 & _).
  split; [exact H1|exact H3].
Defined.


Section TrackerJoins.
Import Tracker TrackerNotions.
Variable clan_tag : string.

Lemma filter_join_of_joins t (out : list effect) :
  filter (is_join_of t) out = filter (is_join_of t) (filter is_join out).
Proof.
  induction out as [|e out IH]; [done|].
  destruct e as [c|c|c p|c p|path tags];
    try (rewrite (filter_cons_False is_join) by (by intros ?);
         rewrite filter_cons_False by (by intros ?); done).
  rewrite (filter_cons_True is_join) by done.
  destruct (decide (is_join_of t (Join c p))) as [H|H].
  - rewrite !(filter_cons_True (is_join_of t)) by done. by rewrite IH.
  - rewrite !(filter_cons_False (is_join_of t)) by done. done.
Qed.

Lemma filter_join_of_fmap t (joins : list string) :
  NoDup joins →
  filter (is_join_of t) (Join clan_tag <$> joins)
  = if decide (t ∈ joins) then [Join clan_tag t] else [].
Proof.
  induction 1 as [|p joins Hp Hnd IH]; [done|]. rewrite fmap_cons.
  destruct (decide (p = t)) as [->|Hne].
  - rewrite filter_cons_True by (simpl; by rewrite bool_decide_eq_true_2).
    rewrite IH, decide_False by done. by rewrite decide_True by left.
  - rewrite filter_cons_False
      by (simpl; rewrite bool_decide_eq_false_2 by done; by intros ?).
    rewrite IH. destruct (decide (t ∈ joins)) as [Hin|Hin].
    + by rewrite decide_True by (by right).
    + rewrite decide_False; [done|]. intros [?|?]%elem_of_cons; by simplify_eq.
Qed.
End TrackerJoins.

(** X15: the joins of an iteration.  When the known set is not empty and
    the poll is processed, a join is announced for exactly the tags of
    the poll that were not known, each once whatever the number of
    roster entries carrying the tag, and in roster order; a tag that was
    known gets no join.  Every tag of the poll is known afterwards, has
    no miss counter and gets no leave in that iteration. *)
Theorem joins_are_the_unknown_tags (LEAVE_DEBOUNCE_COUNT : Z)
    (SKIP_EMPTY_MEMBER_LIST : bool) (clan_tag : string)
    (ml : list Tracker.member) (s : Tracker.state) :
  ml ≠ [] ∨ SKIP_EMPTY_MEMBER_LIST = false →
  Tracker.known s clan_tag ≠ ∅ →
  let cur := Tracker.current_tags ml in
  let r := Tracker.tick LEAVE_DEBOUNCE_COUNT SKIP_EMPTY_MEMBER_LIST clan_tag
             (Some ml) s in
  filter Tracker.is_join r.1
  = Tracker.Join clan_tag <$> filter (λ t, t ∉ Tracker.known s clan_tag) cur ∧
  (∀ t, filter (TrackerNotions.is_join_of t) r.1
        = if decide (t ∈ cur ∧ t ∉ Tracker.known s clan_tag)
          then [Tracker.Join clan_tag t] else []) ∧
  (∀ t, t ∈ cur →
        t ∈ Tracker.known r.2 clan_tag ∧
        Tracker.missing r.2 clan_tag !! t = None ∧
        filter (TrackerNotions.is_leave_of t) r.1 = []).
Proof.
  intros Hproc Hne cur r. subst r.
  rewrite (tick_processed LEAVE_DEBOUNCE_COUNT clan_tag _ _ _ Hproc).
  rewrite decide_False by done. fold cur.
  destruct (diff_spec LEAVE_DEBOUNCE_COUNT clan_tag s cur)
    as (Hj & Hl & Hk & Hm & _ & _).
  assert (NoDup (filter (λ t, t ∉ Tracker.known s clan_tag) cur)) as Hnd.
  { apply NoDup_filter, NoDup_first_occurrences. }
  split_and!.
  - exact Hj.
  - intros t. rewrite filter_join_of_joins, Hj, filter_join_of_fmap by done.
    destruct (decide (t ∈ cur ∧ t ∉ Tracker.known s clan_tag)) as [Hc|Hc].
    + rewrite decide_True; [done|]. apply list_elem_of_filter. tauto.
    + rewrite decide_False; [done|]. rewrite list_elem_of_filter. tauto.
  - intros t Hin.
    assert (t ∉ Tracker.confirmed LEAVE_DEBOUNCE_COUNT (Tracker.missing s clan_tag)
                  (Tracker.candidates (Tracker.known s clan_tag) cur)) as Hgone.
    { unfold Tracker.confirmed. rewrite list_elem_of_filter, elem_of_candidates. tauto. }
    split_and!.
    + rewrite Hk. apply elem_of_difference. split.
      * destruct (decide (t ∈ Tracker.known s clan_tag)) as [?|Hnew];
          [set_solver|].
        apply elem_of_union_r, elem_of_list_to_set, list_elem_of_filter. done.
      * by rewrite elem_of_list_to_set.
    + rewrite Hm. by rewrite decide_True.
    + rewrite (filter_leave_of_leaves t), Hl.
      rewrite (filter_leave_of_fmap clan_tag).
      * by rewrite decide_False.
      * apply NoDup_filter, NoDup_candidates.
Qed.

Lemma joins_are_the_unknown_tags_witness :
  let A := Tracker.Member (Some "#A"%string) (Some "a"%string) in
  let B := Tracker.Member (Some "#B"%string) (Some "b"%string) in
  let C := Tracker.Member (Some "#C"%string) None in
  let s := Tracker.State {[ "#CLAN"%string := {[ "#A"%string ]} ]} ∅ ∅ ∅ in
  filter Tracker.is_join (Tracker.tick 2 true "#CLAN" (Some [C; A; B; C]) s).1
  = [Tracker.Join "#CLAN" "#C"; Tracker.Join "#CLAN" "#B"].
Proof.
  intros A B C s.
  assert (Tracker.known s "#CLAN" ≠ ∅) as Hne.
  { intros He. assert ("#A"%string ∈ Tracker.known s "#CLAN") as Hin
      by (by vm_compute; set_solver).
    rewrite He in Hin. set_solver. }
  destruct (joins_are_the_unknown_tags 2 true "#CLAN" [C; A; B; C] s
              ltac:(by left) Hne) as (H & _).
  etrans; [exact H|]. by vm_compute.
Defined.


(** ** The simple tracker *)

Section ClanTrackerFacts.
Import Tracker.
Variable clan_tag : string.
Implicit Types (s : ClanTracker.state) (t : string).

Lemma simple_join_loop_spec (joins : list string) : ∀ s,
  ClanTracker.join_loop clan_tag joins s
  = (Join clan_tag <$> joins,
     ClanTracker.State (ClanTracker.member_cache s ∪ list_to_set joins)
                       (ClanTracker.files s)).
Proof.
  induction joins as [|p joins IH]; intros s.
  - simpl. destruct s as [c f]. simpl. f_equal. f_equal. set_solver.
  - cbn [ClanTracker.join_loop]. rewrite IH. simpl. do 2 f_equal. set_solver.
Qed.

Lemma simple_leave_loop_spec (leaves : list string) : ∀ s,
  NoDup leaves →
  (∀ t, t ∈ leaves → t ∈ ClanTracker.member_cache s) →
  let r := ClanTracker.leave_loop clan_tag leaves s in
  filter is_leave r.1 = Leave clan_tag <$> leaves ∧
  filter is_join r.1 = [] ∧
  ClanTracker.member_cache r.2 = ClanTracker.member_cache s ∖ list_to_set leaves ∧
  ClanTracker.files r.2 !! members_filename clan_tag
  = (match leaves with
     | [] => ClanTracker.files s !! members_filename clan_tag
     | _ => Some (elements (ClanTracker.member_cache r.2))
     end) ∧
  (∀ path, path ≠ members_filename clan_tag →
           ClanTracker.files r.2 !! path = ClanTracker.files s !! path).
Proof.
  induction leaves as [|p rest IH]; intros s Hnd Hin.
  { simpl. split_and!; try done. set_solver. }
  apply NoDup_cons in Hnd as [Hp Hnd].
  cbn [ClanTracker.leave_loop]. unfold ClanTracker.leave_one.
  rewrite bool_decide_eq_true_2 by (apply Hin; by left).
  cbn [ClanTracker.save_strict_cache ClanTracker.member_cache ClanTracker.files].
  set (s1 := ClanTracker.State _ _).
  destruct (IH s1 Hnd) as (Hl & Hj & Hc & Hf & Ho).
  { intros t Ht. subst s1. simpl. apply elem_of_difference. split.
    - apply Hin. by right.
    - intros ->%elem_of_singleton. done. }
  destruct (ClanTracker.leave_loop clan_tag rest s1) as [out2 s2].
  simpl in Hl, Hj, Hc, Hf, Ho. cbn [fst snd].
  split_and!.
  - rewrite fmap_cons. cbn [app]. rewrite filter_cons_True by done.
    rewrite filter_cons_False by (by intros ?). by rewrite Hl.
  - cbn [app]. rewrite !filter_cons_False by (by intros ?). done.
  - rewrite Hc. set_solver.
  - rewrite Hf. destruct rest; [|done]. subst s1. simpl.
    rewrite lookup_insert_eq. rewrite Hc. simpl. do 2 f_equal. set_solver.
  - intros path Hpath. rewrite Ho by done. subst s1. simpl.
    by rewrite lookup_insert_ne.
Qed.

(** One iteration on a roster that is not empty. *)
Lemma simple_tick_spec (ml : list member) s :
  ml ≠ [] →
  let cur := current_tags ml in
  let K := ClanTracker.member_cache s in
  let joins := filter (λ t, t ∉ K) cur in
  let gone := filter (λ t, t ∉ cur) (elements (K ∪ list_to_set joins)) in
  let r := ClanTracker.tick clan_tag ml s in
  filter is_join r.1 = Join clan_tag <$> joins ∧
  filter is_leave r.1 = Leave clan_tag <$> gone ∧
  ClanTracker.member_cache r.2 = list_to_set cur ∧
  ClanTracker.files r.2 !! members_filename clan_tag
  = (if decide (joins = [] ∧ gone = [])
     then ClanTracker.files s !! members_filename clan_tag
     else Some (elements (list_to_set cur : gset string))) ∧
  (∀ path, path ≠ members_filename clan_tag →
           ClanTracker.files r.2 !! path = ClanTracker.files s !! path).
Proof.
  intros Hne cur K joins gone. unfold ClanTracker.tick.
  destruct ml as [|m ml']; [done|]. fold cur. fold K. fold joins.
  rewrite simple_join_loop_spec. fold K.
  set (s1 := ClanTracker.State (K ∪ list_to_set joins) (ClanTracker.files s)).
  set (saved := match joins with
                | [] => ([], s1)
                | _ => ClanTracker.save_strict_cache clan_tag s1
                end).
  assert (ClanTracker.member_cache saved.2 = K ∪ list_to_set joins) as Hc2.
  { subst saved. by destruct joins. }
  assert (filter is_join saved.1 = [] ∧ filter is_leave saved.1 = []) as [Hj2 Hl2].
  { subst saved. by destruct joins. }
  assert (ClanTracker.files saved.2 !! members_filename clan_tag
          = match joins with
            | [] => ClanTracker.files s !! members_filename clan_tag
            | _ => Some (elements (K ∪ list_to_set joins))
            end) as Hf2.
  { subst saved. destruct joins; [done|]. simpl. by rewrite lookup_insert_eq. }
  assert (∀ path, path ≠ members_filename clan_tag →
            ClanTracker.files saved.2 !! path = ClanTracker.files s !! path) as Ho2.
  { intros path Hpath. subst saved. destruct joins; [done|]. simpl.
    by rewrite lookup_insert_ne. }
  destruct saved as [out2 s2]. simpl in Hc2, Hj2, Hl2, Hf2, Ho2.
  rewrite Hc2. fold gone.
  destruct (simple_leave_loop_spec gone s2) as (Hl & Hj & Hc & Hf & Ho).
  { apply NoDup_filter, NoDup_elements. }
  { intros t [_ Ht]%list_elem_of_filter. rewrite Hc2. by apply elem_of_elements. }
  destruct (ClanTracker.leave_loop clan_tag gone s2) as [out3 s3].
  simpl in Hl, Hj, Hc, Hf, Ho. cbn [fst snd].
  assert (ClanTracker.member_cache s3 = list_to_set cur) as Hfinal.
  { rewrite Hc, Hc2. apply set_eq. intros t.
    rewrite elem_of_difference, elem_of_union, !elem_of_list_to_set.
    subst gone joins. rewrite !list_elem_of_filter, elem_of_elements.
    rewrite elem_of_union, elem_of_list_to_set, list_elem_of_filter.
    destruct (decide (t ∈ K)); destruct (decide (t ∈ cur)); tauto. }
  split_and!.
  - rewrite !filter_app, Hj2, Hj, !app_nil_r. apply filter_is_join_joins.
  - rewrite !filter_app, Hl2, Hl. cbn [app].
    rewrite filter_is_leave_joins. done.
  - exact Hfinal.
  - rewrite Hf. destruct gone as [|g gone'] eqn:Hg.
    + rewrite Hf2. destruct joins as [|j joins'] eqn:Hjs.
      * by rewrite decide_True.
      * rewrite decide_False by (by intros [? _]).
        rewrite Hc, Hc2 in Hfinal. rewrite <- Hfinal. do 2 f_equal. set_solver.
    + rewrite decide_False by (by intros [_ ?]). by rewrite Hfinal.
  - intros path Hpath. rewrite Ho by done. by apply Ho2.
Qed.
End ClanTrackerFacts.


Section ClanTrackerQuiet.
Import Tracker.
Variable clan_tag : string.

Lemma filter_none {A} (P : A → Prop) `{∀ x, Decision (P x)} (l : list A) :
  (∀ x, x ∈ l → ¬ P x) → filter P l = [].
Proof.
  induction l as [|x l IH]; intros Hall; [done|].
  rewrite filter_cons_False by (apply Hall; by left).
  apply IH. intros y Hy. apply Hall. by right.
Qed.

(** A roster whose tags are the member cache changes nothing. *)
Lemma simple_tick_same (ml : list member) (s : ClanTracker.state) :
  ClanTracker.member_cache s = list_to_set (current_tags ml) →
  ClanTracker.tick clan_tag ml s = ([], s).
Proof.
  intros Hsame. unfold ClanTracker.tick. destruct ml as [|m ml']; [done|].
  set (cur := current_tags (m :: ml')) in *.
  assert (filter (λ t, t ∉ ClanTracker.member_cache s) cur = []) as ->.
  { apply filter_none. intros t Ht Hnot. apply Hnot. rewrite Hsame.
    by apply elem_of_list_to_set. }
  cbn [ClanTracker.join_loop].
  assert (filter (λ t, t ∉ cur) (elements (ClanTracker.member_cache s)) = []) as ->.
  { apply filter_none. intros t Ht Hnot. apply Hnot.
    apply elem_of_elements in Ht. rewrite Hsame in Ht.
    by apply elem_of_list_to_set in Ht. }
  done.
Qed.
End ClanTrackerQuiet.

(** X16: the tracker of trackers.py has no baseline and no debounce.  On
    a roster that is not empty, it announces a join for every tag of the
    roster that is not in the member cache (roster order), a leave for
    every cached tag that the roster lacks, each once, and ends with the
    member cache equal to the set of the roster's tags; the member file
    is rewritten with that set unless the cache was that set already. *)
Theorem simple_tracker_follows_the_roster (clan_tag : string)
    (ml : list Tracker.member) (s : ClanTracker.state) :
  ml ≠ [] →
  let cur := Tracker.current_tags ml in
  let K := ClanTracker.member_cache s in
  let r := ClanTracker.tick clan_tag ml s in
  ClanTracker.member_cache r.2 = list_to_set cur ∧
  filter Tracker.is_join r.1 = Tracker.Join clan_tag <$> filter (λ t, t ∉ K) cur ∧
  (∃ gone, filter Tracker.is_leave r.1 = Tracker.Leave clan_tag <$> gone ∧
           NoDup gone ∧ ∀ t, t ∈ gone ↔ t ∈ K ∧ t ∉ cur) ∧
  ClanTracker.files r.2 !! Tracker.members_filename clan_tag
  = (if decide (K = list_to_set cur)
     then ClanTracker.files s !! Tracker.members_filename clan_tag
     else Some (elements (ClanTracker.member_cache r.2))).
Proof.
  intros Hne cur K r.
  destruct (simple_tick_spec clan_tag ml s Hne) as (Hj & Hl & Hc & Hf & _).
  fold cur K r in Hj, Hl, Hc, Hf.
  set (joins := filter (λ t, t ∉ K) cur) in *.
  set (gone := filter (λ t, t ∉ cur) (elements (K ∪ list_to_set joins))) in *.
  assert (∀ t, t ∈ gone ↔ t ∈ K ∧ t ∉ cur) as Hgone.
  { intros t. subst gone joins.
    rewrite list_elem_of_filter, elem_of_elements, elem_of_union.
    rewrite elem_of_list_to_set, list_elem_of_filter. tauto. }
  split_and!; [done|done| |].
  - exists gone. split_and!; [done| |done]. apply NoDup_filter, NoDup_elements.
  - rewrite Hf, Hc. destruct (decide (K = list_to_set cur)) as [Heq|Hneq].
    + rewrite decide_True; [done|]. split.
      * apply filter_none. intros t Ht Hnot. apply Hnot. rewrite Heq.
        by apply elem_of_list_to_set.
      * destruct gone as [|g gone'] eqn:Hg; [done|].
        assert (g ∈ K ∧ g ∉ cur) as [Hg1 Hg2] by (apply Hgone; by left).
        rewrite Heq in Hg1. by apply elem_of_list_to_set in Hg1.
    + rewrite decide_False; [done|]. intros [Hjs Hgs]. apply Hneq.
      apply set_eq. intros t. rewrite elem_of_list_to_set. split.
      * intros Ht. destruct (decide (t ∈ cur)) as [|Hnot]; [done|].
        assert (t ∈ gone) as Hin by (by apply Hgone). rewrite Hgs in Hin.
        by apply elem_of_nil in Hin.
      * intros Ht. destruct (decide (t ∈ K)) as [|Hnot]; [done|].
        assert (t ∈ joins) as Hin by (by apply list_elem_of_filter).
        rewrite Hjs in Hin. by apply elem_of_nil in Hin.
Qed.

Lemma simple_tracker_follows_the_roster_witness :
  let A := Tracker.Member (Some "#A"%string) (Some "a"%string) in
  let C := Tracker.Member (Some "#C"%string) None in
  let s := ClanTracker.State {[ "#A"%string; "#B"%string ]} ∅ in
  let r := ClanTracker.tick "#CLAN" [C; A; C] s in
  ClanTracker.member_cache r.2 = {[ "#A"%string; "#C"%string ]} ∧
  filter Tracker.is_join r.1 = [Tracker.Join "#CLAN" "#C"].
Proof.
  intros A C s r.
  destruct (simple_tracker_follows_the_roster "#CLAN" [C; A; C] s ltac:(discriminate))
    as (H1 & H2 & _).
  split.
  - etrans; [exact H1|]. by vm_compute.
  - etrans; [exact H2|]. by vm_compute.
Defined.

(** X17: polling an unchanged roster is silent: after an iteration on a
    roster that is not empty, an iteration on any roster with the same
    set of tags (or on an empty answer) announces nothing, writes no
    file and leaves the member cache as it is.  The first iteration on
    an empty member cache, in contrast, announces every tag of the
    roster as a join. *)
Theorem simple_tracker_repoll_is_silent (clan_tag : string)
    (ml ml' : list Tracker.member) (s : ClanTracker.state) :
  ml ≠ [] →
  ml' = [] ∨
  (list_to_set (Tracker.current_tags ml') : gset string)
  = list_to_set (Tracker.current_tags ml) →
  let r := ClanTracker.tick clan_tag ml s in
  ClanTracker.tick clan_tag ml' r.2 = ([], r.2) ∧
  (ClanTracker.member_cache s = ∅ →
   filter Tracker.is_join r.1
   = Tracker.Join clan_tag <$> Tracker.current_tags ml).
Proof.
  intros Hne Hsame r. split.
  - destruct Hsame as [->|Hsame]; [done|].
    apply simple_tick_same. rewrite Hsame.
    by destruct (simple_tick_spec clan_tag ml s Hne) as (_ & _ & Hc & _).
  - intros Hempty.
    destruct (simple_tick_spec clan_tag ml s Hne) as (Hj & _).
    fold r in Hj. rewrite Hj. f_equal.
    assert (∀ l : list string,
              filter (λ t, t ∉ ClanTracker.member_cache s) l = l) as Hall.
    { induction l as [|t l IH]; [done|].
      rewrite filter_cons_True; [by rewrite IH|]. rewrite Hempty. set_solver. }
    apply Hall.
Qed.

Lemma simple_tracker_repoll_is_silent_witness :
  let A := Tracker.Member (Some "#A"%string) (Some "a"%string) in
  let B := Tracker.Member (Some "#B"%string) (Some "b"%string) in
  let s := ClanTracker.State ∅ ∅ in
  let r := ClanTracker.tick "#CLAN" [A; B] s in
  ClanTracker.tick "#CLAN" [B; A; B] r.2 = ([], r.2).
Proof.
  intros A B s r.
  assert ((list_to_set (Tracker.current_tags [B; A; B]) : gset string)
          = list_to_set (Tracker.current_tags [A; B])) as Hsame.
  { apply set_eq. intros t. rewrite !elem_of_list_to_set.
    change (t ∈ ["#B"; "#A"]%string ↔ t ∈ ["#A"; "#B"]%string).
    rewrite !elem_of_cons. rewrite !elem_of_nil. tauto. }
  by destruct (simple_tracker_repoll_is_silent "#CLAN" [A; B] [B; A; B] s
                 ltac:(discriminate) (or_intror Hsame)) as (H & _).
Defined.


(** ** The war tracker *)

Section WarFacts.
Import WarTracker.
Context {A : Type}.
Implicit Types (d prev : dict A) (ms : list (member A)) (t k : string).

Lemma get_assign t k (v : list A) d :
  get t (assign k v d) = if decide (k = t) then Some v else get t d.
Proof.
  induction d as [|[k' v'] d IH]; simpl.
  - by destruct (decide (k = t)).
  - destruct (decide (k' = k)) as [->|Hne]; simpl.
    + by destruct (decide (k = t)).
    + rewrite IH. destruct (decide (k' = t)) as [->|]; [|done].
      by rewrite decide_False by done.
Qed.

Lemma get_None_keys t d : get t d = None ↔ t ∉ d.*1.
Proof.
  induction d as [|[k' v'] d IH]; simpl.
  - split; [intros _; apply not_elem_of_nil|done].
  - rewrite not_elem_of_cons. destruct (decide (k' = t)) as [->|Hne].
    + split; [done|]. by intros [? _].
    + rewrite IH. split; [by intros ?; split|by intros [_ ?]].
Qed.

Lemma elem_of_keys_assign t k (v : list A) d :
  t ∈ (assign k v d).*1 ↔ t = k ∨ t ∈ d.*1.
Proof.
  induction d as [|[k' v'] d IH]; simpl.
  - rewrite list_elem_of_singleton, elem_of_nil. tauto.
  - destruct (decide (k' = k)) as [->|Hne]; simpl.
    + rewrite elem_of_cons. tauto.
    + rewrite !elem_of_cons, IH. tauto.
Qed.

Lemma NoDup_keys_assign k (v : list A) d :
  NoDup d.*1 → NoDup (assign k v d).*1.
Proof.
  induction d as [|[k' v'] d IH]; simpl; intros Hnd.
  - apply NoDup_singleton.
  - apply NoDup_cons in Hnd as [Hk Hnd].
    destruct (decide (k' = k)) as [->|Hne]; simpl.
    + by apply NoDup_cons.
    + apply NoDup_cons. split; [|by apply IH].
      rewrite elem_of_keys_assign. intros [?|?]; by simplify_eq.
Qed.

Lemma current_map_loop t ms : ∀ d,
  let d' := foldl (λ d m, match tagged m with
                          | Some t => assign t (attacks m) d
                          | None => d
                          end) d ms in
  get t d' = match latest t ms with Some a => Some a | None => get t d end ∧
  (NoDup d.*1 → NoDup d'.*1).
Proof.
  induction ms as [|m ms IH]; intros d; [done|].
  cbn [foldl latest]. cbv zeta.
  set (d1 := match tagged m with Some t0 => assign t0 (attacks m) d | None => d end).
  destruct (IH d1) as [Hget Hnd]. cbv zeta in Hget, Hnd. split.
  - rewrite Hget. destruct (latest t ms) as [a|]; [done|].
    subst d1. destruct (tagged m) as [t0|].
    + rewrite get_assign.
      destruct (decide (t0 = t)) as [->|Hne].
      * by rewrite decide_True.
      * rewrite decide_False; [done|]. by intros [= ?].
    + by rewrite decide_False.
  - intros Hd. apply Hnd. subst d1. destruct (tagged m); [|done].
    by apply NoDup_keys_assign.
Qed.

Lemma get_current_map t ms : get t (current_map ms) = latest t ms.
Proof.
  destruct (current_map_loop t ms []) as [H _]. cbv zeta in H.
  unfold current_map. rewrite H. by destruct (latest t ms).
Qed.

Lemma NoDup_current_map ms : NoDup (current_map ms).*1.
Proof.
  destruct (current_map_loop "" ms []) as [_ H]. apply H. constructor.
Qed.

Lemma hits_of_app t (out1 out2 : list (effect A)) :
  hits_of t (out1 ++ out2) = hits_of t out1 ++ hits_of t out2.
Proof. apply omap_app. Qed.

Lemma hits_of_announce t ms prev k (v : list A) :
  hits_of t (announce ms prev k v)
  = if decide (k = t) then drop (length (default [] (get t prev))) v else [].
Proof.
  unfold announce. case_bool_decide as Hlen.
  - destruct (decide (k = t)) as [->|Hne].
    + generalize (drop (length (default [] (get t prev))) v). intros l.
      induction l as [|a l IH]; [done|]. rewrite fmap_cons. unfold hits_of.
      cbn [omap list_omap]. rewrite decide_True by done. simpl. f_equal. apply IH.
    + generalize (drop (length (default [] (get k prev))) v). intros l.
      induction l as [|a l IH]; [done|]. rewrite fmap_cons. unfold hits_of.
      cbn [omap list_omap]. rewrite decide_False by done. simpl. apply IH.
  - destruct (decide (k = t)) as [->|Hne]; [|done].
    simpl. symmetry. apply drop_ge. lia.
Qed.

Lemma hits_of_items t ms prev d :
  NoDup d.*1 →
  hits_of t (flat_map (λ '(k, v), announce ms prev k v) d)
  = drop (length (default [] (get t prev))) (default [] (get t d)).
Proof.
  induction d as [|[k v] d IH]; intros Hnd.
  - simpl. by rewrite drop_nil.
  - apply NoDup_cons in Hnd as [Hk Hnd]. cbn [flat_map].
    rewrite hits_of_app, hits_of_announce, IH by done. cbn [get].
    destruct (decide (k = t)) as [->|Hne].
    + apply get_None_keys in Hk. simpl in Hk.
      rewrite Hk. simpl. by rewrite drop_nil, app_nil_r.
    + done.
Qed.

(** One iteration while the war is on. *)
Lemma war_tick_spec clan_tag (w : war A) (s : state A) t :
  war_state w = Some "inWar"%string →
  let r := tick clan_tag (Some w) s in
  hits_of t r.1
  = drop (length (default [] (get t (war_baseline s))))
         (default [] (latest t (members w))) ∧
  get t (war_baseline r.2) = latest t (members w) ∧
  war_baseline r.2 = current_map (members w) ∧
  files r.2 = <[war_filename clan_tag := war_baseline r.2]> (files s).
Proof.
  intros Hwar. unfold tick. rewrite bool_decide_eq_true_2 by done. simpl.
  split_and!; [|apply get_current_map|done|done].
  rewrite hits_of_app. simpl. rewrite app_nil_r.
  rewrite hits_of_items by apply NoDup_current_map.
  by rewrite get_current_map.
Qed.
End WarFacts.


Section WarRuns.
Import WarTracker.
Context {A : Type}.

Lemma war_tick_idle clan_tag (w : option (war A)) (s : state A) :
  idle w → tick clan_tag w s = ([], s).
Proof.
  destruct w as [w|]; [|done]. simpl. intros Hidle.
  by rewrite bool_decide_eq_false_2.
Qed.

Lemma war_ticks_idle clan_tag (polls : list (option (war A))) (s : state A) :
  Forall idle polls → ticks clan_tag polls s = ([], s).
Proof.
  induction 1 as [|w polls Hw _ IH]; [done|].
  cbn [ticks]. rewrite war_tick_idle by done. by rewrite IH.
Qed.

Lemma war_ticks_app clan_tag (polls1 polls2 : list (option (war A))) (s : state A) :
  ticks clan_tag (polls1 ++ polls2) s
  = let r1 := ticks clan_tag polls1 s in
    let r2 := ticks clan_tag polls2 r1.2 in
    (r1.1 ++ r2.1, r2.2).
Proof.
  revert s. induction polls1 as [|w polls1 IH]; intros s.
  - simpl. by destruct (ticks clan_tag polls2 s).
  - cbn [app ticks]. destruct (tick clan_tag w s) as [out1 s1].
    rewrite IH. cbv zeta. destruct (ticks clan_tag polls1 s1) as [out2 s2].
    simpl. destruct (ticks clan_tag polls2 s2) as [out3 s3]. simpl.
    by rewrite app_assoc.
Qed.
End WarRuns.

(** X18: while the war is on, an iteration of the war tracker announces
    for each member the attacks beyond the number recorded for that
    member by the baseline (none when the list did not grow), replaces
    the baseline by the roster's attack lists and writes it to the war
    file, so that a tracker restarted from the files resumes with that
    baseline. *)
Theorem war_hits_are_the_attacks_beyond_the_baseline {A : Type} (clan_tag : string)
    (w : WarTracker.war A) (s : WarTracker.state A) :
  WarTracker.war_state w = Some "inWar"%string →
  let r := WarTracker.tick clan_tag (Some w) s in
  (∀ t, WarTracker.hits_of t r.1
        = drop (length (default [] (WarTracker.get t (WarTracker.war_baseline s))))
               (default [] (WarTracker.latest t (WarTracker.members w))) ∧
        WarTracker.get t (WarTracker.war_baseline r.2)
        = WarTracker.latest t (WarTracker.members w)) ∧
  WarTracker.war_baseline (WarTracker.start clan_tag (WarTracker.files r.2))
  = WarTracker.war_baseline r.2.
Proof.
  intros Hwar r. split.
  - intros t.
    by destruct (war_tick_spec clan_tag w s t Hwar) as (H1 & H2 & _).
  - destruct (war_tick_spec clan_tag w s "" Hwar) as (_ & _ & _ & Hf).
    fold r in Hf. unfold WarTracker.start. simpl.
    by rewrite Hf, lookup_insert_eq.
Qed.

Lemma war_hits_are_the_attacks_beyond_the_baseline_witness :
  let w := WarTracker.War (Some "inWar"%string)
             [WarTracker.Member (Some "#A"%string) (Some "a"%string) [1; 2; 3];
              WarTracker.Member (Some "#B"%string) None [4]] in
  let s := WarTracker.State [("#A"%string, [1]); ("#B"%string, [4])] ∅ in
  WarTracker.hits_of "#A" (WarTracker.tick "#CLAN" (Some w) s).1 = [2; 3] ∧
  WarTracker.hits_of "#B" (WarTracker.tick "#CLAN" (Some w) s).1 = [].
Proof.
  intros w s.
  destruct (war_hits_are_the_attacks_beyond_the_baseline "#CLAN" w s eq_refl)
    as (H & _).
  split.
  - by destruct (H "#A"%string) as (-> & _).
  - by destruct (H "#B"%string) as (-> & _).
Defined.

(** X19: an attack is announced once.  After a processed poll in which a
    member has the attacks [a], the next processed poll, whatever the
    number of idle polls in between, announces for that member exactly
    what its list has beyond the length of [a]: the new attacks when the
    list has grown, nothing when it is unchanged or shorter. *)
Theorem war_growth_is_announced_once {A : Type} (clan_tag t : string)
    (w1 w2 : WarTracker.war A) (between : list (option (WarTracker.war A)))
    (s : WarTracker.state A) (a a2 : list A) :
  WarTracker.war_state w1 = Some "inWar"%string →
  WarTracker.war_state w2 = Some "inWar"%string →
  Forall WarTracker.idle between →
  WarTracker.latest t (WarTracker.members w1) = Some a →
  WarTracker.latest t (WarTracker.members w2) = Some a2 →
  let s1 := (WarTracker.tick clan_tag (Some w1) s).2 in
  let r := WarTracker.ticks clan_tag (between ++ [Some w2]) s1 in
  WarTracker.hits_of t r.1 = drop (length a) a2 ∧
  (∀ extra, a2 = a ++ extra → WarTracker.hits_of t r.1 = extra) ∧
  (length a2 ≤ length a → WarTracker.hits_of t r.1 = [])%nat.
Proof.
  intros Hw1 Hw2 Hidle Ha Ha2 s1 r.
  assert (WarTracker.hits_of t r.1 = drop (length a) a2) as Hhits.
  { subst r. rewrite war_ticks_app, war_ticks_idle by done. cbv zeta.
    cbn [fst snd app WarTracker.ticks].
    destruct (war_tick_spec clan_tag w1 s t Hw1) as (_ & Hget & _).
    fold s1 in Hget.
    destruct (war_tick_spec clan_tag w2 s1 t Hw2) as (Hh & _).
    destruct (WarTracker.tick clan_tag (Some w2) s1) as [out2 s2].
    simpl in *. rewrite app_nil_r, Hh, Hget, Ha, Ha2. done. }
  split_and!; [done| |].
  - intros extra ->. rewrite Hhits. by rewrite drop_app_length.
  - intros Hle. rewrite Hhits. by apply drop_ge.
Qed.

Lemma war_growth_is_announced_once_witness :
  let w1 := WarTracker.War (Some "inWar"%string)
              [WarTracker.Member (Some "#A"%string) (Some "a"%string) [1; 2]] in
  let w2 := WarTracker.War (Some "inWar"%string)
              [WarTracker.Member (Some "#A"%string) (Some "a"%string) [1; 2; 3]] in
  let idle := WarTracker.War (Some "preparation"%string) [] in
  let s1 := (WarTracker.tick "#CLAN" (Some w1) (WarTracker.State [] ∅)).2 in
  WarTracker.hits_of "#A" (WarTracker.ticks "#CLAN" ([None; Some idle] ++ [Some w2]) s1).1
  = [3].
Proof.
  intros w1 w2 idle s1.
  assert (Forall WarTracker.idle [None; Some idle]) as Hidle.
  { repeat constructor. by intros [= ?]. }
  destruct (war_growth_is_announced_once "#CLAN" "#A" w1 w2 [None; Some idle]
              (WarTracker.State [] ∅) [1; 2] [1; 2; 3]
              eq_refl eq_refl Hidle eq_refl eq_refl) as (_ & H & _).
  exact (H [3] eq_refl).
Defined.

(** X20: the baseline is the last processed roster only.  A member that
    a processed poll does not list is forgotten: when it is listed again,
    all its attacks are announced, also those announced before. *)
Theorem absent_member_is_announced_again {A : Type} (clan_tag t : string)
    (w2 w3 : WarTracker.war A) (s : WarTracker.state A) :
  WarTracker.war_state w2 = Some "inWar"%string →
  WarTracker.latest t (WarTracker.members w2) = None →
  WarTracker.war_state w3 = Some "inWar"%string →
  let s2 := (WarTracker.tick clan_tag (Some w2) s).2 in
  WarTracker.get t (WarTracker.war_baseline s2) = None ∧
  WarTracker.hits_of t (WarTracker.tick clan_tag (Some w3) s2).1
  = default [] (WarTracker.latest t (WarTracker.members w3)).
Proof.
  intros Hw2 Habsent Hw3 s2.
  destruct (war_tick_spec clan_tag w2 s t Hw2) as (_ & Hget & _).
  fold s2 in Hget. rewrite Habsent in Hget.
  destruct (war_tick_spec clan_tag w3 s2 t Hw3) as (Hh & _).
  split; [done|]. rewrite Hh, Hget. done.
Qed.

Lemma absent_member_is_announced_again_witness :
  let w1 := WarTracker.War (Some "inWar"%string)
              [WarTracker.Member (Some "#A"%string) (Some "a"%string) [1; 2]] in
  let w2 := WarTracker.War (Some "inWar"%string)
              [WarTracker.Member (Some "#B"%string) None []] in
  let s1 := (WarTracker.tick "#CLAN" (Some w1) (WarTracker.State [] ∅)).2 in
  let s2 := (WarTracker.tick "#CLAN" (Some w2) s1).2 in
  WarTracker.hits_of "#A" (WarTracker.tick "#CLAN" (Some w1) s1).1 = [] ∧
  WarTracker.hits_of "#A" (WarTracker.tick "#CLAN" (Some w1) s2).1 = [1; 2].
Proof.
  intros w1 w2 s1 s2. split; [by vm_compute|].
  destruct (absent_member_is_announced_again "#CLAN" "#A" w2 w1 s1
              eq_refl eq_refl eq_refl) as (_ & H).
  etrans; [exact H|]. by vm_compute.
Defined.


(** ** The snapshot store *)

Section DonationStoreFacts.
Import Donations DonationStore.
Implicit Types (l : list snapshot) (x s : snapshot).

#[local] Instance date_ge_trans : Transitive date_ge.
Proof. intros a b c Hab Hbc. unfold date_ge, date_le in *. by eapply string_leb_trans. Qed.

#[local] Instance date_le_trans' : Transitive date_le.
Proof. intros a b c. apply string_leb_trans. Qed.

Lemma insert_by_date_reverse_perm x l : insert_by_date_reverse x l ≡ₚ x :: l.
Proof.
  induction l as [|y l IH]; [done|]. simpl.
  destruct (String.leb (date y) (date x)); [done|].
  rewrite IH. apply Permutation_swap.
Qed.

Lemma sorted_reverse_perm l : sorted_reverse l ≡ₚ l.
Proof.
  induction l as [|x l IH]; [done|]. simpl.
  by rewrite insert_by_date_reverse_perm, IH.
Qed.

Lemma insert_by_date_reverse_sorted x l :
  StronglySorted date_ge l → StronglySorted date_ge (insert_by_date_reverse x l).
Proof.
  induction l as [|y l IH]; intros Hl; simpl.
  { repeat constructor. }
  apply StronglySorted_cons in Hl as [Hy Hl].
  destruct (String.leb (date y) (date x)) eqn:Hxy.
  - apply StronglySorted_cons. split; [|by apply StronglySorted_cons].
    constructor; [done|].
    eapply Forall_impl; [exact Hy|]. intros z Hz. by trans y.
  - apply StronglySorted_cons. split; [|by apply IH].
    rewrite insert_by_date_reverse_perm. constructor; [|done].
    apply string_leb_false in Hxy. by apply string_ltb_leb in Hxy as [? _].
Qed.

Lemma sorted_reverse_sorted l : StronglySorted date_ge (sorted_reverse l).
Proof.
  induction l as [|x l IH]; simpl;
    [constructor|by apply insert_by_date_reverse_sorted].
Qed.

(** The head of a sorted list bounds the list. *)
Lemma head_sorted_reverse l :
  l ≠ [] →
  ∃ s, head (sorted_reverse l) = Some s ∧ s ∈ l ∧ ∀ x, x ∈ l → date_le x s.
Proof.
  intros Hne. pose proof (sorted_reverse_perm l) as Hp.
  pose proof (sorted_reverse_sorted l) as Hs.
  destruct (sorted_reverse l) as [|s rest].
  { symmetry in Hp. by apply Permutation_nil_r in Hp. }
  exists s. split_and!; [done| |].
  - rewrite <- Hp. by left.
  - intros x Hx. rewrite <- Hp in Hx. apply StronglySorted_cons in Hs as [Hall _].
    apply elem_of_cons in Hx as [->|Hx]; [apply string_leb_refl|].
    by apply (proj1 (Forall_forall _ _) Hall).
Qed.


Lemma StronglySorted_take {X} (R : relation X) (l : list X) n :
  StronglySorted R l → StronglySorted R (take n l).
Proof.
  intros Hl. rewrite <- (take_drop n l) in Hl.
  by apply StronglySorted_app_1_l in Hl.
Qed.

(** The position of a month in the ascending list. *)
Lemma month_position l (M : string) :
  (∃ s, s ∈ l ∧ date s = M) →
  ∃ j t, list_find (λ s, date s = M) (sorted l) = Some (j, t) ∧
         (j = 0%nat ↔ ∀ s, s ∈ l → String.ltb (date s) M = false) ∧
         (j ≠ 0%nat → is_Some (sorted l !! pred j)).
Proof.
  intros (target & Htarget & Hdate).
  assert (is_Some (list_find (λ s, date s = M) (sorted l))) as [[j t] Hj].
  { apply (list_find_elem_of _ _ target); [|done]. by rewrite sorted_perm. }
  exists j, t. split; [done|].
  apply list_find_Some in Hj as (Hjl & Hjdate & Hjmin).
  pose proof (sorted_sorted l) as Hsorted.
  split; [split|].
  - intros -> s Hs. destruct (String.ltb (date s) M) eqn:Hlt; [|done]. exfalso.
    assert (s ∈ sorted l) as Hs' by (by rewrite sorted_perm).
    apply list_elem_of_lookup in Hs' as [k Hk].
    apply string_ltb_leb in Hlt as [Hle Hne].
    destruct k as [|k].
    + rewrite Hjl in Hk. by simplify_eq.
    + assert (date_le t s) as Hle'.
      { eapply (StronglySorted_lookup _ 0 (S k)); [done|done|done|lia]. }
      unfold date_le in Hle'. rewrite Hjdate in Hle'.
      apply Hne. by apply String.leb_antisym.
  - intros Hnone. destruct j as [|j']; [done|]. exfalso.
    assert (is_Some (sorted l !! j')) as [prev Hprev].
    { apply lookup_lt_is_Some. apply lookup_lt_Some in Hjl. lia. }
    assert (date_le prev t) as Hle.
    { eapply (StronglySorted_lookup _ j' (S j')); [done|done|done|lia]. }
    assert (String.ltb (date prev) M = true) as Hlt.
    { apply string_ltb_leb. split.
      - unfold date_le in Hle. by rewrite Hjdate in Hle.
      - apply (Hjmin j' prev Hprev). lia. }
    rewrite Hnone in Hlt; [done|].
    assert (prev ∈ sorted l) as Hin by (apply list_elem_of_lookup; eauto).
    by rewrite sorted_perm in Hin.
  - intros Hj0. destruct j as [|j']; [done|]. simpl.
    apply lookup_lt_is_Some. apply lookup_lt_Some in Hjl. lia.
Qed.

(** The outcome of [calculate_monthly_donations] by cases. *)
Lemma calculate_cases (snapshots : gmap string (list snapshot))
    (clan_tag month_key : string) :
  let l := default [] (snapshots !! clan_tag) in
  let r := calculate_monthly_donations snapshots clan_tag month_key in
  ((∀ s, s ∈ l → date s ≠ month_key) → r = None) ∧
  ((∃ s, s ∈ l ∧ date s = month_key) →
   ∃ rep, r = Some rep ∧ month rep = month_key ∧
          ((∀ s, s ∈ l → String.ltb (date s) month_key = false) →
           rep = Report month_key ∅ 0 (Some first_snapshot_note)) ∧
          ((∃ s, s ∈ l ∧ String.ltb (date s) month_key = true) →
           note rep = None)).
Proof.
  intros l r. subst r. unfold calculate_monthly_donations. fold l. split.
  - intros Hnone. destruct l as [|s0 rest] eqn:Hl; [done|].
    assert (list_find (λ s, date s = month_key) (s0 :: rest) = None) as ->; [|done].
    apply list_find_None. apply Forall_forall. intros s Hs. by apply Hnone.
  - intros (target & Htarget & Hdate).
    destruct l as [|s0 rest] eqn:Hl; [by apply elem_of_nil in Htarget|].
    rewrite <- Hl in *.
    assert (is_Some (list_find (λ s, date s = month_key) l)) as [[i t0] Hfind].
    { by apply (list_find_elem_of _ _ target). }
    destruct (month_position l month_key) as (j & t & Hj & Hzero & Hprev); [eauto|].
    assert (match l with [] => None | _ :: _ =>
              match list_find (λ s, date s = month_key) l with
              | Some (_, target_snapshot) =>
                  match list_find (λ s, date s = month_key) (sorted l) with
                  | Some (S i, _) =>
                      match sorted l !! i with
                      | Some prev_snapshot =>
                          let '(monthly_donations, total) :=
                            monthly_loop (members target_snapshot) (members prev_snapshot) in
                          Some (Report month_key monthly_donations total None)
                      | None => None
                      end
                  | _ => Some (Report month_key ∅ 0 (Some first_snapshot_note))
                  end
              | None => None
              end
            end
            = match j with
              | O => Some (Report month_key ∅ 0 (Some first_snapshot_note))
              | S j' =>
                  match sorted l !! j' with
                  | Some prev_snapshot =>
                      Some (Report month_key
                              (monthly_loop (members t0) (members prev_snapshot)).1
                              (monthly_loop (members t0) (members prev_snapshot)).2 None)
                  | None => None
                  end
              end) as Heq.
    { rewrite Hl at 1. rewrite Hfind, Hj. destruct j as [|j']; [done|].
      destruct (sorted l !! j'); [|done].
      by destruct (monthly_loop _ _). }
    destruct j as [|j'].
    + eexists. split_and!.
      * rewrite Hl in Heq. rewrite Hl. exact Heq.
      * done.
      * done.
      * intros (s & Hs & Hlt). rewrite (proj1 Hzero eq_refl s Hs) in Hlt. done.
    + destruct (Hprev ltac:(done)) as [prev Hp]. simpl in Hp. rewrite Hp in Heq.
      eexists. split_and!.
      * rewrite Hl in Heq. rewrite Hl. exact Heq.
      * done.
      * intros Hnone. apply Hzero in Hnone. done.
      * done.
Qed.
End DonationStoreFacts.


(** X21: what [save_monthly_snapshot] writes for the clan: at most 24
    snapshots, in descending order of month, each of them the snapshot
    just saved or a stored snapshot of another month, so that the month
    is never held twice by different snapshots.  With fewer than 24
    stored snapshots of other months nothing is dropped.  The lists of
    the other clans are written back as they were. *)
Theorem save_keeps_24_sorted_one_per_month
    (snapshots : gmap string (list Donations.snapshot)) (clan_tag : string)
    (snap : Donations.snapshot) :
  let old := default [] (snapshots !! clan_tag) in
  let kept := filter (λ s, Donations.date s ≠ Donations.date snap) old in
  let store := DonationStore.save_monthly_snapshot snapshots clan_tag snap in
  ∃ saved,
    store !! clan_tag = Some saved ∧
    (length saved ≤ 24)%nat ∧
    StronglySorted DonationStore.date_ge saved ∧
    (∀ s, s ∈ saved →
          s = snap ∨ (s ∈ old ∧ Donations.date s ≠ Donations.date snap)) ∧
    ((length kept < 24)%nat → saved ≡ₚ kept ++ [snap]) ∧
    (∀ c, c ≠ clan_tag → store !! c = snapshots !! c).
Proof.
  intros old kept store.
  exists (take 24 (DonationStore.sorted_reverse (kept ++ [snap]))).
  split_and!.
  - subst store. unfold DonationStore.save_monthly_snapshot.
    by rewrite lookup_insert_eq.
  - rewrite length_take. lia.
  - apply StronglySorted_take, sorted_reverse_sorted.
  - intros s Hs. apply subseteq_take in Hs. rewrite sorted_reverse_perm in Hs.
    apply elem_of_app in Hs as [Hs|Hs].
    + right. subst kept. apply list_elem_of_filter in Hs. tauto.
    + left. by apply list_elem_of_singleton in Hs.
  - intros Hlen. rewrite take_ge.
    + apply sorted_reverse_perm.
    + rewrite sorted_reverse_perm, length_app. simpl. lia.
  - intros c Hc. subst store. unfold DonationStore.save_monthly_snapshot.
    by rewrite lookup_insert_ne.
Qed.

(** X22: saving and reading back.  When no stored snapshot of the clan
    is of a later month than the snapshot saved, [get_latest_snapshot]
    on the written store returns that snapshot, also when the month was
    stored before and when 24 snapshots were stored already. *)
Theorem latest_snapshot_is_the_one_just_saved
    (snapshots : gmap string (list Donations.snapshot)) (clan_tag : string)
    (snap : Donations.snapshot) :
  (∀ s, s ∈ default [] (snapshots !! clan_tag) →
        String.leb (Donations.date s) (Donations.date snap) = true) →
  DonationStore.get_latest_snapshot
    (DonationStore.save_monthly_snapshot snapshots clan_tag snap) clan_tag
  = Some snap.
Proof.
  intros Hmax. unfold DonationStore.get_latest_snapshot,
    DonationStore.save_monthly_snapshot.
  rewrite lookup_insert_eq. simpl.
  set (old := default [] (snapshots !! clan_tag)) in *.
  set (kept := filter (λ s, Donations.date s ≠ Donations.date snap) old).
  (* the snapshot saved is the head of the sorted list *)
  assert (∃ rest, DonationStore.sorted_reverse (kept ++ [snap]) = snap :: rest)
    as [rest Hsorted].
  { destruct (head_sorted_reverse (kept ++ [snap])) as (s & Hhead & Hin & Hbound).
    { by destruct kept. }
    apply head_Some in Hhead as [rest Hrest]. exists rest. rewrite Hrest.
    f_equal. apply elem_of_app in Hin as [Hin|Hin].
    - exfalso. subst kept. apply list_elem_of_filter in Hin as [Hne Hold].
      apply Hne. apply String.leb_antisym; [by apply Hmax|].
      apply (Hbound snap). apply elem_of_app. right. by left.
    - by apply list_elem_of_singleton in Hin. }
  rewrite Hsorted. cbn [take].
  (* sorting the sorted prefix again keeps its head *)
  destruct (head_sorted_reverse (snap :: take 23 rest)) as (s & Hhead & Hin & Hbound);
    [done|].
  rewrite Hhead. f_equal.
  apply elem_of_cons in Hin as [->|Hin]; [done|].
  apply subseteq_take in Hin.
  assert (s ∈ kept ++ [snap]) as Hs.
  { rewrite <- (sorted_reverse_perm (kept ++ [snap])), Hsorted. by right. }
  pose proof (sorted_reverse_sorted (kept ++ [snap])) as Hss.
  rewrite Hsorted in Hss. apply StronglySorted_cons in Hss as [Hall Hss].
  assert (Donations.date s = Donations.date snap) as Hdate.
  { apply String.leb_antisym.
    - by apply (proj1 (Forall_forall _ _) Hall).
    - apply (Hbound snap). by left. }
  apply elem_of_app in Hs as [Hs|Hs].
  - subst kept. apply list_elem_of_filter in Hs as [Hne _]. done.
  - by apply list_elem_of_singleton in Hs.
Qed.


Lemma latest_snapshot_is_the_one_just_saved_witness :
  let jan := Donations.Snapshot "2024-01" "t1" ∅ in
  let feb := Donations.Snapshot "2024-02" "t2" ∅ in
  let feb' := Donations.Snapshot "2024-02" "t3" ∅ in
  let snapshots : gmap string (list Donations.snapshot) :=
    {[ "#CLAN"%string := [feb; jan] ]} in
  DonationStore.get_latest_snapshot
    (DonationStore.save_monthly_snapshot snapshots "#CLAN" feb') "#CLAN"
  = Some feb'.
Proof.
  intros jan feb feb' snapshots.
  apply (latest_snapshot_is_the_one_just_saved snapshots "#CLAN" feb').
  intros s Hs. subst snapshots. rewrite lookup_singleton_eq in Hs. simpl in Hs.
  apply elem_of_cons in Hs as [->|Hs]; [done|].
  apply elem_of_cons in Hs as [->|Hs]; [done|].
  by apply elem_of_nil in Hs.
Defined.



(** X24: the outcomes of [calculate_monthly_donations] that have no
    earlier snapshot to compare with.  The result is [None] exactly when
    the clan has no snapshot of the month.  When it has one, the result
    is a report for that month, and it is the empty report with the
    first-snapshot note exactly when no stored snapshot of the clan is
    of an earlier month. *)
Theorem monthly_report_without_earlier_snapshot
    (snapshots : gmap string (list Donations.snapshot))
    (clan_tag month_key : string) :
  let l := default [] (snapshots !! clan_tag) in
  let r := Donations.calculate_monthly_donations snapshots clan_tag month_key in
  (r = None ↔ ∀ s, s ∈ l → Donations.date s ≠ month_key) ∧
  (∀ rep, r = Some rep →
     Donations.month rep = month_key ∧
     (Donations.note rep = Some Donations.first_snapshot_note ↔
      ∀ s, s ∈ l → String.ltb (Donations.date s) month_key = false) ∧
     (Donations.note rep = Some Donations.first_snapshot_note →
      Donations.report_members rep = ∅ ∧ Donations.total_monthly rep = 0)).
Proof.
  intros l r.
  destruct (calculate_cases snapshots clan_tag month_key) as [Habsent Hpresent].
  fold l r in Habsent, Hpresent.
  destruct (decide (Exists (λ s, Donations.date s = month_key) l)) as [Hex|Hno].
  - apply Exists_exists in Hex.
    destruct (Hpresent Hex) as (rep & Hr & Hmonth & Hfirst & Hlater).
    split.
    + rewrite Hr. split; [done|]. intros Hnone.
      destruct Hex as (s & Hs & Hd). by destruct (Hnone s Hs).
    + intros rep' Hrep'. rewrite Hr in Hrep'. injection Hrep' as <-.
      destruct (decide (Exists (λ s, String.ltb (Donations.date s) month_key = true) l))
        as [Hearlier|Hnoearlier].
      * apply Exists_exists in Hearlier. rewrite (Hlater Hearlier).
        split_and!; [done| |done]. split; [done|]. intros Hnone.
        destruct Hearlier as (s & Hs & Hlt). by rewrite (Hnone s Hs) in Hlt.
      * assert (∀ s, s ∈ l → String.ltb (Donations.date s) month_key = false) as Hnone.
        { intros s Hs. destruct (String.ltb (Donations.date s) month_key) eqn:Hlt;
            [|done]. exfalso. apply Hnoearlier. apply Exists_exists. eauto. }
        rewrite (Hfirst Hnone). by split_and!.
  - assert (∀ s, s ∈ l → Donations.date s ≠ month_key) as Hnone.
    { intros s Hs Hd. apply Hno. apply Exists_exists. eauto. }
    split.
    + by rewrite (Habsent Hnone).
    + intros rep Hrep. by rewrite (Habsent Hnone) in Hrep.
Qed.


Lemma monthly_report_without_earlier_snapshot_witness :
  let jan := Donations.Snapshot "2024-01" "t1" ∅ in
  let feb := Donations.Snapshot "2024-02" "t2" ∅ in
  let snapshots : gmap string (list Donations.snapshot) :=
    {[ "#CLAN"%string := [feb; jan] ]} in
  Donations.calculate_monthly_donations snapshots "#CLAN" "2024-03" = None ∧
  Donations.calculate_monthly_donations snapshots "#CLAN" "2024-01"
  = Some (Donations.Report "2024-01" ∅ 0 (Some Donations.first_snapshot_note)).
Proof.
  intros jan feb snapshots.
  destruct (monthly_report_without_earlier_snapshot snapshots "#CLAN" "2024-03")
    as [Hnone _].
  split; [|by vm_compute].
  apply Hnone. intros s Hs. subst snapshots.
  rewrite lookup_singleton_eq in Hs. simpl in Hs.
  apply elem_of_cons in Hs as [->|Hs]; [done|].
  apply elem_of_cons in Hs as [->|Hs]; [done|].
  by apply elem_of_nil in Hs.
Defined.

Section HistoryFacts.
Import Donations DonationStore.

Lemma history_months (snapshots : gmap string (list snapshot)) (clan_tag : string)
    (l0 : list snapshot) :
  (∀ s, s ∈ l0 → s ∈ default [] (snapshots !! clan_tag)) →
  month <$> omap (λ s, calculate_monthly_donations snapshots clan_tag (date s)) l0
  = date <$> l0.
Proof.
  induction l0 as [|s l0 IH]; intros Hin; [done|].
  destruct (calculate_cases snapshots clan_tag (date s)) as [_ Hpresent].
  destruct Hpresent as (rep & Hrep & Hmonth & _).
  { exists s. split; [|done]. apply Hin. by left. }
  cbn [omap list_omap]. rewrite Hrep. rewrite !fmap_cons, Hmonth. f_equal.
  apply IH. intros x Hx. apply Hin. by right.
Qed.

Lemma slice_to_subseteq {X} (limit : Z) (l : list X) : slice_to limit l ⊆ l.
Proof. unfold slice_to. case_bool_decide; apply subseteq_take. Qed.
End HistoryFacts.

(** X25: the history has one report per snapshot of the slice: the
    months of [get_donation_history(clan_tag, limit)] are the months of
    the first [limit] snapshots in descending order of month, no
    snapshot of the slice is skipped, and for [limit >= 0] the history
    has [min(limit, number of stored snapshots)] reports. *)
Theorem history_has_one_report_per_snapshot
    (snapshots : gmap string (list Donations.snapshot)) (clan_tag : string)
    (limit : Z) :
  let l := default [] (snapshots !! clan_tag) in
  let history := DonationStore.get_donation_history snapshots clan_tag limit in
  Donations.month <$> history
  = Donations.date <$> DonationStore.slice_to limit (DonationStore.sorted_reverse l) ∧
  StronglySorted (λ a b, String.leb b a = true) (Donations.month <$> history) ∧
  (0 ≤ limit → length history = Nat.min (Z.to_nat limit) (length l)).
Proof.
  intros l history.
  assert (Donations.month <$> history
          = Donations.date <$>
              DonationStore.slice_to limit (DonationStore.sorted_reverse l)) as Hmonths.
  { subst history. unfold DonationStore.get_donation_history. fold l.
    destruct l as [|s0 rest] eqn:Hl.
    { unfold DonationStore.slice_to. cbn [DonationStore.sorted_reverse foldr].
      case_bool_decide; by rewrite take_nil. }
    rewrite <- Hl. apply history_months. intros s Hs.
    apply slice_to_subseteq in Hs. by rewrite sorted_reverse_perm in Hs. }
  split_and!.
  - done.
  - rewrite Hmonths.
    apply StronglySorted_fmap with (R1 := DonationStore.date_ge); [done|].
    unfold DonationStore.slice_to.
    case_bool_decide; apply StronglySorted_take, sorted_reverse_sorted.
  - intros Hlimit.
    rewrite <- (length_fmap Donations.month), Hmonths, length_fmap.
    unfold DonationStore.slice_to. rewrite bool_decide_eq_true_2 by done.
    by rewrite length_take, sorted_reverse_perm.
Qed.

Lemma history_has_one_report_per_snapshot_witness :
  let jan := Donations.Snapshot "2024-01" "t1" ∅ in
  let mar := Donations.Snapshot "2024-03" "t3" ∅ in
  let feb := Donations.Snapshot "2024-02" "t2" ∅ in
  let snapshots : gmap string (list Donations.snapshot) :=
    {[ "#CLAN"%string := [feb; mar; jan] ]} in
  Donations.month <$> DonationStore.get_donation_history snapshots "#CLAN" 2
  = ["2024-03"; "2024-02"]%string.
Proof.
  intros jan mar feb snapshots.
  destruct (history_has_one_report_per_snapshot snapshots "#CLAN" 2) as (H & _).
  etrans; [exact H|]. by vm_compute.
Defined.


(** ** The upgrade alerts *)

Section UpgradeFacts.
Import UpgradeAlerts.
Context {L : Type} `{EqDecision L}.
Implicit Types (c : gmap string (list L)) (ms : list (member L)) (t : string) (x : L).

Lemma alerts_of_app t x (out1 out2 : list (effect L)) :
  alerts_of t x (out1 ++ out2) = alerts_of t x out1 ++ alerts_of t x out2.
Proof. apply filter_app. Qed.

Lemma tick_app ms1 ms2 c :
  tick (ms1 ++ ms2) c
  = ((tick ms1 c).1 ++ (tick ms2 (tick ms1 c).2).1, (tick ms2 (tick ms1 c).2).2).
Proof.
  revert c. induction ms1 as [|m ms1 IH]; intros c.
  - simpl. by destruct (tick ms2 c).
  - cbn [app tick]. destruct (member_step m c) as [out1 c1]. rewrite IH.
    destruct (tick ms1 c1) as [out2 c2]. simpl.
    destruct (tick ms2 c2) as [out3 c3]. simpl. by rewrite app_assoc.
Qed.

Lemma elem_of_concat {X} (x : X) (ls : list (list X)) :
  x ∈ concat ls → ∃ l, x ∈ l ∧ l ∈ ls.
Proof.
  induction ls as [|l ls IH]; simpl; [by intros ?%elem_of_nil|].
  intros [Hx|Hx]%elem_of_app.
  - exists l. split; [done|by left].
  - destruct (IH Hx) as (l' & ? & ?). exists l'. split; [done|by right].
Qed.

Lemma ticks_concat (polls : list (list (member L))) c :
  ticks polls c = tick (concat polls) c.
Proof.
  revert c. induction polls as [|ms polls IH]; intros c; [done|].
  cbn [ticks concat]. rewrite tick_app.
  destruct (tick ms c) as [out1 c1]. rewrite IH. simpl.
  by destruct (tick (concat polls) c1).
Qed.

(** A step that fetches player [t] while [x] is in progress. *)
Lemma member_step_fetched t x (m : member L) (p : player L) c :
  tagged m = Some t → fetched m = Some p → x ∈ upgrading p →
  let r := member_step m c in
  x ∈ default [] (r.2 !! t) ∧
  alerts_of t x r.1
  = if decide (x ∈ default [] (c !! t)) then []
    else [Alert t (player_name p) (filter (λ y, y ∉ default [] (c !! t)) (upgrading p))].
Proof.
  intros Ht Hp Hx. unfold member_step. rewrite Ht, Hp. cbv zeta. cbn [fst snd].
  split; [by rewrite lookup_insert_eq|].
  set (old := default [] (c !! t)).
  destruct (decide (x ∈ old)) as [Hold|Hnew].
  - destruct (filter (λ y, y ∉ old) (upgrading p)) as [|y new] eqn:Hnews; [done|].
    unfold alerts_of. rewrite filter_cons_False; [done|].
    simpl. rewrite bool_decide_eq_false_2; [by intros ?|].
    intros [_ Hin]. rewrite <- Hnews in Hin.
    apply list_elem_of_filter in Hin. tauto.
  - assert (x ∈ filter (λ y, y ∉ old) (upgrading p)) as Hin
      by (by apply list_elem_of_filter).
    destruct (filter (λ y, y ∉ old) (upgrading p)) as [|y new] eqn:Hnews;
      [by apply elem_of_nil in Hin|].
    unfold alerts_of. rewrite filter_cons_True; [done|].
    simpl. by rewrite bool_decide_eq_true_2.
Qed.

(** A step for another player, or one whose fetch failed. *)
Lemma member_step_other t x (m : member L) c :
  tagged m ≠ Some t ∨ fetched m = None →
  let r := member_step m c in
  r.2 !! t = c !! t ∧ alerts_of t x r.1 = [].
Proof.
  intros Hother. unfold member_step.
  destruct (tagged m) as [t'|] eqn:Ht; [|done].
  destruct (fetched m) as [p|] eqn:Hp; [|done].
  destruct Hother as [Hne|?]; [|done].
  assert (t' ≠ t) as Hne' by (by intros ->). cbn [fst snd]. split.
  - by rewrite lookup_insert_ne.
  - destruct (filter _ (upgrading p)); [done|].
    unfold alerts_of. rewrite filter_cons_False; [done|].
    simpl. rewrite bool_decide_eq_false_2; [by intros ?|]. by intros [? _].
Qed.

(** The alerts of one line over a sequence of roster entries. *)
Lemma tick_alerts t x ms : ∀ c,
  still_upgrading t x ms →
  let r := tick ms c in
  if decide (x ∈ default [] (c !! t))
  then alerts_of t x r.1 = [] ∧ x ∈ default [] (r.2 !! t)
  else if decide (Exists (λ m, tagged m = Some t ∧ is_Some (fetched m)) ms)
       then length (alerts_of t x r.1) = 1%nat ∧ x ∈ default [] (r.2 !! t)
       else alerts_of t x r.1 = [] ∧ r.2 !! t = c !! t.
Proof.
  induction ms as [|m ms IH]; intros c Hstill.
  { cbv zeta. cbn [tick fst snd].
    destruct (decide (x ∈ default [] (c !! t))); [done|].
    rewrite decide_False; [done|]. by intros ?%Exists_nil. }
  assert (still_upgrading t x ms) as Hstill'.
  { intros m' p' Hm'. apply Hstill. by right. }
  cbn [tick].
  destruct (decide (tagged m = Some t ∧ is_Some (fetched m))) as [[Ht [p Hp]]|Hno].
  - (* this entry fetches the player *)
    assert (x ∈ upgrading p) as Hx by (apply (Hstill m p); [by left|done|done]).
    destruct (member_step_fetched t x m p c Ht Hp Hx) as [Hseen Halert].
    destruct (member_step m c) as [out1 c1]. simpl in Hseen, Halert.
    specialize (IH c1 Hstill'). cbv zeta in IH.
    rewrite decide_True in IH by done. destruct IH as [IH1 IH2].
    destruct (tick ms c1) as [out2 c2]. simpl in IH1, IH2. cbn [fst snd].
    rewrite alerts_of_app, IH1, app_nil_r, Halert.
    destruct (decide (x ∈ default [] (c !! t))); [done|].
    rewrite decide_True; [done|]. apply Exists_cons. left. eauto.
  - (* this entry leaves the record of the player alone *)
    destruct (member_step_other t x m c) as [Hsame Hnone].
    { destruct (decide (tagged m = Some t)) as [Ht|]; [|by left].
      right. destruct (fetched m) eqn:Hf; [|done]. destruct Hno. eauto. }
    destruct (member_step m c) as [out1 c1]. simpl in Hsame, Hnone.
    specialize (IH c1 Hstill'). cbv zeta in IH. rewrite Hsame in IH.
    destruct (tick ms c1) as [out2 c2]. simpl in IH. cbn [fst snd].
    rewrite alerts_of_app, Hnone. cbn [app].
    destruct (decide (x ∈ default [] (c !! t))); [done|].
    destruct (decide (Exists (λ m, tagged m = Some t ∧ is_Some (fetched m)) ms))
      as [Hex|Hnex].
    + rewrite decide_True; [done|]. apply Exists_cons. by right.
    + rewrite decide_False; [done|]. intros [?|?]%Exists_cons; done.
Qed.

(** A roster whose fetched documents are what the cache records is
    silent. *)
Lemma tick_quiet ms c :
  (∀ m p t, m ∈ ms → tagged m = Some t → fetched m = Some p →
            c !! t = Some (upgrading p)) →
  tick ms c = ([], c).
Proof.
  induction ms as [|m ms IH]; intros Hrec; [done|].
  cbn [tick].
  assert (member_step m c = ([], c)) as ->.
  { unfold member_step. destruct (tagged m) as [t|] eqn:Ht; [|done].
    destruct (fetched m) as [p|] eqn:Hp; [|done].
    rewrite (Hrec m p t) by (done || by left). simpl.
    rewrite (filter_none _ (upgrading p)) by (intros y Hy Hn; done).
    f_equal. apply insert_id. apply (Hrec m p t); done || by left. }
  rewrite IH; [done|]. intros m' p t Hm'. apply Hrec. by right.
Qed.

(** What a roster with distinct tags leaves in the cache. *)
Lemma tick_recorded ms : ∀ c,
  NoDup (omap tagged ms) →
  let r := tick ms c in
  (∀ m p t, m ∈ ms → tagged m = Some t → fetched m = Some p →
            r.2 !! t = Some (upgrading p)) ∧
  (∀ t, t ∉ omap tagged ms → r.2 !! t = c !! t).
Proof.
  induction ms as [|m ms IH]; intros c Hnd.
  { simpl. split; [|done]. intros m p t Hm. by apply elem_of_nil in Hm. }
  cbn [tick].
  assert (NoDup (omap tagged ms) ∧
          ∀ t, tagged m = Some t → t ∉ omap tagged ms) as [Hnd' Hfresh].
  { cbn [omap list_omap] in Hnd. destruct (tagged m) as [t|]; [|done].
    apply NoDup_cons in Hnd as [? ?]. split; [done|]. by intros ? [= <-]. }
  assert (∀ t, (member_step m c).2 !! t
               = match fetched m with
                 | Some p => if decide (tagged m = Some t) then Some (upgrading p)
                             else c !! t
                 | None => c !! t
                 end) as Hstep.
  { intros t. unfold member_step. destruct (tagged m) as [t'|] eqn:Ht.
    - destruct (fetched m) as [p|]; [|done]. simpl.
      destruct (decide (Some t' = Some t)) as [[= ->]|Hne].
      + by rewrite lookup_insert_eq.
      + rewrite lookup_insert_ne; [done|]. by intros ->.
    - destruct (fetched m); [|done]. by rewrite decide_False. }
  destruct (member_step m c) as [out1 c1]. simpl in Hstep.
  destruct (IH c1 Hnd') as [IH1 IH2].
  destruct (tick ms c1) as [out2 c2]. simpl in IH1, IH2. cbn [fst snd]. split.
  - intros m' p t Hm' Ht Hp. apply elem_of_cons in Hm' as [->|Hm'].
    + rewrite IH2 by (by apply Hfresh). rewrite Hstep, Hp. by rewrite decide_True.
    + by apply (IH1 m' p t).
  - intros t Ht. cbn [omap list_omap] in Ht.
    assert (tagged m ≠ Some t ∧ t ∉ omap tagged ms) as [Hne Hnin].
    { destruct (tagged m) as [t'|]; [|done].
      apply not_elem_of_cons in Ht as [? ?]. split; [|done]. by intros [= ->]. }
    rewrite IH2 by done. rewrite Hstep. destruct (fetched m); [|done].
    by rewrite decide_False.
Qed.
End UpgradeFacts.

(** X26: an upgrade is alerted once.  Over any sequence of polls in
    which every fetched document of a player lists a given upgrade line,
    that line appears in no alert for the player when the cache already
    records it for the player, and otherwise in exactly one alert if
    some poll fetches the player, and in none if no poll does. *)
Theorem upgrade_in_progress_is_alerted_once {L : Type} `{EqDecision L}
    (polls : list (list (UpgradeAlerts.member L))) (cache : gmap string (list L))
    (t : string) (x : L) :
  Forall (UpgradeAlerts.still_upgrading t x) polls →
  let r := UpgradeAlerts.ticks polls cache in
  let fetches := Exists (λ m, UpgradeAlerts.tagged m = Some t ∧
                              is_Some (UpgradeAlerts.fetched m)) (concat polls) in
  (length (UpgradeAlerts.alerts_of t x r.1) ≤ 1)%nat ∧
  (x ∈ default [] (cache !! t) → UpgradeAlerts.alerts_of t x r.1 = []) ∧
  ((x ∉ default [] (cache !! t)) → fetches →
   length (UpgradeAlerts.alerts_of t x r.1) = 1%nat) ∧
  (¬ fetches → UpgradeAlerts.alerts_of t x r.1 = [] ∧ r.2 !! t = cache !! t).
Proof.
  intros Hstill r fetches. subst r. rewrite ticks_concat.
  assert (UpgradeAlerts.still_upgrading t x (concat polls)) as Hall.
  { intros m p Hm. apply elem_of_concat in Hm as (ms & Hm & Hms).
    by apply (proj1 (Forall_forall _ _) Hstill ms Hms). }
  pose proof (tick_alerts t x (concat polls) cache Hall) as Hspec.
  cbv zeta in Hspec. fold fetches in Hspec.
  destruct (decide (x ∈ default [] (cache !! t))) as [Hseen|Hnew].
  - destruct Hspec as [Hnone _]. rewrite Hnone. split_and!; [simpl; lia|done|done|].
    intros Hno. split; [done|].
    (* no fetch of the player: its record is untouched *)
    revert Hno. subst fetches. clear Hnone Hall Hstill.
    generalize (concat polls) cache. intros ms. induction ms as [|m ms IH]; intros c Hno.
    + done.
    + cbn [UpgradeAlerts.tick].
      destruct (member_step_other t x m c) as [Hsame _].
      { destruct (decide (UpgradeAlerts.tagged m = Some t)) as [Ht|]; [|by left].
        right. destruct (UpgradeAlerts.fetched m) eqn:Hf; [|done].
        destruct Hno. apply Exists_cons. left. eauto. }
      destruct (UpgradeAlerts.member_step m c) as [out1 c1]. simpl in Hsame.
      specialize (IH c1). destruct (UpgradeAlerts.tick ms c1) as [out2 c2].
      simpl in *. rewrite IH, Hsame; [done|]. intros Hex. apply Hno.
      apply Exists_cons. by right.
  - destruct (decide fetches) as [Hf|Hnf].
    + destruct Hspec as [Hone _]. rewrite Hone. split_and!; [lia|done|done|done].
    + destruct Hspec as [Hnone Hsame]. rewrite Hnone.
      split_and!; [simpl; lia|done|done|done].
Qed.

Lemma upgrade_in_progress_is_alerted_once_witness :
  let p1 := UpgradeAlerts.Player (Some "ann"%string) ["Hero: Archer Queen"%string] in
  let p2 := UpgradeAlerts.Player (Some "ann"%string)
              ["Pet: Frosty"; "Hero: Archer Queen"]%string in
  let polls := [[UpgradeAlerts.Member (Some "#A"%string) (Some p1)];
                [UpgradeAlerts.Member (Some "#A"%string) None];
                [UpgradeAlerts.Member (Some "#A"%string) (Some p2)]] in
  length (UpgradeAlerts.alerts_of "#A" "Hero: Archer Queen"%string
            (UpgradeAlerts.ticks polls ∅).1) = 1%nat.
Proof.
  intros p1 p2 polls.
  assert (Forall (UpgradeAlerts.still_upgrading "#A" "Hero: Archer Queen"%string) polls)
    as Hstill.
  { repeat constructor; intros m p Hm Ht Hp;
      apply list_elem_of_singleton in Hm; subst m; simpl in Hp; simplify_eq;
      compute_done. }
  destruct (upgrade_in_progress_is_alerted_once polls ∅ "#A"
              "Hero: Archer Queen"%string Hstill) as (_ & _ & H & _).
  apply H.
  - rewrite lookup_empty. simpl. apply not_elem_of_nil.
  - apply Exists_cons. left. simpl. split; [done|]. by eexists.
Defined.

(** X27: polling an unchanged roster is silent.  After an iteration on a
    roster in which no tag occurs twice, an iteration that fetches the
    same documents sends no alert and leaves the cache as it is. *)
Theorem upgrade_repoll_is_silent {L : Type} `{EqDecision L}
    (members : list (UpgradeAlerts.member L)) (cache : gmap string (list L)) :
  NoDup (omap UpgradeAlerts.tagged members) →
  let r := UpgradeAlerts.tick members cache in
  UpgradeAlerts.tick members r.2 = ([], r.2).
Proof.
  intros Hnd r. apply tick_quiet.
  by destruct (tick_recorded members cache Hnd) as [Hrec _].
Qed.

Lemma upgrade_repoll_is_silent_witness :
  let p1 := UpgradeAlerts.Player (Some "ann"%string) ["Hero: Archer Queen"%string] in
  let p2 := UpgradeAlerts.Player (Some "bob"%string) ["Pet: Frosty"%string] in
  let members := [UpgradeAlerts.Member (Some "#A"%string) (Some p1);
                  UpgradeAlerts.Member (Some "#B"%string) (Some p2)] in
  let r := UpgradeAlerts.tick members ∅ in
  UpgradeAlerts.tick members r.2 = ([], r.2).
Proof.
  intros p1 p2 members r.
  apply (upgrade_repoll_is_silent members ∅). compute_done.
Defined.


(** ** The member file and the known set *)

Section TrackerPersistence.
Import Tracker.
Variable LEAVE_DEBOUNCE_COUNT : Z.
Variable clan_tag : string.

Lemma load_saved (fs : gmap string (list string)) (K : gset string) :
  fs !! members_filename clan_tag = Some (elements K) →
  load_strict_cache fs clan_tag = K.
Proof.
  intros Hf. unfold load_strict_cache. rewrite Hf. apply list_to_set_elements_L.
Qed.

Lemma load_same (fs fs' : gmap string (list string)) :
  fs' !! members_filename clan_tag = fs !! members_filename clan_tag →
  load_strict_cache fs' clan_tag = load_strict_cache fs clan_tag.
Proof. intros Hf. unfold load_strict_cache. by rewrite Hf. Qed.

Lemma mirrored_tick SKIP poll (s : state) :
  load_strict_cache (files s) clan_tag = known s clan_tag →
  let r := tick LEAVE_DEBOUNCE_COUNT SKIP clan_tag poll s in
  load_strict_cache (files r.2) clan_tag = known r.2 clan_tag.
Proof.
  intros Hinv. destruct poll as [ml|]; [|done].
  destruct (decide (ml ≠ [] ∨ SKIP = false)) as [Hproc|Hskip].
  - cbv zeta. rewrite (tick_processed LEAVE_DEBOUNCE_COUNT clan_tag _ _ _ Hproc).
    destruct (decide (known s clan_tag = ∅)) as [Hempty|Hne].
    + destruct (baseline_spec clan_tag (current_tags ml) s) as (_ & Hk & Hf & _).
      rewrite Hk. by apply load_saved.
    + destruct (diff_spec LEAVE_DEBOUNCE_COUNT clan_tag s (current_tags ml))
        as (_ & _ & Hk & _ & Hf & _).
      case_decide as Hsame.
      * destruct Hsame as [Hj Hg]. rewrite Hk, Hj, Hg. simpl.
        rewrite (load_same (files s)) by done. rewrite Hinv. set_solver.
      * by apply load_saved.
  - assert (ml = [] ∧ SKIP = true) as [-> ->]; [|done].
    destruct ml; [|by destruct Hskip; left]. destruct SKIP; [done|].
    by destruct Hskip; right.
Qed.

Lemma mirrored_ticks SKIP polls : ∀ (s : state),
  load_strict_cache (files s) clan_tag = known s clan_tag →
  let r := ticks LEAVE_DEBOUNCE_COUNT SKIP clan_tag polls s in
  load_strict_cache (files r.2) clan_tag = known r.2 clan_tag.
Proof.
  induction polls as [|poll polls IH]; intros s Hinv; [done|]. cbn [ticks].
  pose proof (mirrored_tick SKIP poll s Hinv) as H1. cbv zeta in H1.
  destruct (tick LEAVE_DEBOUNCE_COUNT SKIP clan_tag poll s) as [out1 s1].
  specialize (IH s1 H1). cbv zeta in IH.
  by destruct (ticks LEAVE_DEBOUNCE_COUNT SKIP clan_tag polls s1) as [out2 s2].
Qed.

Lemma simple_mirrored_tick (ml : list member) (s : ClanTracker.state) :
  load_strict_cache (ClanTracker.files s) clan_tag = ClanTracker.member_cache s →
  let r := ClanTracker.tick clan_tag ml s in
  load_strict_cache (ClanTracker.files r.2) clan_tag = ClanTracker.member_cache r.2.
Proof.
  intros Hinv. destruct (decide (ml = [])) as [->|Hne]; [done|].
  destruct (simple_tick_spec clan_tag ml s Hne) as (_ & _ & Hc & Hf & _).
  cbv zeta. rewrite Hc. case_decide as Hsame.
  - rewrite (load_same (ClanTracker.files s)) by done. rewrite Hinv.
    destruct Hsame as [Hj Hg]. apply set_eq. intros t.
    rewrite elem_of_list_to_set. split.
    + intros Ht. destruct (decide (t ∈ current_tags ml)) as [|Hnot]; [done|].
      exfalso. eapply (filter_nil_not_elem_of _ _ t); [exact Hg|exact Hnot|].
      apply elem_of_elements. set_solver.
    + intros Ht. destruct (decide (t ∈ ClanTracker.member_cache s)) as [|Hnot];
        [done|].
      exfalso. by eapply (filter_nil_not_elem_of _ _ t); [exact Hj|exact Hnot|].
  - by apply load_saved.
Qed.
End TrackerPersistence.

(** X28: the member file mirrors the known set.  From the state in which
    [track_clan] enters its loop, after any sequence of polls the member
    file of the clan, read back by [load_strict_cache], is the known set
    in memory: every iteration that changes the set has saved it last.
    A tracker restarted from the files therefore resumes with the known
    set of the one that stopped. *)
Theorem member_file_mirrors_the_known_set (LEAVE_DEBOUNCE_COUNT : Z)
    (SKIP_EMPTY_MEMBER_LIST : bool) (clan_tag : string)
    (polls : list (option (list Tracker.member))) (s : Tracker.state) :
  let s' := (Tracker.ticks LEAVE_DEBOUNCE_COUNT SKIP_EMPTY_MEMBER_LIST clan_tag
               polls (Tracker.start clan_tag s)).2 in
  Tracker.load_strict_cache (Tracker.files s') clan_tag = Tracker.known s' clan_tag ∧
  Tracker.known (Tracker.start clan_tag s') clan_tag = Tracker.known s' clan_tag.
Proof.
  intros s'.
  assert (Tracker.load_strict_cache (Tracker.files s') clan_tag
          = Tracker.known s' clan_tag) as Hinv.
  { apply mirrored_ticks. by rewrite known_start. }
  split; [done|]. by rewrite known_start.
Qed.

(** X29: the same for the tracker of trackers.py: from [__init__], after
    any sequence of polls the member file read back by
    [load_strict_cache] is [member_cache], so a new [ClanTracker] built
    from the files starts with the member cache of the old one. *)
Theorem simple_tracker_file_mirrors_member_cache (clan_tag : string)
    (polls : list (list Tracker.member)) (fs : gmap string (list string)) :
  let s' := (ClanTracker.ticks clan_tag polls (ClanTracker.init clan_tag fs)).2 in
  Tracker.load_strict_cache (ClanTracker.files s') clan_tag
  = ClanTracker.member_cache s' ∧
  ClanTracker.member_cache (ClanTracker.init clan_tag (ClanTracker.files s'))
  = ClanTracker.member_cache s'.
Proof.
  intros s'.
  assert (∀ polls s,
            Tracker.load_strict_cache (ClanTracker.files s) clan_tag
            = ClanTracker.member_cache s →
            Tracker.load_strict_cache
              (ClanTracker.files (ClanTracker.ticks clan_tag polls s).2) clan_tag
            = ClanTracker.member_cache (ClanTracker.ticks clan_tag polls s).2) as Hrun.
  { clear. induction polls as [|ml polls IH]; intros s Hinv; [done|].
    cbn [ClanTracker.ticks].
    pose proof (simple_mirrored_tick clan_tag ml s Hinv) as H1. cbv zeta in H1.
    destruct (ClanTracker.tick clan_tag ml s) as [out1 s1].
    specialize (IH s1 H1).
    by destruct (ClanTracker.ticks clan_tag polls s1) as [out2 s2]. }
  assert (Tracker.load_strict_cache (ClanTracker.files s') clan_tag
          = ClanTracker.member_cache s') as Hinv by (by apply Hrun).
  split; [done|]. exact Hinv.
Qed.

(** ** Calls that arrive after the fetch has settled *)

(** X30: a call that finds the pending task of its key already done
    (the task has settled and none of its awaiters has resumed yet) does
    not suspend: it finishes with the outcome of that task, starts no
    fetch and removes the pending entry at once.  The call after it
    therefore starts a second fetch and suspends on the new task,
    although the awaiters of the first are still to resume. *)
Theorem late_caller_takes_the_settled_outcome {R : Type}
    (s : RequestDeduplicator.state R) (key key0 : string) (future c : nat)
    (o : RequestDeduplicator.outcome R) :
  RequestDeduplicator.pending s !! key = Some future →
  RequestDeduplicator.tasks s !! future = Some (key0, Some o) →
  RequestDeduplicator.callers s !! c = None →
  ∃ s1,
    RequestDeduplicator.step s (RequestDeduplicator.Call key c) = Some s1 ∧
    RequestDeduplicator.callers s1 !! c = Some (RequestDeduplicator.Finished key o) ∧
    RequestDeduplicator.tasks s1 = RequestDeduplicator.tasks s ∧
    RequestDeduplicator.pending s1 = delete key (RequestDeduplicator.pending s) ∧
    (∀ c', RequestDeduplicator.callers s1 !! c' = None →
       ∃ s2,
         RequestDeduplicator.step s1 (RequestDeduplicator.Call key c') = Some s2 ∧
         RequestDeduplicator.invocations key s2
         = S (RequestDeduplicator.invocations key s) ∧
         RequestDeduplicator.callers s2 !! c'
         = Some (RequestDeduplicator.Awaiting key
                   (length (RequestDeduplicator.tasks s))) ∧
         RequestDeduplicator.pending s2 !! key
         = Some (length (RequestDeduplicator.tasks s))).
Proof.
  intros Hk Hdone Hc.
  exists (RequestDeduplicator.call s key c).
  rewrite (call_late s key c future key0 o Hk Hdone). split_and!.
  - simpl. rewrite Hc. by rewrite (call_late s key c future key0 o Hk Hdone).
  - simpl. apply lookup_insert_eq.
  - done.
  - done.
  - intros c' Hc'.
    set (s1 := RequestDeduplicator.State (delete key (RequestDeduplicator.pending s))
                 (RequestDeduplicator.tasks s)
                 (<[c := RequestDeduplicator.Finished key o]>
                    (RequestDeduplicator.callers s))) in *.
    assert (RequestDeduplicator.pending s1 !! key = None) as Hgone
      by apply lookup_delete_eq.
    destruct (call_creates s1 key c' Hgone) as (Hp2 & _ & Hc2 & Hi2).
    exists (RequestDeduplicator.call s1 key c'). split_and!.
    + cbn [RequestDeduplicator.step]. by rewrite Hc'.
    + exact Hi2.
    + rewrite Hc2. apply lookup_insert_eq.
    + exact Hp2.
Qed.

Lemma late_caller_takes_the_settled_outcome_witness :
  ∃ s2 : RequestDeduplicator.state nat,
    RequestDeduplicator.run RequestDeduplicator.init
      [RequestDeduplicator.Call "clan:#X" 1%nat;
       RequestDeduplicator.Call "clan:#X" 2%nat;
       RequestDeduplicator.Settle 0%nat (RequestDeduplicator.Raised "boom");
       RequestDeduplicator.Call "clan:#X" 3%nat;
       RequestDeduplicator.Call "clan:#X" 4%nat] = Some s2 ∧
    RequestDeduplicator.invocations "clan:#X" s2 = 2%nat ∧
    RequestDeduplicator.callers s2 !! 4%nat
    = Some (RequestDeduplicator.Awaiting "clan:#X" 1).
Proof.
  set (s := RequestDeduplicator.State {[ "clan:#X"%string := 0%nat ]}
              [("clan:#X"%string, Some (RequestDeduplicator.Raised "boom"))]
              {[ 1%nat := RequestDeduplicator.Awaiting "clan:#X" 0;
                 2%nat := RequestDeduplicator.Awaiting "clan:#X" 0 ]}
            : RequestDeduplicator.state nat).
  destruct (late_caller_takes_the_settled_outcome s "clan:#X" "clan:#X" 0%nat 3%nat
              (RequestDeduplicator.Raised "boom") eq_refl eq_refl eq_refl)
    as (s1 & Hstep1 & Hc3 & _ & _ & Hnext).
  destruct (Hnext 4%nat) as (s2 & Hstep2 & Hinv & Hc4 & _).
  { pose proof Hstep1 as Hs1. vm_compute in Hs1. injection Hs1 as <-.
    by vm_compute. }
  exists s2. split_and!.
  - assert (RequestDeduplicator.run RequestDeduplicator.init
              [RequestDeduplicator.Call "clan:#X" 1%nat;
               RequestDeduplicator.Call "clan:#X" 2%nat;
               RequestDeduplicator.Settle 0%nat (RequestDeduplicator.Raised "boom")]
            = Some s) as Hrun by (by vm_compute).
    apply (run_app_Some _ _ [RequestDeduplicator.Call "clan:#X" 3%nat;
                             RequestDeduplicator.Call "clan:#X" 4%nat] s s2 Hrun).
    rewrite (run_cons _ _ _ s1 Hstep1). by rewrite (run_cons _ _ _ s2 Hstep2).
  - exact Hinv.
  - exact Hc4.
Defined.
